(** * BinarySearchTree.js: a shallow embedding and its verification

    The JavaScript class [BinarySearchTree] of [src/ds/BinarySearchTree.js]
    keeps its nodes as heap objects linked through [left], [right] and
    [parent].  The embedding keeps the heap: a store of objects addressed
    by their allocation index, references that are [null], [undefined] or
    an address, and every method as a computation over the store in a
    state-and-error monad.  Recursive methods and the [while] loops take
    fuel; the public methods draw it from the size of the store, which
    bounds every acyclic path.

    What the embedding takes for granted: [cmp] is a total function on
    the elements, without effects; [===] on elements is the decidable
    equality of the element type (so no [NaN] among them); the count is
    an integer (a JavaScript number is exact below 2^53).  Elements may
    be arrays: [concat] spreads those, and the embedding is told which
    elements are arrays, and their entries, by a class of the element
    type.

    The file has the embedding first, then the trees the store
    represents and the methods on trees, then the proofs: the store
    lemmas, each method against its tree counterpart, the claims, and
    further properties of the methods. *)

From Stdlib Require Import ZArith Lia List Sorted Permutation.
From stdpp Require Import base decidable option list sets sorting.

Open Scope Z_scope.

(** ** JavaScript values *)

(** What a variable or a property of the program can hold: [undefined]
    (also the result of reading a property an object does not have),
    [null], or a proper value. *)
Inductive js (A : Type) : Type :=
| undefined
| null
| val (a : A).
Arguments undefined {A}.
Arguments null {A}.
Arguments val {A} a.

#[global] Instance js_eq_dec {A} `{EqDecision A} : EqDecision (js A).
Proof. solve_decision. Defined.

(** [if (x)] and [!x] on a reference: objects are truthy, [null] and
    [undefined] are falsy.  (Only references are ever tested this way.) *)
Definition truthy {A} (x : js A) : bool :=
  match x with val _ => true | _ => false end.

(** [x === y] *)
Definition strict_eq {A} `{EqDecision A} (x y : js A) : bool :=
  bool_decide (x = y).

(** A parameter with a default: [f(x = d)] takes [d] when [x] is
    [undefined]. *)
Definition default_arg {A} (x d : js A) : js A :=
  match x with undefined => d | _ => x end.

Definition addr := nat.
Definition ref := js addr.

(** ** Outcomes *)

Inductive failure : Type :=
| TypeError   (* a property read or written on [null] or [undefined] *)
| Stuck       (* outside the embedding: [cmp] applied to [undefined],
                 or an address the store does not hold *)
| OutOfFuel.

Inductive outcome (A : Type) : Type :=
| Ok (a : A)
| Fail (e : failure).
Arguments Ok {A} a.
Arguments Fail {A} e.

(** ** Arrays among the elements *)

(** [arr.concat(x)] appends the entries of [x] when [x] is an array (a
    value [concat] spreads), and [x] itself as one entry otherwise.
    [array_entries x] is [Some] of the entries of an element that is an
    array, a hole read as [undefined], and [None] for any other
    element. *)
Class ConcatSpreadable (T : Type) := array_entries : T -> option (list (js T)).

Section BST.

(** The element type, its native equality ([===]), which of its values
    are arrays, and the ordering predicate given to the constructor. *)
Context {T : Type} `{EqDecision T} `{ConcatSpreadable T}.
Variable cmp : T -> T -> bool.

(** ** Objects and the store *)

(** A [BSTNode] has the four properties; the object literal
    [{left: this.root}] of [remove] has only [left], the others read
    [undefined]. *)
Record obj : Type := Obj {
  value : js T;
  parent : ref;
  left : ref;
  right : ref
}.

(** [new BSTNode(value, parent = null)] *)
Definition BSTNode (v : T) (p : ref) : obj :=
  Obj (val v) (default_arg p null) null null.

Record state : Type := State {
  heap : list obj;
  root : ref;       (* this.root *)
  length : Z        (* this.length *)
}.

Definition M (A : Type) : Type := state -> outcome (A * state).

#[global] Instance M_ret : MRet M := fun A a st => Ok (a, st).
#[global] Instance M_bind : MBind M := fun A B f m st =>
  match m st with
  | Ok (a, st') => f a st'
  | Fail e => Fail e
  end.

Definition throw {A} (e : failure) : M A := fun _ => Fail e.

Definition get_root : M ref := fun st => Ok (root st, st).
Definition set_root (r : ref) : M unit :=
  fun st => Ok (tt, State (heap st) r (length st)).

(** [++this.length] and [--this.length]: the new count is the result. *)
Definition incr_length : M (js Z) :=
  fun st => Ok (val (length st + 1), State (heap st) (root st) (length st + 1)).
Definition decr_length : M (js Z) :=
  fun st => Ok (val (length st - 1), State (heap st) (root st) (length st - 1)).

Definition alloc (o : obj) : M ref :=
  fun st => Ok (val (List.length (heap st)),
                State (heap st ++ [o]) (root st) (length st)).

Definition deref (r : ref) : M obj := fun st =>
  match r with
  | val a => match heap st !! a with
             | Some o => Ok (o, st)
             | None => Fail Stuck
             end
  | _ => Fail TypeError
  end.

Definition update (r : ref) (f : obj -> obj) : M unit := fun st =>
  match r with
  | val a => match heap st !! a with
             | Some o => Ok (tt, State (<[a := f o]> (heap st)) (root st) (length st))
             | None => Fail Stuck
             end
  | _ => Fail TypeError
  end.

Definition get_value (r : ref) : M (js T) := o ← deref r; mret (value o).
Definition get_parent (r : ref) : M ref := o ← deref r; mret (parent o).
Definition get_left (r : ref) : M ref := o ← deref r; mret (left o).
Definition get_right (r : ref) : M ref := o ← deref r; mret (right o).

Definition set_value (r : ref) (x : js T) : M unit :=
  update r (fun o => Obj x (parent o) (left o) (right o)).
Definition set_parent (r : ref) (x : ref) : M unit :=
  update r (fun o => Obj (value o) x (left o) (right o)).
Definition set_left (r : ref) (x : ref) : M unit :=
  update r (fun o => Obj (value o) (parent o) x (right o)).
Definition set_right (r : ref) (x : ref) : M unit :=
  update r (fun o => Obj (value o) (parent o) (left o) x).

(** ['left'] or ['right'], for [node.parent[nodeSide] = ...] *)
Inductive side : Type := Left | Right.
Definition set_side (r : ref) (s : side) (x : ref) : M unit :=
  match s with Left => set_left r x | Right => set_right r x end.

(** [this.cmp(a, b)] where [b] was read from a node. *)
Definition call_cmp (a : T) (b : js T) : M bool :=
  match b with
  | val b' => mret (cmp a b')
  | _ => throw Stuck
  end.

(** Fuel of the public methods: more than any acyclic path of the store. *)
Definition fuel_of (st : state) : nat := S (List.length (heap st)).

(** ** BSTNode methods *)

(** [return this.left ? this.left.getLeftmostDescendant() : this;] *)
Fixpoint getLeftmostDescendant_fuel (fuel : nat) (this : ref) : M ref :=
  match fuel with
  | O => throw OutOfFuel
  | S fuel' =>
      l ← get_left this;
      if truthy l then
        l' ← get_left this;
        getLeftmostDescendant_fuel fuel' l'
      else mret this
  end.

Fixpoint getRightmostDescendant_fuel (fuel : nat) (this : ref) : M ref :=
  match fuel with
  | O => throw OutOfFuel
  | S fuel' =>
      r ← get_right this;
      if truthy r then
        r' ← get_right this;
        getRightmostDescendant_fuel fuel' r'
      else mret this
  end.

Definition getLeftmostDescendant (this : ref) : M ref :=
  fun st => getLeftmostDescendant_fuel (fuel_of st) this st.
Definition getRightmostDescendant (this : ref) : M ref :=
  fun st => getRightmostDescendant_fuel (fuel_of st) this st.

(** ** BinarySearchTree methods *)

(** A parameter [x = this.root]: the root is read when the argument is
    [undefined]. *)
Definition or_root (x : ref) : M ref :=
  match x with undefined => get_root | _ => mret x end.

(** [insert(value, parent = this.root)].  The two recursive calls are
    statements, not [return]s: the call that recursed finishes with
    [undefined]. *)
Fixpoint insert_fuel (fuel : nat) (v : T) (parent0 : ref) : M (js Z) :=
  match fuel with
  | O => throw OutOfFuel
  | S fuel' =>
      parent ← or_root parent0;
      r ← get_root;
      if negb (truthy r) then
        n ← alloc (BSTNode v undefined);
        set_root n;;
        incr_length
      else
        pv ← get_value parent;
        c ← call_cmp v pv;
        if c : bool then
          pl ← get_left parent;
          if strict_eq pl null then
            n ← alloc (BSTNode v parent);
            set_left parent n;;
            incr_length
          else
            pl' ← get_left parent;
            insert_fuel fuel' v pl';;
            mret undefined
        else
          pr ← get_right parent;
          if strict_eq pr null then
            n ← alloc (BSTNode v parent);
            set_right parent n;;
            incr_length
          else
            pr' ← get_right parent;
            insert_fuel fuel' v pr';;
            mret undefined
  end.

Definition insert (v : T) : M (js Z) :=
  fun st => insert_fuel (fuel_of st) v undefined st.

(** [search(value, node = this.root)] *)
Fixpoint search_fuel (fuel : nat) (v : T) (node0 : ref) : M ref :=
  match fuel with
  | O => throw OutOfFuel
  | S fuel' =>
      node ← or_root node0;
      if negb (truthy node) then mret node else
      nv ← get_value node;
      if strict_eq nv (val v) then mret node else
      nv' ← get_value node;
      c ← call_cmp v nv';
      if c : bool then
        nl ← get_left node;
        search_fuel fuel' v nl
      else
        nr ← get_right node;
        search_fuel fuel' v nr
  end.

Definition search (v : T) : M ref :=
  fun st => search_fuel (fuel_of st) v undefined st.

(** [remove(value)] *)
Definition remove (v : T) : M (js Z) :=
  node ← search v;
  if negb (truthy node) then mret null else
  r ← get_root;
  rootParent ←
    (if strict_eq node r then
       r' ← get_root;
       p ← alloc (Obj undefined undefined r' undefined);
       set_parent node p;;
       mret p
     else mret undefined);
  nl ← get_left node;
  both ← (if truthy nl then nr ← get_right node; mret (truthy nr)
          else mret false);
  (if both : bool then
     nr ← get_right node;
     nextHigher ← getLeftmostDescendant nr;
     nv ← get_value nextHigher;
     set_value node nv;;
     np ← get_parent nextHigher;
     npl ← get_left np;
     let nodeSide := if strict_eq npl nextHigher then Left else Right in
     np1 ← get_parent nextHigher;
     nhr1 ← get_right nextHigher;
     set_side np1 nodeSide nhr1;;
     nhr2 ← get_right nextHigher;
     if truthy nhr2 then
       nhr3 ← get_right nextHigher;
       np2 ← get_parent nextHigher;
       set_parent nhr3 np2
     else mret tt
   else
     np ← get_parent node;
     npl ← get_left np;
     let nodeSide := if strict_eq npl node then Left else Right in
     nl ← get_left node;
     if truthy nl then
       np1 ← get_parent node;
       nl1 ← get_left node;
       set_side np1 nodeSide nl1;;
       nl2 ← get_left node;
       if truthy nl2 then
         nl3 ← get_left node;
         np2 ← get_parent node;
         set_parent nl3 np2
       else mret tt
     else
       np1 ← get_parent node;
       nr1 ← get_right node;
       set_side np1 nodeSide nr1;;
       nr2 ← get_right node;
       if truthy nr2 then
         nr3 ← get_right node;
         np2 ← get_parent node;
         set_parent nr3 np2
       else mret tt);;
  (if truthy rootParent then
     l ← get_left rootParent;
     set_root l
   else mret tt);;
  decr_length.

(** [arr.concat(x)] for a value [x] read from a node. *)
Definition concat_value (arr : list (js T)) (x : js T) : list (js T) :=
  match x with
  | val v =>
      match array_entries v with
      | Some entries => arr ++ entries
      | None => arr ++ [x]
      end
  | _ => arr ++ [x]
  end.

(** [toArray(node = this.root)].  The result of a recursive call is an
    array, and [concat] appends its entries; the value of the node goes
    through [concat] as well, which spreads it when it is an array. *)
Fixpoint toArray_fuel (fuel : nat) (node0 : ref) : M (list (js T)) :=
  match fuel with
  | O => throw OutOfFuel
  | S fuel' =>
      node ← or_root node0;
      let arr := [] in
      nl ← get_left node;
      arr ← (if truthy nl then
               nl' ← get_left node;
               sub ← toArray_fuel fuel' nl';
               mret (arr ++ sub)
             else mret arr);
      nv ← get_value node;
      let arr := concat_value arr nv in
      nr ← get_right node;
      arr ← (if truthy nr then
               nr' ← get_right node;
               sub ← toArray_fuel fuel' nr';
               mret (arr ++ sub)
             else mret arr);
      mret arr
  end.

Definition toArray : M (list (js T)) :=
  fun st => toArray_fuel (fuel_of st) undefined st.

(** [toArray(node)], the argument given. *)
Definition toArray_from (node : ref) : M (list (js T)) :=
  fun st => toArray_fuel (fuel_of st) node st.

(** The loops of [getPredecessor] ([s] is [Left]) and [getSuccessor]
    ([s] is [Right]):
    [while (foundNode.parent && foundNode.parent.left === foundNode)
       foundNode = foundNode.parent;] *)
Fixpoint climb_fuel (fuel : nat) (s : side) (foundNode : ref) : M ref :=
  match fuel with
  | O => throw OutOfFuel
  | S fuel' =>
      p ← get_parent foundNode;
      if truthy p then
        p' ← get_parent foundNode;
        c ← (match s with Left => get_left p' | Right => get_right p' end);
        if strict_eq c foundNode then
          p'' ← get_parent foundNode;
          climb_fuel fuel' s p''
        else mret foundNode
      else mret foundNode
  end.

Definition climb (s : side) (foundNode : ref) : M ref :=
  fun st => climb_fuel (fuel_of st) s foundNode st.

Definition getPredecessor (v : T) : M (js T) :=
  foundNode ← search v;
  if negb (truthy foundNode) then mret null else
  fl ← get_left foundNode;
  if truthy fl then
    fl' ← get_left foundNode;
    d ← getRightmostDescendant fl';
    get_value d
  else
    foundNode ← climb Left foundNode;
    p ← get_parent foundNode;
    if negb (truthy p) then mret null else
    p' ← get_parent foundNode;
    get_value p'.

Definition getSuccessor (v : T) : M (js T) :=
  foundNode ← search v;
  if negb (truthy foundNode) then mret null else
  fr ← get_right foundNode;
  if truthy fr then
    fr' ← get_right foundNode;
    d ← getLeftmostDescendant fr';
    get_value d
  else
    foundNode ← climb Right foundNode;
    p ← get_parent foundNode;
    if negb (truthy p) then mret null else
    p' ← get_parent foundNode;
    get_value p'.

(** [new BinarySearchTree(list, cmp)] in a fresh store: the fields are
    initialised and the items inserted in order. *)
Definition init : state := State [] null 0.

Fixpoint forEach {A} (f : A -> M (js Z)) (l : list A) : M unit :=
  match l with
  | [] => mret tt
  | x :: l' => f x;; forEach f l'
  end.

Definition constructor (l : list T) : outcome (unit * state) :=
  forEach insert l init.

(** Sequences of calls on one tree, with the value each call returned. *)
Inductive op : Type :=
| Insert (v : T)
| Remove (v : T).

Definition exec (o : op) : M (js Z) :=
  match o with
  | Insert v => insert v
  | Remove v => remove v
  end.

Fixpoint run (ops : list op) : M (list (js Z)) :=
  match ops with
  | [] => mret []
  | o :: ops' => r ← exec o; rs ← run ops'; mret (r :: rs)
  end.

(** The value a call returned, without the state it left. *)
Definition result {A} (o : outcome (A * state)) : outcome A :=
  match o with
  | Ok (a, _) => Ok a
  | Fail e => Fail e
  end.

(** The nodes reachable from a reference through [left] and [right],
    parent first. *)
Fixpoint reach (fuel : nat) (h : list obj) (r : ref) : option (list addr) :=
  match fuel with
  | O => None
  | S fuel' =>
      match r with
      | val a =>
          match h !! a with
          | Some o =>
              match reach fuel' h (left o), reach fuel' h (right o) with
              | Some ls, Some rs => Some (a :: ls ++ rs)
              | _, _ => None
              end
          | None => None
          end
      | _ => Some []
      end
  end.

Definition reachable (st : state) : option (list addr) :=
  reach (fuel_of st) (heap st) (root st).

(** ** The tree a store holds *)

(** Binary trees whose nodes carry their address. *)
Inductive tree : Type :=
| E
| N (l : tree) (a : addr) (v : T) (r : tree).

Definition rootref (t : tree) : ref :=
  match t with E => null | N _ a _ _ => val a end.

Fixpoint addrs (t : tree) : list addr :=
  match t with
  | E => []
  | N l a _ r => a :: addrs l ++ addrs r
  end.

(** In-order values. *)
Fixpoint elements (t : tree) : list T :=
  match t with
  | E => []
  | N l _ v r => elements l ++ v :: elements r
  end.

(** What [concat] appends for a sequence of elements, one after the
    other: the entries of those that are arrays, the others
    themselves. *)
Definition spread_all (xs : list T) : list (js T) :=
  flat_map (fun x => concat_value [] (val x)) xs.

Fixpoint size (t : tree) : nat :=
  match t with
  | E => O
  | N l _ _ r => S (size l + size r)
  end.

Fixpoint height (t : tree) : nat :=
  match t with
  | E => O
  | N l _ _ r => S (Nat.max (height l) (height r))
  end.

(** [shape h par t]: the store [h] holds the nodes of [t], linked as in
    [t], the root of [t] having [par] as its [parent]. *)
Fixpoint shape (h : list obj) (par : ref) (t : tree) : Prop :=
  match t with
  | E => True
  | N l a v r =>
      h !! a = Some (Obj (val v) par (rootref l) (rootref r))
      /\ shape h (val a) l /\ shape h (val a) r
  end.

(** One step of a path from a subtree up to the root: the subtree is the
    left child of [a] ([FL]), its right child ([FR]), or it hangs from the
    [left] of the object [{left: ...}] that [remove] made ([FP], which
    can only be the last step). *)
Inductive frame : Type :=
| FL (a : addr) (v : T) (r : tree)
| FR (l : tree) (a : addr) (v : T)
| FP (p : addr).

Definition ctx := list frame.

Definition faddr (f : frame) : addr :=
  match f with FL a _ _ => a | FR _ a _ => a | FP p => p end.

Definition faddrs (f : frame) : list addr :=
  match f with
  | FL a _ r => a :: addrs r
  | FR l a _ => a :: addrs l
  | FP p => [p]
  end.

Fixpoint caddrs (c : ctx) : list addr :=
  match c with
  | [] => []
  | f :: c' => faddrs f ++ caddrs c'
  end.

(** The [parent] of the subtree in the hole of [c]. *)
Definition cpar (c : ctx) : ref :=
  match c with [] => null | f :: _ => val (faddr f) end.

Definition fill (f : frame) (t : tree) : tree :=
  match f with
  | FL a v r => N t a v r
  | FR l a v => N l a v t
  | FP _ => t
  end.

Fixpoint plug (c : ctx) (t : tree) : tree :=
  match c with
  | [] => t
  | f :: c' => plug c' (fill f t)
  end.

(** [cshape h c hole]: the store holds the frames of [c], innermost
    first, the innermost one pointing to [hole]. *)
Fixpoint cshape (h : list obj) (c : ctx) (hole : ref) : Prop :=
  match c with
  | [] => True
  | FL a v r :: c' =>
      h !! a = Some (Obj (val v) (cpar c') hole (rootref r))
      /\ shape h (val a) r /\ cshape h c' (val a)
  | FR l a v :: c' =>
      h !! a = Some (Obj (val v) (cpar c') (rootref l) hole)
      /\ shape h (val a) l /\ cshape h c' (val a)
  | FP p :: c' =>
      h !! p = Some (Obj undefined undefined hole undefined) /\ c' = []
  end.

(** A subtree in its context, all addresses distinct. *)
Definition zrep (h : list obj) (c : ctx) (t : tree) : Prop :=
  cshape h c (rootref t) /\ shape h (cpar c) t /\ NoDup (addrs t ++ caddrs c).

(** What is above the root: nothing, or the object a [remove] at the
    root left behind. *)
Definition top (c : ctx) : Prop := c = [] \/ exists p, c = [FP p].

(** The state holds the tree [t]. *)
Definition Inv (st : state) (t : tree) : Prop :=
  exists c, top c /\ zrep (heap st) c t
            /\ root st = rootref t /\ length st = Z.of_nat (size t).

(** The root of [plug c t], given the root [hole] of [t]. *)
Fixpoint croot (c : ctx) (hole : ref) : ref :=
  match c with
  | [] => hole
  | FP _ :: _ => hole
  | f :: c' => croot c' (val (faddr f))
  end.

(** Frames that are nodes. *)
Definition is_node (f : frame) : Prop :=
  match f with FP _ => False | _ => True end.

(** [x.parent[nodeSide] = g(x); if (g(x)) g(x).parent = x.parent;] for
    [g] one of [.left] and [.right]: the statements of [remove] that put
    a child of [x] in the place of [x], which it has three times. *)
Definition relink (g : ref -> M ref) (x : ref) (nodeSide : side) : M unit :=
  xp ← get_parent x;
  c ← g x;
  set_side xp nodeSide c;;
  c' ← g x;
  if truthy c' then
    c'' ← g x;
    xp' ← get_parent x;
    set_parent c'' xp'
  else mret tt.

(** The property of the frame's object that points to the hole. *)
Definition side_of (f : frame) : side :=
  match f with FR _ _ _ => Right | _ => Left end.

(** ** The methods on trees *)

(** [insert]: the new node gets the address [n]. *)
Fixpoint tinsert (n : addr) (v : T) (t : tree) : tree :=
  match t with
  | E => N E n v E
  | N l a w r =>
      if cmp v w then N (tinsert n v l) a w r else N l a w (tinsert n v r)
  end.

(** Whether [insert] attaches the new node without recursing, and so
    returns the count. *)
Definition direct (v : T) (t : tree) : bool :=
  match t with
  | E => true
  | N l _ w r =>
      if cmp v w then negb (truthy (rootref l)) else negb (truthy (rootref r))
  end.

(** [search]: the way down, and the subtree it stops at ([E] or a node
    holding [v]). *)
Fixpoint path (v : T) (t : tree) : ctx * tree :=
  match t with
  | E => ([], E)
  | N l a w r =>
      if decide (w = v) then ([], t)
      else if cmp v w then
        let '(c, f) := path v l in (c ++ [FL a w r], f)
      else
        let '(c, f) := path v r in (c ++ [FR l a w], f)
  end.

(** The leftmost node of [N l a v r]: the way down, its address, value
    and right subtree. *)
Fixpoint lm (l : tree) (a : addr) (v : T) (r : tree) : ctx * addr * T * tree :=
  match l with
  | E => ([], a, v, r)
  | N ll la lv lr =>
      let '(c, m, mv, mr) := lm ll la lv lr in (c ++ [FL a v r], m, mv, mr)
  end.

Fixpoint rm (l : tree) (a : addr) (v : T) (r : tree) : addr * T :=
  match r with
  | E => (a, v)
  | N rl ra rv rr => rm rl ra rv rr
  end.

(** [remove] at the node found. *)
Definition remove_root (t : tree) : tree :=
  match t with
  | E => E
  | N l a v r =>
      match l, r with
      | N _ _ _ _, N rl ra rv rr =>
          let '(c, _, mv, mr) := lm rl ra rv rr in N l a mv (plug c mr)
      | N _ _ _ _, E => l
      | E, _ => r
      end
  end.

Definition tremove (v : T) (t : tree) : tree :=
  let '(c, f) := path v t in plug c (remove_root f).

Definition texec (n : addr) (o : op) (t : tree) : tree :=
  match o with
  | Insert v => tinsert n v t
  | Remove v => tremove v t
  end.

(** The trees a sequence of calls leads through; [n] is the address the
    store gives a new node. *)
Inductive evolves : tree -> list op -> tree -> Prop :=
| evolves_nil t : evolves t [] t
| evolves_cons n o t ops t' :
    evolves (texec n o t) ops t' -> evolves t (o :: ops) t'.

(** The search-tree property: left of a node what [cmp] puts before its
    value, right of it what [cmp] does not. *)
Fixpoint bst (t : tree) : Prop :=
  match t with
  | E => True
  | N l _ v r =>
      Forall (fun x => cmp x v = true) (elements l)
      /\ Forall (fun x => cmp x v = false) (elements r)
      /\ bst l /\ bst r
  end.

(** Ascending under [cmp]: no element is before an earlier one. *)
Definition ascending (xs : list T) : Prop :=
  StronglySorted (fun x y => cmp y x = false) xs.

(** The multiset a sequence of calls leaves. *)
Fixpoint remove_one (v : T) (xs : list T) : list T :=
  match xs with
  | [] => []
  | x :: xs' => if decide (x = v) then xs' else x :: remove_one v xs'
  end.

Definition stored_after (xs : list T) (o : op) : list T :=
  match o with
  | Insert v => v :: xs
  | Remove v => remove_one v xs
  end.

Definition stored (ops : list op) : list T := fold_left stored_after ops [].

(** Successful inserts minus successful removes, from the values the
    calls returned ([remove] returns [null] when it finds nothing). *)
Fixpoint net (ops : list op) (rets : list (js Z)) : Z :=
  match ops, rets with
  | Insert _ :: ops', _ :: rets' => 1 + net ops' rets'
  | Remove _ :: ops', r :: rets' =>
      (if strict_eq r null then 0 else -1) + net ops' rets'
  | _, _ => 0
  end.

(** What the walks of [getPredecessor] and [getSuccessor] return from a
    node in the hole of [c] that has no subtree on that side. *)
Fixpoint ctx_pred (c : ctx) : js T :=
  match c with
  | [] => null
  | FL _ _ _ :: c' => ctx_pred c'
  | FR _ _ w :: _ => val w
  | FP _ :: _ => null
  end.

Fixpoint ctx_succ (c : ctx) : js T :=
  match c with
  | [] => null
  | FR _ _ _ :: c' => ctx_succ c'
  | FL _ w _ :: _ => val w
  | FP _ :: _ => undefined
  end.

(** What [getPredecessor] and [getSuccessor] return on a tree under the
    context [c0]. *)
Definition tpred (c0 : ctx) (v : T) (t : tree) : js T :=
  match path v t with
  | (c, N l _ _ _) =>
      match l with
      | E => ctx_pred (c ++ c0)
      | N ll la lv lr => val (rm ll la lv lr).2
      end
  | (_, E) => null
  end.

Definition tsucc (c0 : ctx) (v : T) (t : tree) : js T :=
  match path v t with
  | (c, N _ _ _ r) =>
      match r with
      | E => ctx_succ (c ++ c0)
      | N rl ra rv rr => val (lm rl ra rv rr).1.2
      end
  | (_, E) => null
  end.

(** The values before and after the node [search] finds, in order. *)
Fixpoint before (v : T) (t : tree) : list T :=
  match t with
  | E => []
  | N l _ w r =>
      if decide (w = v) then elements l
      else if cmp v w then before v l
      else elements l ++ w :: before v r
  end.

Fixpoint after (v : T) (t : tree) : list T :=
  match t with
  | E => []
  | N l _ w r =>
      if decide (w = v) then elements r
      else if cmp v w then after v l ++ w :: elements r
      else after v r
  end.

Fixpoint count_of (v : T) (xs : list T) : nat :=
  match xs with
  | [] => O
  | x :: xs' => (if decide (x = v) then 1 else 0) + count_of v xs'
  end.

(** [this.root.parent], when there is a root. *)
Definition root_parent (st : state) : option ref :=
  match root st with
  | val a => parent <$> heap st !! a
  | _ => None
  end.

Definition is_min (m : T) (xs : list T) : Prop :=
  m ∈ xs /\ forall x, x ∈ xs -> cmp x m = false.
Definition is_max (m : T) (xs : list T) : Prop :=
  m ∈ xs /\ forall x, x ∈ xs -> cmp m x = false.

End BST.

(** ** A tree of integers, for the examples *)

(** An integer is not an array. *)
#[global] Instance Z_spreadable : ConcatSpreadable Z := fun _ => None.

(** ** Elements that may be arrays, for the examples *)

(** A number, or an array of numbers.  An array is an object, and
    [===] on arrays compares their identity, here [id]. *)
Inductive item : Type :=
| Num (z : Z)
| Arr (id : nat) (entries : list Z).

#[global] Instance item_eq_dec : EqDecision item.
Proof. solve_decision. Defined.

#[global] Instance item_spreadable : ConcatSpreadable item := fun x =>
  match x with
  | Num _ => None
  | Arr _ entries => Some ((fun z => val (Num z)) <$> entries)
  end.

(** [(a, b) => a.length < b.length], which is [false] when one of the
    two is a number: its [length] is [undefined]. *)
Definition shorter (a b : item) : bool :=
  match a, b with
  | Arr _ xs, Arr _ ys => (List.length xs <? List.length ys)%nat
  | _, _ => false
  end.

(** The tree of [new BinarySearchTree([2, 1, 3])] and the state that
    holds it. *)
Definition tree_213 : @tree Z :=
  N (N E 1%nat 1 E) 0%nat 2 (N E 2%nat 3 E).

Definition state_213 : @state Z :=
  State [Obj (val 2) null (val 1%nat) (val 2%nat);
         Obj (val 1) (val 0%nat) null null;
         Obj (val 3) (val 0%nat) null null]
        (val 0%nat) 3.

(** * Proofs *)

Section Monad.

Context {T : Type} `{EqDecision T}.
Implicit Types (h : list (@obj T)) (st : @state T) (t l r : @tree T)
  (c : @ctx T) (f : @frame T) (a b n m p : addr) (o : @obj T).

(** ** Running the monad *)

Lemma bind_ok {A B} (m : M A) (k : A -> M B) st x st' :
  m st = Ok (x, st') -> (m ≫= k) st = k x st'.
Proof. unfold mbind, M_bind. intros ->. reflexivity. Qed.

Lemma bind_fail {A B} (m : M A) (k : A -> M B) st e :
  m st = Fail e -> (m ≫= k) st = Fail e.
Proof. unfold mbind, M_bind. intros ->. reflexivity. Qed.

Lemma ret_ok {A} (x : A) st : mret (M:=M) x st = Ok (x, st).
Proof. reflexivity. Qed.

Lemma deref_ok a o st :
  heap st !! a = Some o -> deref (val a) st = Ok (o, st).
Proof. unfold deref. intros ->. reflexivity. Qed.

Lemma get_value_ok a o st :
  heap st !! a = Some o -> get_value (val a) st = Ok (value o, st).
Proof. intros Ha. unfold get_value. erewrite bind_ok by (apply deref_ok, Ha). reflexivity. Qed.

Lemma get_parent_ok a o st :
  heap st !! a = Some o -> get_parent (val a) st = Ok (parent o, st).
Proof. intros Ha. unfold get_parent. erewrite bind_ok by (apply deref_ok, Ha). reflexivity. Qed.

Lemma get_left_ok a o st :
  heap st !! a = Some o -> get_left (val a) st = Ok (left o, st).
Proof. intros Ha. unfold get_left. erewrite bind_ok by (apply deref_ok, Ha). reflexivity. Qed.

Lemma get_right_ok a o st :
  heap st !! a = Some o -> get_right (val a) st = Ok (right o, st).
Proof. intros Ha. unfold get_right. erewrite bind_ok by (apply deref_ok, Ha). reflexivity. Qed.

Lemma update_ok a o g st :
  heap st !! a = Some o ->
  update (val a) g st = Ok (tt, State (<[a := g o]> (heap st)) (root st) (length st)).
Proof. unfold update. intros ->. reflexivity. Qed.

End Monad.

(** One step of a computation whose first action is a read that is
    known to succeed. *)
Tactic Notation "mstep" uconstr(L) :=
  erewrite bind_ok by (eapply L; eassumption).

Section Store.

Context {T : Type} `{EqDecision T}.
Implicit Types (h : list (@obj T)) (st : @state T) (t l r : @tree T)
  (c : @ctx T) (f : @frame T) (a b n m p : addr) (o : @obj T).

(** ** Lookups in a store after a write or an allocation *)

Lemma lookup_set_eq h a o o' :
  h !! a = Some o -> <[a := o']> h !! a = Some o'.
Proof. intros Ha. apply list_lookup_insert_eq. eapply lookup_lt_Some, Ha. Qed.

Lemma lookup_set_ne h a b o' :
  a <> b -> <[a := o']> h !! b = h !! b.
Proof. apply list_lookup_insert_ne. Qed.

Lemma lookup_alloc_old h b o o' :
  h !! b = Some o -> (h ++ [o']) !! b = Some o.
Proof. intros Hb. rewrite lookup_app_l; [done | eapply lookup_lt_Some, Hb]. Qed.

Lemma lookup_alloc_new h o' :
  (h ++ [o']) !! List.length h = Some o'.
Proof. rewrite lookup_app_r by lia. by rewrite Nat.sub_diag. Qed.

(** ** Trees *)

Lemma shape_lt h par t a :
  shape h par t -> a ∈ addrs t -> (a < List.length h)%nat.
Proof.
  revert par. induction t as [|l IHl b v r IHr]; intros par Hs Ha; simpl in *.
  - by apply elem_of_nil in Ha.
  - destruct Hs as (Hb & Hl & Hr).
    apply elem_of_cons in Ha as [->|Ha].
    + eapply lookup_lt_Some, Hb.
    + apply elem_of_app in Ha as [Ha|Ha]; eauto.
Qed.

(** A store that agrees on the addresses of [t] holds [t] as well. *)
Lemma shape_ext h h' par t :
  (forall a, a ∈ addrs t -> h' !! a = h !! a) ->
  shape h par t -> shape h' par t.
Proof.
  revert par. induction t as [|l IHl b v r IHr]; intros par Hext Hs; simpl in *; [done|].
  destruct Hs as (Hb & Hl & Hr). split_and!.
  - rewrite Hext; [done | apply elem_of_cons; by left].
  - apply IHl; [|done]. intros a Ha. apply Hext.
    apply elem_of_cons. right. apply elem_of_app. by left.
  - apply IHr; [|done]. intros a Ha. apply Hext.
    apply elem_of_cons. right. apply elem_of_app. by right.
Qed.

Lemma cshape_ext h h' c hole :
  (forall a, a ∈ caddrs c -> h' !! a = h !! a) ->
  cshape h c hole -> cshape h' c hole.
Proof.
  revert hole. induction c as [|f c IH]; intros hole Hext Hc; [done|].
  destruct f as [a v r|l a v|p]; simpl in *.
  - destruct Hc as (Ha & Hr & Hc). split_and!.
    + rewrite Hext; [done | apply elem_of_cons; by left].
    + eapply shape_ext; [|done]. intros b Hb. apply Hext.
      apply elem_of_cons. right. apply elem_of_app. by left.
    + apply IH; [|done]. intros b Hb. apply Hext.
      apply elem_of_cons. right. apply elem_of_app. by right.
  - destruct Hc as (Ha & Hr & Hc). split_and!.
    + rewrite Hext; [done | apply elem_of_cons; by left].
    + eapply shape_ext; [|done]. intros b Hb. apply Hext.
      apply elem_of_cons. right. apply elem_of_app. by left.
    + apply IH; [|done]. intros b Hb. apply Hext.
      apply elem_of_cons. right. apply elem_of_app. by right.
  - destruct Hc as (Hp & ->). split; [|done].
    rewrite Hext; [done | apply elem_of_cons; by left].
Qed.

Lemma cshape_lt h c hole a :
  cshape h c hole -> a ∈ caddrs c -> (a < List.length h)%nat.
Proof.
  revert hole. induction c as [|f c IH]; intros hole Hc Ha; simpl in *.
  - by apply elem_of_nil in Ha.
  - apply elem_of_app in Ha as [Ha|Ha].
    + destruct f as [b v r|l b v|p]; simpl in *.
      * destruct Hc as (Hb & Hr & Hc).
        apply elem_of_cons in Ha as [->|Ha]; [eapply lookup_lt_Some, Hb | eapply shape_lt; eauto].
      * destruct Hc as (Hb & Hr & Hc).
        apply elem_of_cons in Ha as [->|Ha]; [eapply lookup_lt_Some, Hb | eapply shape_lt; eauto].
      * destruct Hc as (Hb & _). apply list_elem_of_singleton in Ha as ->.
        eapply lookup_lt_Some, Hb.
    + destruct f as [b v r|l b v|p]; simpl in *.
      * destruct Hc as (Hb & Hr & Hc). eauto.
      * destruct Hc as (Hb & Hr & Hc). eauto.
      * destruct Hc as (Hb & ->). by apply elem_of_nil in Ha.
Qed.

Lemma zrep_lt h c t a :
  zrep h c t -> a ∈ addrs t ++ caddrs c -> (a < List.length h)%nat.
Proof.
  intros (Hc & Hs & _) Ha. apply elem_of_app in Ha as [Ha|Ha].
  - eapply shape_lt; eauto.
  - eapply cshape_lt; eauto.
Qed.

Lemma size_addrs t : size t = List.length (addrs t).
Proof.
  induction t as [|l IHl a v r IHr]; simpl; [done|].
  rewrite length_app. lia.
Qed.

Lemma height_le_size t : (height t <= size t)%nat.
Proof. induction t; simpl; lia. Qed.

(** Distinct addresses of a store are no more than its size. *)
Lemma NoDup_bounded (xs : list nat) n :
  NoDup xs -> (forall x, x ∈ xs -> (x < n)%nat) -> (List.length xs <= n)%nat.
Proof.
  intros Hnd Hlt.
  assert (xs ⊆+ seq 0%nat n) as Hsub.
  { apply NoDup_submseteq; [done|].
    intros x Hx. apply elem_of_seq. specialize (Hlt x Hx). lia. }
  apply submseteq_length in Hsub. by rewrite length_seq in Hsub.
Qed.

Lemma zrep_size h c t :
  zrep h c t -> (size t + List.length (caddrs c) <= List.length h)%nat.
Proof.
  intros Hz. rewrite size_addrs, <- length_app.
  apply NoDup_bounded; [apply Hz|]. intros x Hx. eapply zrep_lt; eauto.
Qed.

(** ** Moving the focus *)

Lemma plug_app c1 c2 t : plug (c1 ++ c2) t = plug c2 (plug c1 t).
Proof. revert t. induction c1 as [|f c1 IH]; intros t; simpl; [done|]. apply IH. Qed.

Lemma perm_focus_left {A} (a : A) xs ys zs :
  a :: (xs ++ ys) ++ zs ≡ₚ xs ++ a :: ys ++ zs.
Proof. rewrite <- app_assoc. apply Permutation_middle. Qed.

Lemma perm_focus_right {A} (a : A) xs ys zs :
  a :: (ys ++ xs) ++ zs ≡ₚ xs ++ a :: ys ++ zs.
Proof.
  rewrite <- Permutation_middle. constructor.
  rewrite (app_assoc xs). apply Permutation_app_tail, Permutation_app_comm.
Qed.

Lemma zrep_step h f c t :
  is_node f -> zrep h (f :: c) t <-> zrep h c (fill f t).
Proof.
  intros Hf. unfold zrep. destruct f as [a v r|l a v|p]; [| |done]; simpl.
  - rewrite perm_focus_left. tauto.
  - rewrite perm_focus_right. tauto.
Qed.

Lemma zrep_app h c1 c2 t :
  Forall is_node c1 -> zrep h (c1 ++ c2) t <-> zrep h c2 (plug c1 t).
Proof.
  intros Hc1. revert t. induction Hc1 as [|f c1 Hf _ IH]; intros t; simpl; [done|].
  rewrite zrep_step by done. apply IH.
Qed.

(** The fuel of the public methods is enough for the tree a state holds. *)
Lemma Inv_fuel st t : Inv st t -> (height t < fuel_of st)%nat.
Proof.
  intros (c & _ & Hz & _). apply zrep_size in Hz.
  pose proof (height_le_size t). unfold fuel_of. lia.
Qed.

End Store.

Section SearchInsert.

Context {T : Type} `{EqDecision T}.
Variable cmp : T -> T -> bool.
Implicit Types (h : list (@obj T)) (st : @state T) (t l r : @tree T)
  (c : @ctx T) (f : @frame T) (a b n m p : addr) (o : @obj T) (v w : T).

(** One step of a computation whose first action is known. *)
(** ** search *)

Lemma path_plug v t : plug (path cmp v t).1 (path cmp v t).2 = t.
Proof.
  induction t as [|l IHl a w r IHr]; simpl; [done|].
  destruct (decide (w = v)); [done|].
  destruct (cmp v w).
  - destruct (path cmp v l) as [c f]. simpl in *. by rewrite plug_app, IHl.
  - destruct (path cmp v r) as [c f]. simpl in *. by rewrite plug_app, IHr.
Qed.

Lemma path_nodes v t : Forall is_node (path cmp v t).1.
Proof.
  induction t as [|l IHl a w r IHr]; simpl; [constructor|].
  destruct (decide (w = v)); [constructor|].
  destruct (cmp v w).
  - destruct (path cmp v l) as [c f]. simpl in *. apply Forall_app. split; [done|]. by repeat constructor.
  - destruct (path cmp v r) as [c f]. simpl in *. apply Forall_app. split; [done|]. by repeat constructor.
Qed.

Lemma path_focus v t :
  (path cmp v t).2 = E \/ exists l a r, (path cmp v t).2 = N l a v r.
Proof.
  induction t as [|l IHl a w r IHr]; simpl; [by left|].
  destruct (decide (w = v)) as [->|]; [right; eauto|].
  destruct (cmp v w).
  - by destruct (path cmp v l) as [c f].
  - by destruct (path cmp v r) as [c f].
Qed.

Lemma search_fuel_spec v t : forall fuel par st,
  shape (heap st) par t -> (height t < fuel)%nat ->
  search_fuel cmp fuel v (rootref t) st = Ok (rootref (path cmp v t).2, st).
Proof.
  induction t as [|l IHl a w r IHr]; intros fuel par st Hs Hf;
    (destruct fuel as [|fuel]; [lia|]).
  - reflexivity.
  - simpl in Hs, Hf. destruct Hs as (Ha & Hl & Hr).
    cbn [search_fuel rootref or_root]. rewrite (bind_ok _ _ _ _ _ (ret_ok _ _)).
    cbn [truthy negb].
    mstep get_value_ok. cbn [value].
    unfold strict_eq. simpl path.
    destruct (decide (w = v)) as [->|Hne].
    + rewrite bool_decide_eq_true_2 by done. reflexivity.
    + rewrite bool_decide_eq_false_2 by congruence.
      mstep get_value_ok. cbn [value call_cmp].
      rewrite (bind_ok _ _ _ _ _ (ret_ok _ _)).
      destruct (cmp v w).
      * mstep get_left_ok. cbn [left].
        erewrite IHl; [|done|lia]. by destruct (path cmp v l).
      * mstep get_right_ok. cbn [right].
        erewrite IHr; [|done|lia]. by destruct (path cmp v r).
Qed.

(** ** insert *)

Lemma rootref_tinsert n v t : t <> E -> rootref (tinsert cmp n v t) = rootref t.
Proof. destruct t; [done|]. intros _. simpl. by destruct (cmp v v0). Qed.

Lemma addrs_tinsert n v t : addrs (tinsert cmp n v t) ≡ₚ n :: addrs t.
Proof.
  induction t as [|l IHl a w r IHr]; simpl; [done|].
  destruct (cmp v w); simpl.
  - rewrite IHl. simpl. apply perm_swap.
  - rewrite IHr. rewrite <- Permutation_middle. apply perm_swap.
Qed.

Lemma size_tinsert n v t : size (tinsert cmp n v t) = S (size t).
Proof. rewrite !size_addrs, addrs_tinsert. done. Qed.

Lemma elements_tinsert n v t : elements (tinsert cmp n v t) ≡ₚ v :: elements t.
Proof.
  induction t as [|l IHl a w r IHr]; simpl; [done|].
  destruct (cmp v w); simpl.
  - by rewrite IHl.
  - rewrite IHr. rewrite <- !Permutation_middle. apply perm_swap.
Qed.

Lemma insert_fuel_spec v t : forall fuel par st,
  t <> E -> shape (heap st) par t -> NoDup (addrs t) ->
  truthy (root st) = true -> (height t <= fuel)%nat ->
  exists h',
    insert_fuel cmp fuel v (rootref t) st
    = Ok (if direct cmp v t then val (length st + 1) else undefined,
          State h' (root st) (length st + 1))
    /\ shape h' par (tinsert cmp (List.length (heap st)) v t)
    /\ List.length h' = S (List.length (heap st))
    /\ forall b, (b < List.length (heap st))%nat -> b ∉ addrs t ->
                 h' !! b = heap st !! b.
Proof.
  induction t as [|l IHl a w r IHr]; intros fuel par st Hne Hs Hnd Hroot Hf; [done|].
  destruct fuel as [|fuel]; [simpl in Hf; lia|].
  simpl in Hs, Hf, Hnd. destruct Hs as (Ha & Hl & Hr).
  apply NoDup_cons in Hnd as (Hal & Hnd).
  apply NoDup_app in Hnd as (Hndl & Hlr & Hndr).
  rewrite elem_of_app in Hal.
  assert (a < List.length (heap st))%nat as Halt by (eapply lookup_lt_Some, Ha).
  cbn [insert_fuel rootref or_root]. rewrite (bind_ok _ _ _ _ _ (ret_ok _ _)).
  unfold get_root. rewrite (bind_ok _ _ _ _ _ eq_refl).
  rewrite Hroot. cbn [negb].
  mstep get_value_ok. cbn [value call_cmp].
  rewrite (bind_ok _ _ _ _ _ (ret_ok _ _)).
  cbn [direct tinsert]. destruct (cmp v w).
  - mstep get_left_ok. cbn [left].
    destruct l as [|ll la lv lr].
    + cbn [rootref truthy negb]. unfold strict_eq. rewrite bool_decide_eq_true_2 by done.
      unfold alloc. rewrite (bind_ok _ _ _ _ _ eq_refl).
      unfold set_left.
      erewrite bind_ok by (apply update_ok; cbn [heap]; eapply lookup_alloc_old, Ha).
      cbn [value parent right root length heap]. unfold incr_length. cbn [heap root length].
      eexists. split; [reflexivity|]. split_and!.
      * cbn [shape tinsert rootref]. split; [|split].
        -- eapply lookup_set_eq, lookup_alloc_old, Ha.
        -- rewrite lookup_set_ne by lia. unfold BSTNode. cbn [default_arg].
           split; [apply lookup_alloc_new|done].
        -- eapply shape_ext; [|exact Hr]. intros b Hb.
           assert (b <> a) by (intros ->; tauto).
           rewrite lookup_set_ne by done.
           apply lookup_app_l. eapply shape_lt; [exact Hr|exact Hb].
      * rewrite length_insert, length_app. simpl. lia.
      * intros b Hb Hnb. rewrite lookup_set_ne.
        -- by apply lookup_app_l.
        -- intros ->. apply Hnb. apply elem_of_cons. by left.
    + cbn [rootref truthy negb]. unfold strict_eq. rewrite bool_decide_eq_false_2 by done.
      destruct (IHl fuel (val a) st) as (h' & Hrun & Hs' & Hlen & Hframe);
        [done|done|done|done|lia|].
      mstep get_left_ok. cbn [left rootref].
      erewrite bind_ok by (exact Hrun). rewrite ret_ok.
      exists h'. split; [reflexivity|]. split_and!; [|done|].
      * cbn [shape]. rewrite rootref_tinsert by done. split_and!; [|done|].
        -- rewrite Hframe; [done|done|tauto].
        -- eapply shape_ext; [|exact Hr]. intros b Hb.
           apply Hframe; [eapply shape_lt; [exact Hr|exact Hb]|]. intros Hbl. by eapply Hlr.
      * intros b Hb Hnb. apply Hframe; [done|]. intros Hbl. apply Hnb.
        apply elem_of_cons. right. apply elem_of_app. by left.
  - mstep get_right_ok. cbn [right].
    destruct r as [|rl ra rv rr].
    + cbn [rootref truthy negb]. unfold strict_eq. rewrite bool_decide_eq_true_2 by done.
      unfold alloc. rewrite (bind_ok _ _ _ _ _ eq_refl).
      unfold set_right.
      erewrite bind_ok by (apply update_ok; cbn [heap]; eapply lookup_alloc_old, Ha).
      cbn [value parent left root length heap]. unfold incr_length. cbn [heap root length].
      eexists. split; [reflexivity|]. split_and!.
      * cbn [shape tinsert rootref]. split; [|split].
        -- eapply lookup_set_eq, lookup_alloc_old, Ha.
        -- eapply shape_ext; [|exact Hl]. intros b Hb.
           assert (b <> a) by (intros ->; tauto).
           rewrite lookup_set_ne by done.
           apply lookup_app_l. eapply shape_lt; [exact Hl|exact Hb].
        -- rewrite lookup_set_ne by lia. unfold BSTNode. cbn [default_arg].
           split; [apply lookup_alloc_new|done].
      * rewrite length_insert, length_app. simpl. lia.
      * intros b Hb Hnb. rewrite lookup_set_ne.
        -- by apply lookup_app_l.
        -- intros ->. apply Hnb. apply elem_of_cons. by left.
    + cbn [rootref truthy negb]. unfold strict_eq. rewrite bool_decide_eq_false_2 by done.
      destruct (IHr fuel (val a) st) as (h' & Hrun & Hs' & Hlen & Hframe);
        [done|done|done|done|lia|].
      mstep get_right_ok. cbn [right rootref].
      erewrite bind_ok by (exact Hrun). rewrite ret_ok.
      exists h'. split; [reflexivity|]. split_and!; [|done|].
      * cbn [shape]. rewrite rootref_tinsert by done. split_and!; [| |done].
        -- rewrite Hframe; [done|done|tauto].
        -- eapply shape_ext; [|exact Hl]. intros b Hb.
           apply Hframe; [eapply shape_lt; [exact Hl|exact Hb]|]. intros Hbr. by eapply Hlr.
      * intros b Hb Hnb. apply Hframe; [done|]. intros Hbr. apply Hnb.
        apply elem_of_cons. right. apply elem_of_app. by right.
Qed.

Lemma insert_fuel_default fuel v st :
  root st <> undefined ->
  insert_fuel cmp fuel v undefined st = insert_fuel cmp fuel v (root st) st.
Proof.
  intros Hr. destruct fuel as [|fuel]; [done|].
  cbn [insert_fuel or_root]. unfold get_root at 1.
  rewrite (bind_ok _ _ _ _ _ eq_refl).
  destruct (root st) eqn:Hroot; [done| |]; cbn [or_root];
    by rewrite (bind_ok _ _ _ _ _ (ret_ok _ _)).
Qed.

(** [insert] on a state that holds [t]: it succeeds, the state then
    holds [tinsert] of [t], and the count is returned exactly when the
    call did not recurse. *)
Lemma insert_spec v st t :
  Inv st t ->
  exists st',
    insert cmp v st
    = Ok (if direct cmp v t then val (length st + 1) else undefined, st')
    /\ Inv st' (tinsert cmp (List.length (heap st)) v t)
    /\ List.length (heap st') = S (List.length (heap st))
    /\ length st' = length st + 1.
Proof.
  intros HI. pose proof (Inv_fuel _ _ HI) as Hfuel.
  destruct HI as (c & Htop & (Hc & Hs & Hnd) & Hroot & Hlen).
  unfold insert. destruct t as [|l a w r].
  - unfold fuel_of. cbn [insert_fuel or_root]. unfold get_root.
    rewrite !(bind_ok _ _ _ _ _ eq_refl). simpl in Hroot. rewrite Hroot.
    cbn [truthy negb]. unfold alloc. rewrite (bind_ok _ _ _ _ _ eq_refl).
    unfold set_root. rewrite (bind_ok _ _ _ _ _ eq_refl).
    unfold incr_length. cbn [heap root length direct].
    eexists. split; [reflexivity|]. cbn [heap length]. split_and!.
    + exists []. split; [by left|]. cbn [heap root length]. split_and!.
      * split; [done|]. split.
        -- simpl. split; [apply lookup_alloc_new|done].
        -- simpl. apply NoDup_singleton.
      * done.
      * simpl in *. lia.
    + rewrite length_app. simpl. lia.
    + done.
  - simpl in Hroot. rewrite insert_fuel_default by (by rewrite Hroot).
    rewrite Hroot. pose proof Hnd as Hnd0.
    apply NoDup_app in Hnd as (Hndt & Hdisj & Hndc).
    destruct (insert_fuel_spec v (N l a w r) (fuel_of st) (cpar c) st)
      as (h' & Hrun & Hs' & Hlen' & Hframe); [done|done|done|by rewrite Hroot|lia|].
    simpl rootref in Hrun. rewrite Hrun. rewrite Hroot.
    eexists. split; [reflexivity|]. cbn [heap length]. split_and!; [|done|done].
    exists c. split; [done|]. cbn [heap root length]. split_and!.
    + split; [|split].
      * rewrite rootref_tinsert by done. eapply cshape_ext; [|exact Hc].
        intros b Hb. apply Hframe; [eapply cshape_lt; eauto|].
        intros Hbt. by eapply Hdisj.
      * done.
      * rewrite addrs_tinsert. simpl. apply NoDup_cons. split.
        -- intros Hin.
           assert (List.length (heap st) < List.length (heap st))%nat; [|lia].
           eapply (zrep_lt (heap st) c (N l a w r)); [|exact Hin].
           split_and!; [done|done|exact Hnd0].
        -- exact Hnd0.
    + by rewrite rootref_tinsert.
    + rewrite size_tinsert. lia.
Qed.

End SearchInsert.

Section Traversals.

Context {T : Type} `{EqDecision T} `{ConcatSpreadable T}.
Implicit Types (h : list (@obj T)) (st : @state T) (t l r : @tree T)
  (c : @ctx T) (f : @frame T) (a b n m p : addr) (o : @obj T) (v w : T).

(** ** Leftmost and rightmost descendants *)

Lemma lm_plug l a v r :
  let '(c, m, mv, mr) := lm l a v r in plug c (N E m mv mr) = N l a v r.
Proof.
  revert a v r. induction l as [|ll IH la lv lr _]; intros a v r; simpl; [done|].
  specialize (IH la lv lr). destruct (lm ll la lv lr) as [[[c m] mv] mr].
  rewrite plug_app. simpl. by rewrite IH.
Qed.

Lemma lm_nodes l a v r : Forall is_node (lm l a v r).1.1.1.
Proof.
  revert a v r. induction l as [|ll IH la lv lr _]; intros a v r; simpl; [constructor|].
  specialize (IH la lv lr). destruct (lm ll la lv lr) as [[[c m] mv] mr].
  simpl in *. apply Forall_app. split; [done|]. by repeat constructor.
Qed.

Lemma lm_elements l a v r :
  let '(c, m, mv, mr) := lm l a v r in
  elements (N l a v r) = mv :: elements (plug c mr).
Proof.
  revert a v r. induction l as [|ll IH la lv lr _]; intros a v r; simpl; [done|].
  specialize (IH la lv lr). destruct (lm ll la lv lr) as [[[c m] mv] mr].
  rewrite plug_app. simpl in *. by rewrite IH.
Qed.

Lemma addrs_N l a v r : addrs (N l a v r) = a :: addrs l ++ addrs r.
Proof. reflexivity. Qed.

Lemma lm_addrs l a v r :
  let '(c, m, mv, mr) := lm l a v r in
  addrs (N l a v r) ≡ₚ m :: addrs (plug c mr).
Proof.
  revert a v r. induction l as [|ll IH la lv lr _]; intros a v r; [by simpl|].
  specialize (IH la lv lr). cbn [lm]. destruct (lm ll la lv lr) as [[[c m] mv] mr].
  rewrite plug_app. cbn [plug fill]. rewrite !(addrs_N _ a v r), IH.
  simpl. apply perm_swap.
Qed.

Lemma lm_lookup h par l a v r :
  shape h par (N l a v r) ->
  let '(c, m, mv, mr) := lm l a v r in
  exists pm, h !! m = Some (Obj (val mv) pm null (rootref mr)).
Proof.
  revert par a v r. induction l as [|ll IH la lv lr _]; intros par a v r Hs; simpl.
  - destruct Hs as (Ha & _). eauto.
  - destruct Hs as (_ & Hl & _). specialize (IH _ la lv lr Hl).
    by destruct (lm ll la lv lr) as [[[c m] mv] mr].
Qed.

Lemma getLeftmostDescendant_fuel_spec l a v r : forall fuel par st,
  shape (heap st) par (N l a v r) -> (height l < fuel)%nat ->
  getLeftmostDescendant_fuel fuel (val a) st = Ok (val (lm l a v r).1.1.2, st).
Proof.
  revert a v r. induction l as [|ll IH la lv lr _]; intros a v r fuel par st Hs Hf;
    (destruct fuel as [|fuel]; [lia|]); destruct Hs as (Ha & Hl & Hr).
  - cbn [getLeftmostDescendant_fuel]. mstep get_left_ok. reflexivity.
  - cbn [getLeftmostDescendant_fuel]. mstep get_left_ok. cbn [left rootref truthy].
    mstep get_left_ok. cbn [left rootref].
    simpl in Hf. erewrite IH; [|exact Hl|lia].
    simpl. by destruct (lm ll la lv lr) as [[[c m] mv] mr].
Qed.

Lemma rm_lookup h par l a v r :
  shape h par (N l a v r) ->
  exists o, h !! (rm l a v r).1 = Some o /\ value o = val (rm l a v r).2.
Proof.
  revert par l a v. induction r as [|rl _ ra rv rr IH]; intros par l a v Hs; simpl.
  - destruct Hs as (Ha & _). eauto.
  - destruct Hs as (_ & _ & Hr). eapply IH, Hr.
Qed.

Lemma rm_elements l a v r :
  exists xs, elements (N l a v r) = xs ++ [(rm l a v r).2].
Proof.
  revert l a v. induction r as [|rl _ ra rv rr IH]; intros l a v; simpl.
  - eauto.
  - destruct (IH rl ra rv) as [xs Hxs]. simpl in Hxs. rewrite Hxs.
    exists (elements l ++ v :: xs). by rewrite <- app_assoc.
Qed.

Lemma getRightmostDescendant_fuel_spec l a v r : forall fuel par st,
  shape (heap st) par (N l a v r) -> (height r < fuel)%nat ->
  getRightmostDescendant_fuel fuel (val a) st = Ok (val (rm l a v r).1, st).
Proof.
  revert l a v. induction r as [|rl _ ra rv rr IH]; intros l a v fuel par st Hs Hf;
    (destruct fuel as [|fuel]; [lia|]); destruct Hs as (Ha & Hl & Hr).
  - cbn [getRightmostDescendant_fuel]. mstep get_right_ok. reflexivity.
  - cbn [getRightmostDescendant_fuel]. mstep get_right_ok. cbn [right rootref truthy].
    mstep get_right_ok. cbn [right rootref].
    simpl in Hf. erewrite IH; [|exact Hr|lia]. done.
Qed.

(** ** toArray and the reachable nodes *)

(** [concat] on a sequence of elements. *)
Lemma concat_value_app (arr : list (js T)) (x : js T) :
  concat_value arr x = arr ++ concat_value [] x.
Proof.
  unfold concat_value. destruct x as [| |v]; [done..|].
  by destruct (array_entries v).
Qed.

Lemma spread_all_app (xs ys : list T) :
  spread_all (xs ++ ys) = spread_all xs ++ spread_all ys.
Proof. apply flat_map_app. Qed.

Lemma spread_all_cons (x : T) (xs : list T) :
  spread_all (x :: xs) = concat_value [] (val x) ++ spread_all xs.
Proof. reflexivity. Qed.

(** Without arrays among them, the elements are appended one by one. *)
Lemma spread_all_plain (xs : list T) :
  (forall x, x ∈ xs -> array_entries x = None) -> spread_all xs = val <$> xs.
Proof.
  induction xs as [|x xs IH]; intros Hxs; [done|].
  rewrite spread_all_cons, IH.
  - unfold concat_value. rewrite Hxs; [done|]. apply elem_of_cons. by left.
  - intros y Hy. apply Hxs. apply elem_of_cons. by right.
Qed.

Lemma toArray_fuel_spec t : forall fuel par st,
  t <> E -> shape (heap st) par t -> (height t <= fuel)%nat ->
  toArray_fuel fuel (rootref t) st = Ok (spread_all (elements t), st).
Proof.
  induction t as [|l IHl a v r IHr]; intros fuel par st Hne Hs Hf; [done|].
  destruct fuel as [|fuel]; [simpl in Hf; lia|].
  simpl in Hs, Hf. destruct Hs as (Ha & Hl & Hr).
  cbn [toArray_fuel rootref or_root]. rewrite (bind_ok _ _ _ _ _ (ret_ok _ _)).
  mstep get_left_ok. cbn [left].
  erewrite (bind_ok _ _ _ (spread_all (elements l)) st); cycle 1.
  { destruct l as [|ll la lv lr]; [done|]. cbn [truthy rootref].
    mstep get_left_ok. cbn [left rootref].
    erewrite bind_ok by (eapply (IHl fuel); [done|exact Hl|lia]). done. }
  mstep get_value_ok. cbn [value]. mstep get_right_ok. cbn [right].
  erewrite (bind_ok _ _ _
              (concat_value (spread_all (elements l)) (val v)
               ++ spread_all (elements r)) st); cycle 1.
  { destruct r as [|rl ra rv rr]; [by rewrite app_nil_r|].
    cbn [truthy rootref]. mstep get_right_ok. cbn [right rootref].
    erewrite bind_ok by (eapply (IHr fuel); [done|exact Hr|lia]).
    by rewrite ret_ok. }
  rewrite ret_ok. cbn [elements].
  by rewrite spread_all_app, spread_all_cons, concat_value_app, <- app_assoc.
Qed.

Lemma toArray_fuel_default fuel st :
  root st <> undefined ->
  toArray_fuel fuel undefined st = toArray_fuel fuel (root st) st.
Proof.
  intros Hr. destruct fuel as [|fuel]; [done|].
  cbn [toArray_fuel or_root]. unfold get_root.
  rewrite (bind_ok _ _ _ _ _ eq_refl).
  destruct (root st) eqn:Hroot; [done| |]; cbn [or_root];
    by rewrite (bind_ok _ _ _ _ _ (ret_ok _ _)).
Qed.

Lemma toArray_spec st t :
  Inv st t -> t <> E -> toArray st = Ok (spread_all (elements t), st).
Proof.
  intros HI Hne. pose proof (Inv_fuel _ _ HI) as Hfuel.
  destruct HI as (c & Htop & (Hc & Hs & Hnd) & Hroot & Hlen).
  unfold toArray. rewrite toArray_fuel_default by (rewrite Hroot; by destruct t).
  rewrite Hroot. eapply toArray_fuel_spec; [done|exact Hs|lia].
Qed.

Lemma toArray_empty st : root st = null -> toArray st = Fail TypeError.
Proof.
  unfold toArray, fuel_of. cbn [toArray_fuel or_root]. unfold get_root.
  rewrite (bind_ok _ _ _ _ _ eq_refl). intros ->. reflexivity.
Qed.

Lemma reach_spec t : forall fuel par h,
  shape h par t -> (height t < fuel)%nat ->
  reach fuel h (rootref t) = Some (addrs t).
Proof.
  induction t as [|l IHl a v r IHr]; intros fuel par h Hs Hf;
    (destruct fuel as [|fuel]; [lia|]); [done|].
  simpl in Hs, Hf. destruct Hs as (Ha & Hl & Hr).
  cbn [reach rootref]. rewrite Ha. cbn [left right].
  erewrite IHl, IHr; [done|exact Hr|lia|exact Hl|lia].
Qed.

Lemma reachable_spec st t :
  Inv st t -> reachable st = Some (addrs t) /\ NoDup (addrs t).
Proof.
  intros HI. pose proof (Inv_fuel _ _ HI) as Hfuel.
  destruct HI as (c & Htop & (Hc & Hs & Hnd) & Hroot & Hlen).
  split.
  - unfold reachable. rewrite Hroot. eapply reach_spec; [exact Hs|done].
  - by apply NoDup_app in Hnd as (? & _).
Qed.

End Traversals.

Section Relink.

Context {T : Type} `{EqDecision T}.
Implicit Types (h : list (@obj T)) (st : @state T) (t l r : @tree T)
  (c : @ctx T) (f : @frame T) (a b n m p : addr) (o : @obj T) (v w : T).

Lemma rootref_addrs t a : rootref t = val a -> a ∈ addrs t.
Proof. destruct t; [done|]. intros [= ->]. simpl. apply elem_of_cons. by left. Qed.

Lemma caddrs_app c1 c2 : caddrs (c1 ++ c2) = caddrs c1 ++ caddrs c2.
Proof. induction c1 as [|f c1 IH]; simpl; [done|]. by rewrite IH, app_assoc. Qed.

Lemma faddr_caddrs f c : faddr f ∈ caddrs (f :: c).
Proof. destruct f; simpl; apply elem_of_cons; by left. Qed.

(** The object of the innermost frame. *)
Lemma cshape_head h f c hole :
  cshape h (f :: c) hole ->
  exists o, h !! faddr f = Some o
    /\ match side_of f with Left => left o | Right => right o end = hole.
Proof. destruct f; simpl; intros (Hf & _); eexists; (split; [exact Hf|done]). Qed.

(** [parent.left === node] tells the side the node hangs from. *)
Lemma node_side h f c a o :
  cshape h (f :: c) (val a) -> a ∉ caddrs (f :: c) ->
  h !! faddr f = Some o ->
  (if strict_eq (left o) (val a) then Left else Right) = side_of f.
Proof.
  intros Hc Ha Ho. unfold strict_eq.
  destruct f as [b w r|l b w|p]; simpl in *; destruct Hc as (Hb & _);
    rewrite Hb in Ho; injection Ho as <-; cbn [left].
  - by rewrite bool_decide_eq_true_2.
  - rewrite bool_decide_eq_false_2; [done|].
    intros Hl%rootref_addrs. apply Ha. set_solver.
  - by rewrite bool_decide_eq_true_2.
Qed.

Lemma set_side_ok b s x o st :
  heap st !! b = Some o ->
  set_side (val b) s x st
  = Ok (tt, State (<[b := match s with
                          | Left => Obj (value o) (parent o) x (right o)
                          | Right => Obj (value o) (parent o) (left o) x
                          end]> (heap st)) (root st) (length st)).
Proof.
  intros Hb. destruct s; unfold set_side, set_left, set_right;
    by rewrite (update_ok _ _ _ _ Hb).
Qed.

(** Writing the hole of the innermost frame. *)
Lemma cshape_set_hole h f c hole hole' o :
  cshape h (f :: c) hole -> h !! faddr f = Some o -> NoDup (caddrs (f :: c)) ->
  cshape (<[faddr f := match side_of f with
                       | Left => Obj (value o) (parent o) hole' (right o)
                       | Right => Obj (value o) (parent o) (left o) hole'
                       end]> h) (f :: c) hole'.
Proof.
  intros Hc Ho Hnd.
  destruct f as [b w r|l b w|p]; simpl in *.
  - destruct Hc as (Hb & Hr & Hc'). rewrite Hb in Ho. injection Ho as <-.
    apply NoDup_cons in Hnd as (Hb1 & Hnd). rewrite elem_of_app in Hb1.
    split_and!.
    + eapply lookup_set_eq, Hb.
    + eapply shape_ext; [|exact Hr]. intros x Hx.
      apply lookup_set_ne. intros ->. tauto.
    + eapply cshape_ext; [|exact Hc']. intros x Hx.
      apply lookup_set_ne. intros ->. tauto.
  - destruct Hc as (Hb & Hr & Hc'). rewrite Hb in Ho. injection Ho as <-.
    apply NoDup_cons in Hnd as (Hb1 & Hnd). rewrite elem_of_app in Hb1.
    split_and!.
    + eapply lookup_set_eq, Hb.
    + eapply shape_ext; [|exact Hr]. intros x Hx.
      apply lookup_set_ne. intros ->. tauto.
    + eapply cshape_ext; [|exact Hc']. intros x Hx.
      apply lookup_set_ne. intros ->. tauto.
  - destruct Hc as (Hb & ->). rewrite Hb in Ho. injection Ho as <-.
    split; [|done]. eapply lookup_set_eq, Hb.
Qed.

(** Writing the [parent] of the root of a subtree. *)
Lemma shape_set_parent h par par' l a v r :
  shape h par (N l a v r) -> NoDup (addrs (N l a v r)) ->
  shape (<[a := Obj (val v) par' (rootref l) (rootref r)]> h) par' (N l a v r).
Proof.
  intros (Ha & Hl & Hr) Hnd. simpl in Hnd.
  apply NoDup_cons in Hnd as (Ha1 & Hnd). rewrite elem_of_app in Ha1.
  split_and!.
  - eapply lookup_set_eq, Ha.
  - eapply shape_ext; [|exact Hl]. intros x Hx.
    apply lookup_set_ne. intros ->. tauto.
  - eapply shape_ext; [|exact Hr]. intros x Hx.
    apply lookup_set_ne. intros ->. tauto.
Qed.

(** The node [a], which hangs from the frame [f], is replaced there by
    its child [ch] (read from [a] by [g]). *)
Lemma relink_ok (g : ref -> M ref) st f c a o ch :
  heap st !! a = Some o -> parent o = val (faddr f) ->
  (forall st', heap st' !! a = Some o -> g (val a) st' = Ok (rootref ch, st')) ->
  cshape (heap st) (f :: c) (val a) -> shape (heap st) (val a) ch ->
  NoDup (a :: addrs ch ++ caddrs (f :: c)) ->
  exists h',
    relink g (val a) (side_of f) st = Ok (tt, State h' (root st) (length st))
    /\ cshape h' (f :: c) (rootref ch) /\ shape h' (val (faddr f)) ch
    /\ List.length h' = List.length (heap st).
Proof.
  intros Ha Hpar Hg Hc Hch Hnd.
  apply NoDup_cons in Hnd as (Ha1 & Hnd). rewrite elem_of_app in Ha1.
  apply NoDup_app in Hnd as (Hndch & Hdisj & Hndc).
  destruct (cshape_head _ _ _ _ Hc) as (fo & Hfo & _).
  pose proof (faddr_caddrs f c) as Hfa.
  assert (faddr f <> a) as Hfa_a by (intros Heq; rewrite Heq in Hfa; tauto).
  unfold relink.
  erewrite bind_ok by (apply get_parent_ok, Ha). rewrite Hpar.
  erewrite bind_ok by (apply Hg, Ha).
  erewrite bind_ok by (apply set_side_ok, Hfo).
  erewrite bind_ok; [|apply Hg; cbn [heap]; by rewrite lookup_set_ne].
  pose proof (cshape_set_hole _ _ _ _ (rootref ch) _ Hc Hfo Hndc) as Hc1.
  destruct ch as [|cl ca cv cr].
  - cbn [truthy rootref]. rewrite ret_ok. eexists. split; [reflexivity|].
    split_and!; [exact Hc1|done|by rewrite length_insert].
  - cbn [truthy rootref].
    assert (ca ∈ addrs (N cl ca cv cr)) as Hca by (simpl; apply elem_of_cons; by left).
    assert (faddr f <> ca) as Hfa_ca by (intros Heq; rewrite Heq in Hfa; by eapply Hdisj).
    erewrite bind_ok; [|apply Hg; cbn [heap]; by rewrite lookup_set_ne].
    cbn [rootref].
    erewrite bind_ok; [|apply get_parent_ok; cbn [heap]; by rewrite lookup_set_ne].
    rewrite Hpar. unfold set_parent.
    pose proof Hch as (Hca' & _).
    erewrite update_ok; [|cbn [heap]; by rewrite lookup_set_ne].
    cbn [heap root length value left right].
    eexists. split; [reflexivity|]. split_and!.
    + eapply cshape_ext; [|exact Hc1]. intros x Hx.
      apply lookup_set_ne. intros ->. by eapply Hdisj.
    + eapply shape_set_parent; [|done].
      eapply shape_ext; [|exact Hch]. intros x Hx.
      apply lookup_set_ne. intros Heq. subst x. by eapply Hdisj.
    + by rewrite !length_insert.
Qed.

(** The root above a context of nodes. *)
Lemma rootref_plug c t :
  Forall is_node c -> rootref (plug c t) = croot c (rootref t).
Proof.
  intros Hc. revert t. induction Hc as [|f c Hf _ IH]; intros t; [done|].
  simpl plug. rewrite IH. by destruct f.
Qed.

Lemma croot_nodes c hole :
  Forall is_node c -> c <> [] -> exists b, b ∈ caddrs c /\ croot c hole = val b.
Proof.
  intros Hc. revert hole. induction Hc as [|f c Hf Hc IH]; intros hole Hne; [done|].
  destruct c as [|f' c'].
  - exists (faddr f). split; [apply faddr_caddrs|]. by destruct f.
  - destruct (IH (val (faddr f))) as (b & Hb & Hcr); [done|].
    exists b. split; [simpl; apply elem_of_app; by right|]. by destruct f.
Qed.

Lemma croot_hole c hole hole' :
  Forall is_node c -> c <> [] -> croot c hole = croot c hole'.
Proof. intros Hc Hne. destruct Hc as [|f c Hf Hc]; [done|]. by destruct f. Qed.

Lemma size_plug c t t' :
  (size (plug c t) + size t' = size (plug c t') + size t)%nat.
Proof.
  revert t t'. induction c as [|f c IH]; intros t t'; simpl; [lia|].
  specialize (IH (fill f t) (fill f t')). destruct f; simpl in *; lia.
Qed.

(** Writing the value of the node in focus. *)
Lemma zrep_set_value h c l a v r w :
  zrep h c (N l a v r) ->
  zrep (<[a := Obj (val w) (cpar c) (rootref l) (rootref r)]> h) c (N l a w r).
Proof.
  intros (Hc & (Ha & Hl & Hr) & Hnd). pose proof Hnd as Hnd0. simpl in Hnd.
  apply NoDup_cons in Hnd as (Ha1 & Hnd). rewrite !elem_of_app in Ha1.
  split_and!.
  - eapply cshape_ext; [|exact Hc]. intros x Hx.
    apply lookup_set_ne. intros ->. tauto.
  - split_and!.
    + eapply lookup_set_eq, Ha.
    + eapply shape_ext; [|exact Hl]. intros x Hx.
      apply lookup_set_ne. intros ->. tauto.
    + eapply shape_ext; [|exact Hr]. intros x Hx.
      apply lookup_set_ne. intros ->. tauto.
  - exact Hnd0.
Qed.

End Relink.

Section Remove.

Context {T : Type} `{EqDecision T}.
Variable cmp : T -> T -> bool.
Implicit Types (h : list (@obj T)) (st : @state T) (t l r : @tree T)
  (c : @ctx T) (f : @frame T) (a b n m p : addr) (o : @obj T) (v w : T).

Lemma search_fuel_default fuel v st :
  root st <> undefined ->
  search_fuel cmp fuel v undefined st = search_fuel cmp fuel v (root st) st.
Proof.
  intros Hr. destruct fuel as [|fuel]; [done|].
  cbn [search_fuel or_root]. unfold get_root.
  rewrite (bind_ok _ _ _ _ _ eq_refl).
  destruct (root st) eqn:Hroot; [done| |]; cbn [or_root];
    by rewrite (bind_ok _ _ _ _ _ (ret_ok _ _)).
Qed.

Lemma search_spec v st t :
  Inv st t -> search cmp v st = Ok (rootref (path cmp v t).2, st).
Proof.
  intros HI. pose proof (Inv_fuel _ _ HI) as Hfuel.
  destruct HI as (c & Htop & (Hc & Hs & Hnd) & Hroot & Hlen).
  unfold search. rewrite search_fuel_default by (rewrite Hroot; by destruct t).
  rewrite Hroot. eapply search_fuel_spec; [exact Hs|done].
Qed.

Lemma size_remove_root l a v r :
  S (size (remove_root (N l a v r))) = size (N l a v r).
Proof.
  destruct l as [|ll la lv lr]; [simpl; lia|].
  destruct r as [|rl ra rv rr]; [simpl; lia|].
  cbn [remove_root]. pose proof (lm_addrs rl ra rv rr) as Hp.
  destruct (lm rl ra rv rr) as [[[cm m] mv] mr].
  assert (size (N rl ra rv rr) = S (size (plug cm mr))) as Hsz.
  { rewrite !size_addrs, Hp. done. }
  cbn [size] in *. lia.
Qed.

(** [remove] on a state that holds [t]: it succeeds, returns the new
    count (or [null] when [search] finds nothing, and then changes
    nothing), and the state then holds [tremove] of [t]. *)
Lemma remove_spec v st t :
  Inv st t ->
  exists st',
    remove cmp v st
    = Ok (if truthy (rootref (path cmp v t).2) then val (length st - 1) else null, st')
    /\ Inv st' (tremove cmp v t)
    /\ (truthy (rootref (path cmp v t).2) = false -> st' = st)
    /\ (truthy (rootref (path cmp v t).2) = true -> length st' = length st - 1)
    /\ (List.length (heap st) <= List.length (heap st') <= S (List.length (heap st)))%nat.
Proof.
  intros HI. unfold remove. erewrite bind_ok by (apply search_spec, HI).
  unfold tremove.
  pose proof (path_plug cmp v t) as Hplug.
  pose proof (path_nodes cmp v t) as Hnodes.
  destruct (path_focus cmp v t) as [Hfoc|(l & a & r & Hfoc)];
    destruct (path cmp v t) as [c foc]; simpl in Hplug, Hnodes, Hfoc; subst foc;
    cbn [snd rootref truthy negb].
  { rewrite ret_ok. exists st. cbn [remove_root]. rewrite Hplug. split_and!; try done; lia. }
  destruct HI as (c0 & Htop & Hz & Hroot & Hlen).
  rewrite <- Hplug in Hz, Hroot, Hlen. apply zrep_app in Hz; [|done].
  unfold get_root. rewrite (bind_ok _ _ _ _ _ eq_refl).
  assert (exists rp st2 f c2,
    (if strict_eq (val a) (root st)
     then r' ← get_root;
          p ← alloc (Obj undefined undefined r' undefined);
          set_parent (val a) p;; mret p
     else mret undefined) st = Ok (rp, st2)
    /\ zrep (heap st2) (f :: c2) (N l a v r)
    /\ root st2 = root st /\ length st2 = length st
    /\ (List.length (heap st) <= List.length (heap st2) <= S (List.length (heap st)))%nat
    /\ ((c = [] /\ rp = val (faddr f) /\ f = FP (faddr f) /\ c2 = [])
        \/ (c <> [] /\ rp = undefined /\ f :: c2 = c ++ c0)))
    as (rp & st2 & f & c2 & Hpre & Hz2 & Hroot2 & Hlen2 & Hsz2 & Hcase).
  { destruct c as [|f c'].
    - simpl in Hz, Hroot. rewrite Hroot. unfold strict_eq.
      rewrite bool_decide_eq_true_2 by done.
      destruct Hz as (Hc0 & Hs0 & Hnd0). pose proof Hs0 as (Ha0 & _).
      unfold get_root at 1. rewrite (bind_ok _ _ _ _ _ eq_refl). rewrite Hroot.
      unfold alloc. rewrite (bind_ok _ _ _ _ _ eq_refl).
      unfold set_parent.
      erewrite bind_ok by (apply update_ok; cbn [heap]; eapply lookup_alloc_old, Ha0).
      rewrite ret_ok. cbn [value parent left right heap root length].
      eexists _, _, (FP (List.length (heap st))), []. split; [reflexivity|].
      cbn [heap root length].
      split; [|split; [|split; [|split]]]; cycle 1.
      { exact Hroot. }
      { done. }
      { rewrite length_insert, length_app. simpl. lia. }
      { left. repeat split. }
      apply NoDup_app in Hnd0 as (Hnd0 & _ & _).
        assert (List.length (heap st) ∉ addrs (N l a v r)) as Hfresh.
        { intros Hin. eapply shape_lt in Hin; [|exact Hs0]. lia. }
        split; [|split].
        * split; [|done]. rewrite lookup_set_ne.
          -- apply lookup_alloc_new.
          -- intros ->. apply Hfresh. simpl. apply elem_of_cons. by left.
        * eapply shape_set_parent; [|done].
          eapply shape_ext; [|exact Hs0]. intros x Hx.
          apply lookup_app_l. eapply shape_lt; [exact Hs0|exact Hx].
        * apply NoDup_app. split_and!; [done| |apply NoDup_singleton].
          intros x Hx ->%list_elem_of_singleton. done.
    - destruct (croot_nodes (f :: c') (val a) Hnodes) as (b & Hb & Hcr); [done|].
      rewrite rootref_plug in Hroot by done. cbn [rootref] in Hroot.
      rewrite Hroot, Hcr. unfold strict_eq.
      rewrite bool_decide_eq_false_2.
      + rewrite ret_ok. eexists _, _, f, (c' ++ c0). split; [reflexivity|].
        split; [exact Hz|]. split; [by rewrite Hroot|]. split; [done|]. split; [lia|by right].
      + intros [= ->]. destruct Hz as (_ & _ & Hnd).
        apply NoDup_app in Hnd as (_ & Hdisj & _).
        apply (Hdisj b); [simpl; apply elem_of_cons; by left|].
        rewrite (caddrs_app (f :: c') c0). apply elem_of_app. by left. }
  erewrite bind_ok by exact Hpre.
  set (rr := remove_root (N l a v r)).
  assert (forall h3, zrep h3 (f :: c2) rr ->
    List.length h3 = List.length (heap st2) ->
    exists st',
      ((if truthy rp then l0 ← get_left rp; set_root l0 else mret tt);;
       decr_length) (State h3 (root st2) (length st2))
      = Ok (val (length st - 1), st')
      /\ Inv st' (plug c rr) /\ length st' = length st - 1
      /\ List.length (heap st') = List.length h3) as Hfin.
  { intros h3 Hz3 Hlen3.
    assert (Z.of_nat (size (plug c rr)) = length st - 1) as Hsize.
    { pose proof (size_plug c rr (N l a v r)) as Hsp.
      pose proof (size_remove_root l a v r) as Hsr. fold rr in Hsr. lia. }
    destruct Hcase as [(-> & -> & Hf & ->)|(Hne & -> & Hfc)].
    - cbn [truthy]. pose proof Hz3 as (Hc3 & _). rewrite Hf in Hc3.
      destruct Hc3 as (Hp & _).
      erewrite bind_ok; [|erewrite bind_ok by (apply get_left_ok; exact Hp); reflexivity].
      cbn [left heap root length]. unfold decr_length. cbn [heap root length].
      eexists. split; [by rewrite Hlen2|]. cbn [heap length].
      split; [|split; [lia|done]].
      exists [FP (faddr f)]. split; [right; eauto|]. cbn [heap root length plug].
      rewrite <- Hf. split; [exact Hz3|]. split; [done|]. simpl in Hsize. lia.
    - cbn [truthy]. rewrite (bind_ok _ _ _ _ _ (ret_ok _ _)).
      unfold decr_length. cbn [heap root length].
      eexists. split; [by rewrite Hlen2|]. cbn [heap length].
      split; [|split; [lia|done]].
      exists c0. split; [done|]. cbn [heap root length].
      rewrite Hfc in Hz3. split; [by apply zrep_app|]. split; [|lia].
      rewrite Hroot2, Hroot, !rootref_plug by done. by apply croot_hole. }
  destruct Hz2 as (Hc2 & Hs2 & Hnd2). pose proof Hs2 as (Ha2 & Hl2 & Hr2).
  cbn [cpar] in Ha2.
  destruct (cshape_head _ _ _ _ Hc2) as (fo & Hfo & _).
  assert (a ∉ caddrs (f :: c2)) as Hac.
  { apply NoDup_app in Hnd2 as (_ & Hdisj & _). apply Hdisj.
    simpl. apply elem_of_cons. by left. }
  pose proof (node_side _ _ _ _ _ Hc2 Hac Hfo) as Hside.
  mstep get_left_ok. cbn [left].
  assert (forall st' (k : nat), Inv st' (plug c rr) -> length st' = length st - 1 ->
          List.length (heap st') = k -> k = List.length (heap st2) ->
    Inv st' (plug c rr)
    /\ (true = false -> st' = st)
    /\ (true = true -> length st' = length st - 1)
    /\ (List.length (heap st) <= List.length (heap st')
        <= S (List.length (heap st)))%nat) as Hpost.
  { intros st' k HI' Hl' Hh1 Hh2. split; [done|]. split; [done|]. split; [done|]. lia. }
  destruct l as [|ll la lv lr].
  - (* no left child: the right child, if any, takes the place *)
    cbn [rootref truthy]. rewrite (bind_ok _ _ _ _ _ (ret_ok _ _)). cbv beta iota.
    destruct (relink_ok get_right st2 f c2 a _ r Ha2 eq_refl)
      as (h3 & Hrun3 & Hc3 & Hs3 & Hlen3); [|exact Hc2|exact Hr2|exact Hnd2|].
    { intros st' Ha'. by rewrite (get_right_ok _ _ _ Ha'). }
    erewrite bind_ok; cycle 1.
    { mstep get_parent_ok. cbn [parent].
      mstep get_left_ok. rewrite Hside.
      mstep get_left_ok. cbn [left rootref truthy]. exact Hrun3. }
    destruct (Hfin h3) as (st' & Hrun' & HI' & Hlen' & Hh'); [|done|].
    { split; [exact Hc3|]. split; [exact Hs3|].
      simpl in Hnd2. by apply NoDup_cons in Hnd2 as (_ & Hnd2). }
    exists st'. split; [exact Hrun'|]. eapply Hpost; eauto.
  - cbn [rootref truthy].
    erewrite bind_ok;
      [|erewrite bind_ok by (eapply get_right_ok; exact Ha2); reflexivity].
    cbn [right]. destruct r as [|rl ra rv rr0].
    + (* only a left child: it takes the place *)
      cbn [rootref truthy]. cbv beta iota.
      destruct (relink_ok get_left st2 f c2 a _ (N ll la lv lr) Ha2 eq_refl)
        as (h3 & Hrun3 & Hc3 & Hs3 & Hlen3); [|exact Hc2|exact Hl2| |].
      { intros st' Ha'. by rewrite (get_left_ok _ _ _ Ha'). }
      { simpl in Hnd2 |- *. by rewrite app_nil_r in Hnd2. }
      cbn [rootref] in Hrun3.
      erewrite bind_ok; cycle 1.
      { mstep get_parent_ok. cbn [parent].
        mstep get_left_ok. rewrite Hside.
        mstep get_left_ok. cbn [left rootref truthy]. exact Hrun3. }
      destruct (Hfin h3) as (st' & Hrun' & HI' & Hlen' & Hh'); [|done|].
      { split; [exact Hc3|]. split; [exact Hs3|].
        simpl in Hnd2 |- *. rewrite app_nil_r in Hnd2.
        by apply NoDup_cons in Hnd2 as (_ & Hnd2). }
      exists st'. split; [exact Hrun'|]. eapply Hpost; eauto.
    + (* two children *)
      cbn [rootref truthy]. cbv beta iota.
      pose proof (lm_plug rl ra rv rr0) as Hlmp.
      pose proof (lm_nodes rl ra rv rr0) as Hlmn.
      pose proof (lm_lookup _ _ _ _ _ _ Hr2) as Hlml.
      pose proof (getLeftmostDescendant_fuel_spec rl ra rv rr0 (fuel_of st2) _ st2 Hr2)
        as Hlmd.
      assert (height rl < fuel_of st2)%nat as Hfuel.
      { pose proof (zrep_size _ _ _ (conj Hc2 (conj Hs2 Hnd2))) as Hsz.
        pose proof (height_le_size rl). unfold fuel_of. simpl in Hsz. lia. }
      specialize (Hlmd Hfuel). clear Hfuel.
      subst rr. cbn [remove_root] in Hfin, Hpost |- *.
      destruct (lm rl ra rv rr0) as [[[cm m] mv] mr]. simpl in Hlmn, Hlmd.
      destruct Hlml as (pm & Hm).
      pose proof (zrep_set_value _ _ _ _ _ _ mv (conj Hc2 (conj Hs2 Hnd2))) as Hz2'.
      cbn [cpar rootref] in Hz2'.
      apply (zrep_step _ (FR (N ll la lv lr) a mv)) in Hz2'; [|done].
      rewrite <- Hlmp in Hz2'. apply zrep_app in Hz2'; [|done].
      destruct (cm ++ FR (N ll la lv lr) a mv :: f :: c2) as [|f3 c3] eqn:Hc3eq;
        [by destruct cm|].
      destruct Hz2' as (Hc3 & Hs3 & Hnd3). pose proof Hs3 as (Hm' & _ & Hmr).
      cbn [cpar] in Hm'.
      destruct (cshape_head _ _ _ _ Hc3) as (fo3 & Hfo3 & _).
      assert (m ∉ caddrs (f3 :: c3)) as Hmc.
      { apply NoDup_app in Hnd3 as (_ & Hdisj & _). apply Hdisj.
        simpl. apply elem_of_cons. by left. }
      pose proof (node_side _ _ _ _ _ Hc3 Hmc Hfo3) as Hside3.
      match type of Hc3 with cshape ?h2 _ _ =>
        destruct (relink_ok get_right (State h2 (root st2) (length st2))
                    f3 c3 m _ mr Hm' eq_refl)
          as (h3 & Hrun3 & Hc3' & Hs3' & Hlen3); [|exact Hc3|exact Hmr|exact Hnd3|]
      end.
      { intros st' Ha'. by rewrite (get_right_ok _ _ _ Ha'). }
      erewrite bind_ok; cycle 1.
      { mstep get_right_ok. cbn [right].
        erewrite bind_ok by exact Hlmd.
        mstep get_value_ok. cbn [value].
        unfold set_value. erewrite bind_ok by (apply update_ok; exact Ha2).
        cbn [parent left right].
        mstep get_parent_ok. cbn [parent].
        mstep get_left_ok. rewrite Hside3. exact Hrun3. }
      cbn [root length].
      destruct (Hfin h3) as (st' & Hrun' & HI' & Hlen' & Hh').
      { apply (zrep_step _ (FR (N ll la lv lr) a mv)); [done|].
        apply zrep_app; [done|]. rewrite Hc3eq.
        split; [exact Hc3'|]. split; [exact Hs3'|].
        simpl in Hnd3 |- *. by apply NoDup_cons in Hnd3 as (_ & Hnd3). }
      { rewrite Hlen3. cbn [heap]. by rewrite length_insert. }
      exists st'. split; [exact Hrun'|]. eapply Hpost; eauto.
      rewrite Hlen3. cbn [heap]. by rewrite length_insert.
Qed.

End Remove.

Section Run.

Context {T : Type} `{EqDecision T}.
Variable cmp : T -> T -> bool.
Implicit Types (h : list (@obj T)) (st : @state T) (t l r : @tree T)
  (c : @ctx T) (f : @frame T) (a b n m p : addr) (o : @obj T) (v w : T).

Lemma Inv_init : Inv (T:=T) init E.
Proof.
  exists []. split; [by left|]. split; [|done].
  split; [done|]. split; [done|]. constructor.
Qed.

Lemma exec_spec (o : op) st t :
  Inv st t ->
  exists ret st',
    exec cmp o st = Ok (ret, st')
    /\ Inv st' (texec cmp (List.length (heap st)) o t)
    /\ length st' = length st + net [o] [ret].
Proof.
  intros HI. destruct o as [v|v]; cbn [exec texec net].
  - destruct (insert_spec cmp v st t HI) as (st' & Hrun & HI' & _ & Hlen).
    eexists _, st'. split; [exact Hrun|]. split; [exact HI'|]. lia.
  - destruct (remove_spec cmp v st t HI) as (st' & Hrun & HI' & Hno & Hyes & _).
    eexists _, st'. split; [exact Hrun|]. split; [exact HI'|].
    destruct (truthy (rootref (path cmp v t).2)).
    + rewrite Hyes by done. unfold strict_eq.
      rewrite bool_decide_eq_false_2 by done. lia.
    + rewrite Hno by done. unfold strict_eq.
      rewrite bool_decide_eq_true_2 by done. lia.
Qed.

(** Every sequence of calls runs to the end, on a state that held a
    tree, and leaves a state that holds one. *)
Lemma run_spec ops : forall st t,
  Inv st t ->
  exists rets st' t',
    run cmp ops st = Ok (rets, st')
    /\ Inv st' t' /\ evolves cmp t ops t'
    /\ length st' = length st + net ops rets.
Proof.
  induction ops as [|o ops IH]; intros st t HI.
  - exists [], st, t. split; [done|]. split; [done|]. split; [constructor|].
    simpl. lia.
  - destruct (exec_spec o st t HI) as (ret & st1 & Hrun1 & HI1 & Hlen1).
    destruct (IH st1 _ HI1) as (rets & st' & t' & Hrun & HI' & Hev & Hlen).
    exists (ret :: rets), st', t'. split.
    { cbn [run]. erewrite bind_ok by exact Hrun1.
      erewrite bind_ok by exact Hrun. done. }
    split; [done|]. split; [econstructor; exact Hev|].
    rewrite Hlen, Hlen1. destruct o; simpl; lia.
Qed.

(** A value that is not in the tree is not found. *)
Lemma path_absent v t : v ∉ elements t -> (path cmp v t).2 = E.
Proof.
  induction t as [|l IHl a w r IHr]; simpl; [done|]. intros Hv.
  rewrite elem_of_app, elem_of_cons in Hv.
  destruct (decide (w = v)) as [->|Hne]; [tauto|].
  destruct (cmp v w).
  - destruct (path cmp v l) as [c f]. simpl in *. tauto.
  - destruct (path cmp v r) as [c f]. simpl in *. tauto.
Qed.

End Run.

(** ** Counting and removing in lists *)

Section Lists.

Context {T : Type} `{EqDecision T}.
Implicit Types (v w x y : T) (xs ys : list T).

Lemma count_of_app v xs ys :
  count_of v (xs ++ ys) = (count_of v xs + count_of v ys)%nat.
Proof. induction xs as [|x xs IH]; simpl; [done|]. rewrite IH. lia. Qed.

Lemma count_of_elem v xs : v ∈ xs -> (1 <= count_of v xs)%nat.
Proof.
  induction xs as [|x xs IH]; intros Hv; [by apply elem_of_nil in Hv|].
  simpl. apply elem_of_cons in Hv as [->|Hv].
  - rewrite decide_True by done. lia.
  - specialize (IH Hv). lia.
Qed.

Lemma count_of_perm v xs ys : xs ≡ₚ ys -> count_of v xs = count_of v ys.
Proof. induction 1; simpl; lia. Qed.

Lemma remove_one_absent v xs : v ∉ xs -> remove_one v xs = xs.
Proof.
  induction xs as [|x xs IH]; [done|]. intros Hv. simpl.
  rewrite not_elem_of_cons in Hv. destruct Hv as [Hne Hv].
  rewrite decide_False by done. by rewrite IH.
Qed.

Lemma remove_one_elem v xs : v ∈ xs -> xs ≡ₚ v :: remove_one v xs.
Proof.
  induction xs as [|x xs IH]; intros Hv; [by apply elem_of_nil in Hv|].
  simpl. destruct (decide (x = v)) as [->|Hne]; [done|].
  apply elem_of_cons in Hv as [->|Hv]; [done|].
  rewrite (IH Hv) at 1. apply perm_swap.
Qed.

Lemma remove_one_perm v xs ys : xs ≡ₚ v :: ys -> remove_one v xs ≡ₚ ys.
Proof.
  intros Hp. assert (v ∈ xs) as Hv by (rewrite Hp; apply elem_of_cons; by left).
  apply remove_one_elem in Hv. rewrite Hv in Hp.
  by apply Permutation_cons_inv in Hp.
Qed.

(** A list splits in one way at a value that occurs once. *)
Lemma split_unique v xs ys xs' ys' :
  v ∉ xs -> v ∉ xs' -> xs ++ v :: ys = xs' ++ v :: ys' -> xs = xs' /\ ys = ys'.
Proof.
  revert xs'. induction xs as [|x xs IH]; intros xs' Hx Hx' Heq.
  - destruct xs' as [|x' xs']; simplify_eq/=; [done|].
    exfalso. apply Hx'. apply elem_of_cons. by left.
  - destruct xs' as [|x' xs']; simplify_eq/=.
    + exfalso. apply Hx. apply elem_of_cons. by left.
    + rewrite not_elem_of_cons in Hx, Hx'.
      destruct (IH xs') as [-> ->]; [tauto|tauto|done|done].
Qed.

End Lists.

(** ** The methods on trees *)

Section TreeMethods.

Context {T : Type} `{EqDecision T}.
Variable cmp : T -> T -> bool.
Implicit Types (t l r : @tree T) (c : @ctx T) (f : @frame T) (a b n m p : addr)
  (v w x y : T) (xs ys : list T).

Lemma tremove_N v l a w r :
  tremove cmp v (N l a w r)
  = if decide (w = v) then remove_root (N l a w r)
    else if cmp v w then N (tremove cmp v l) a w r
    else N l a w (tremove cmp v r).
Proof.
  unfold tremove. cbn [path].
  destruct (decide (w = v)); [done|]. destruct (cmp v w).
  - destruct (path cmp v l) as [c f]. by rewrite plug_app.
  - destruct (path cmp v r) as [c f]. by rewrite plug_app.
Qed.

Lemma elements_remove_root l a v r :
  elements (N l a v r) ≡ₚ v :: elements (remove_root (N l a v r)).
Proof.
  destruct l as [|ll la lv lr]; [done|].
  destruct r as [|rl ra rv rr].
  - cbn [remove_root]. simpl. by rewrite <- Permutation_middle, app_nil_r.
  - cbn [remove_root]. pose proof (lm_elements rl ra rv rr) as Hlm.
    destruct (lm rl ra rv rr) as [[[cm m] mv] mr].
    cbn [elements] in Hlm |- *. rewrite Hlm. by rewrite <- Permutation_middle.
Qed.

(** [remove] takes out one occurrence of the value when [search] finds
    it, and nothing otherwise. *)
Lemma elements_tremove v t :
  match (path cmp v t).2 with
  | E => tremove cmp v t = t
  | N _ _ _ _ => elements t ≡ₚ v :: elements (tremove cmp v t)
  end.
Proof.
  induction t as [|l IHl a w r IHr]; [done|].
  rewrite tremove_N. cbn [path].
  destruct (decide (w = v)) as [->|Hne].
  - cbn [snd]. apply elements_remove_root.
  - destruct (cmp v w).
    + destruct (path cmp v l) as [c f]. cbn [snd] in *. destruct f.
      * by rewrite IHl.
      * cbn [elements]. by rewrite IHl.
    + destruct (path cmp v r) as [c f]. cbn [snd] in *. destruct f.
      * by rewrite IHr.
      * cbn [elements]. rewrite IHr. by rewrite <- !Permutation_middle, perm_swap.
Qed.

Lemma bst_tinsert n v t : bst cmp t -> bst cmp (tinsert cmp n v t).
Proof.
  induction t as [|l IHl a w r IHr]; [done|].
  intros (Hl & Hr & Hbl & Hbr). cbn [tinsert].
  destruct (cmp v w) eqn:Hc; cbn [bst].
  - split_and!; [|done|by apply IHl|done].
    rewrite elements_tinsert. by constructor.
  - split_and!; [done| |done|by apply IHr].
    rewrite elements_tinsert. by constructor.
Qed.

(** In a search tree, [search] finds every value that is there. *)
Lemma path_complete v t :
  bst cmp t -> v ∈ elements t -> exists l a r, (path cmp v t).2 = N l a v r.
Proof.
  induction t as [|l IHl a w r IHr]; simpl.
  - intros _ Hv. by apply elem_of_nil in Hv.
  - intros (Hl & Hr & Hbl & Hbr) Hv.
    destruct (decide (w = v)) as [->|Hne]; [eauto|].
    rewrite elem_of_app, elem_of_cons in Hv.
    destruct Hv as [Hv|[->|Hv]]; [| done |].
    + rewrite Forall_forall in Hl. rewrite (Hl _ Hv).
      destruct (path cmp v l) as [c f]. by apply IHl.
    + rewrite Forall_forall in Hr. rewrite (Hr _ Hv).
      destruct (path cmp v r) as [c f]. by apply IHr.
Qed.

Lemma path_found v t :
  (path cmp v t).2 <> E -> elements t = before cmp v t ++ v :: after cmp v t.
Proof.
  induction t as [|l IHl a w r IHr]; simpl; [done|].
  destruct (decide (w = v)) as [->|Hne]; [done|].
  destruct (cmp v w).
  - destruct (path cmp v l) as [c f]. simpl in *. intros Hf.
    rewrite (IHl Hf) at 1. by rewrite <- app_assoc.
  - destruct (path cmp v r) as [c f]. simpl in *. intros Hf.
    rewrite (IHr Hf) at 1. by rewrite <- app_assoc.
Qed.

(** *** The walks up, on contexts *)

Lemma tpred_spec v t : forall c0,
  (path cmp v t).2 <> E ->
  tpred cmp c0 v t
  = match last (before cmp v t) with Some x => val x | None => ctx_pred c0 end.
Proof.
  induction t as [|l IHl a w r IHr]; intros c0; [done|].
  unfold tpred in *. cbn [path before].
  destruct (decide (w = v)) as [->|Hne].
  - intros _. cbn [snd]. destruct l as [|ll la lv lr]; [done|].
    destruct (rm_elements ll la lv lr) as [xs ->]. by rewrite last_snoc.
  - destruct (cmp v w).
    + specialize (IHl (FL a w r :: c0)).
      destruct (path cmp v l) as [c f]. cbn [snd] in *. intros Hf.
      rewrite <- app_assoc. cbn [app]. rewrite (IHl Hf). reflexivity.
    + specialize (IHr (FR l a w :: c0)).
      destruct (path cmp v r) as [c f]. cbn [snd] in *. intros Hf.
      rewrite <- app_assoc. cbn [app]. rewrite (IHr Hf).
      cbn [ctx_pred]. rewrite last_app, last_cons.
      by destruct (last (before cmp v r)).
Qed.

Lemma tsucc_spec v t : forall c0,
  (path cmp v t).2 <> E ->
  tsucc cmp c0 v t
  = match after cmp v t with x :: _ => val x | [] => ctx_succ c0 end.
Proof.
  induction t as [|l IHl a w r IHr]; intros c0; [done|].
  unfold tsucc in *. cbn [path after].
  destruct (decide (w = v)) as [->|Hne].
  - intros _. cbn [snd]. destruct r as [|rl ra rv rr]; [done|].
    pose proof (lm_elements rl ra rv rr) as Hlm.
    destruct (lm rl ra rv rr) as [[[cm m] mv] mr]. by rewrite Hlm.
  - destruct (cmp v w).
    + specialize (IHl (FL a w r :: c0)).
      destruct (path cmp v l) as [c f]. cbn [snd] in *. intros Hf.
      rewrite <- app_assoc. cbn [app]. rewrite (IHl Hf).
      by destruct (after cmp v l).
    + specialize (IHr (FR l a w :: c0)).
      destruct (path cmp v r) as [c f]. cbn [snd] in *. intros Hf.
      rewrite <- app_assoc. cbn [app]. rewrite (IHr Hf). reflexivity.
Qed.

End TreeMethods.

(** ** getPredecessor and getSuccessor *)

Section Climb.

Context {T : Type} `{EqDecision T}.
Implicit Types (h : list (@obj T)) (st : @state T) (t l r : @tree T)
  (c : @ctx T) (f : @frame T) (a b n m p : addr) (o : @obj T) (v w : T).

Lemma NoDup_drop_middle {A} (x : A) xs ys :
  NoDup (x :: xs ++ ys) -> NoDup (x :: ys).
Proof.
  rewrite !NoDup_cons, NoDup_app, elem_of_app. tauto.
Qed.

Lemma length_caddrs c : (List.length c <= List.length (caddrs c))%nat.
Proof.
  induction c as [|f c IH]; simpl; [done|]. rewrite length_app.
  destruct f; simpl; lia.
Qed.

(** The walk up from the node [a] in the hole of [c], and what is
    returned from where it stops. *)
Lemma climb_spec (s : side) c : forall fuel st a o,
  heap st !! a = Some o -> parent o = cpar c ->
  cshape (heap st) c (val a) -> NoDup (a :: caddrs c) ->
  (List.length c < fuel)%nat ->
  exists e,
    climb_fuel fuel s (val a) st = Ok (val e, st)
    /\ (p ← get_parent (val e);
        if negb (truthy p) then mret null
        else p' ← get_parent (val e); get_value p') st
       = Ok (match s with Left => ctx_pred c | Right => ctx_succ c end, st).
Proof.
  induction c as [|f c IH]; intros fuel st a o Ha Hpar Hc Hnd Hfuel;
    (destruct fuel as [|fuel]; [simpl in Hfuel; lia|]);
    assert (forall B (k : ref -> M B),
              (get_parent (val a) ≫= k) st = k (parent o) st) as Hgp
      by (intros B k; apply bind_ok, get_parent_ok, Ha);
    rewrite Hpar in Hgp.
  - exists a. cbn [climb_fuel cpar] in *.
    rewrite Hgp. cbn [truthy negb].
    split; [done|]. rewrite Hgp. by destruct s.
  - apply NoDup_cons in Hnd as (Hac & Hnd). cbn [caddrs] in Hac, Hnd.
    rewrite elem_of_app in Hac. apply NoDup_app in Hnd as (Hndf & Hdisj & Hndc).
    cbn [climb_fuel]. rewrite !Hgp. cbn [cpar truthy] in *. rewrite Hgp.
    simpl in Hfuel.
    assert ((p ← get_parent (val a);
             if negb (truthy p) then mret null
             else p' ← get_parent (val a); get_value p') st
            = get_value (val (faddr f)) st) as Hstop.
    { rewrite Hgp. cbn [truthy negb]. by rewrite Hgp. }
    destruct f as [b w r|l b w|p]; cbn [faddr faddrs cshape] in *.
    + destruct Hc as (Hb & Hr & Hc'). apply NoDup_cons in Hndf as (Hbr & _).
      assert (NoDup (b :: caddrs c)) as Hnd'.
      { apply NoDup_cons. split; [|done]. apply Hdisj. apply elem_of_cons. by left. }
      destruct s; cbv beta iota.
      * rewrite (bind_ok (get_left (val b)) _ _ _ _ (get_left_ok _ _ _ Hb)).
        cbn [left]. unfold strict_eq.
        rewrite bool_decide_eq_true_2 by done. rewrite Hgp.
        apply (IH fuel st b _ Hb eq_refl Hc' Hnd'). lia.
      * rewrite (bind_ok (get_right (val b)) _ _ _ _ (get_right_ok _ _ _ Hb)).
        cbn [right]. unfold strict_eq.
        rewrite bool_decide_eq_false_2.
        -- exists a. split; [done|]. rewrite Hstop.
           by rewrite (get_value_ok _ _ _ Hb).
        -- intros Hra%rootref_addrs. apply Hac. left. apply elem_of_cons. by right.
    + destruct Hc as (Hb & Hl & Hc'). apply NoDup_cons in Hndf as (Hbl & _).
      assert (NoDup (b :: caddrs c)) as Hnd'.
      { apply NoDup_cons. split; [|done]. apply Hdisj. apply elem_of_cons. by left. }
      destruct s; cbv beta iota.
      * rewrite (bind_ok (get_left (val b)) _ _ _ _ (get_left_ok _ _ _ Hb)).
        cbn [left]. unfold strict_eq.
        rewrite bool_decide_eq_false_2.
        -- exists a. split; [done|]. rewrite Hstop.
           by rewrite (get_value_ok _ _ _ Hb).
        -- intros Hla%rootref_addrs. apply Hac. left. apply elem_of_cons. by right.
      * rewrite (bind_ok (get_right (val b)) _ _ _ _ (get_right_ok _ _ _ Hb)).
        cbn [right]. unfold strict_eq.
        rewrite bool_decide_eq_true_2 by done. rewrite Hgp.
        apply (IH fuel st b _ Hb eq_refl Hc' Hnd'). lia.
    + destruct Hc as (Hp & ->). destruct s; cbv beta iota.
      * rewrite (bind_ok (get_left (val p)) _ _ _ _ (get_left_ok _ _ _ Hp)).
        cbn [left]. unfold strict_eq.
        rewrite bool_decide_eq_true_2 by done. rewrite Hgp.
        destruct fuel as [|fuel]; [simpl in Hfuel; lia|].
        assert (forall B (k : ref -> M B),
                  (get_parent (val p) ≫= k) st = k undefined st) as Hgpp
          by (intros B k; by rewrite (bind_ok _ _ _ _ _ (get_parent_ok _ _ _ Hp))).
        exists p. cbn [climb_fuel]. rewrite !Hgpp. done.
      * rewrite (bind_ok (get_right (val p)) _ _ _ _ (get_right_ok _ _ _ Hp)).
        cbn [right]. unfold strict_eq.
        rewrite bool_decide_eq_false_2 by done.
        exists a. split; [done|]. rewrite Hstop.
        by rewrite (get_value_ok _ _ _ Hp).
Qed.

End Climb.

Section PredSucc.

Context {T : Type} `{EqDecision T}.
Variable cmp : T -> T -> bool.
Implicit Types (h : list (@obj T)) (st : @state T) (t l r : @tree T)
  (c : @ctx T) (f : @frame T) (a b n m p : addr) (o : @obj T) (v w : T).

Lemma getPredecessor_spec v st t c0 :
  top c0 -> zrep (heap st) c0 t -> root st = rootref t ->
  length st = Z.of_nat (size t) ->
  getPredecessor cmp v st = Ok (tpred cmp c0 v t, st).
Proof.
  intros Htop Hz Hroot Hlen.
  assert (Inv st t) as HI by (exists c0; done).
  unfold getPredecessor, tpred. erewrite bind_ok by (apply search_spec, HI).
  pose proof (path_plug cmp v t) as Hplug.
  pose proof (path_nodes cmp v t) as Hnodes.
  destruct (path cmp v t) as [c foc]. cbn [fst snd] in *.
  destruct foc as [|l a w r]; [done|]. cbn [rootref truthy negb].
  rewrite <- Hplug in Hz. apply zrep_app in Hz; [|done].
  pose proof (zrep_size _ _ _ Hz) as Hsz.
  destruct Hz as (Hc & (Ha & Hl & Hr) & Hnd).
  mstep get_left_ok. cbn [left].
  destruct l as [|ll la lv lr].
  - cbn [rootref truthy]. unfold climb.
    destruct (climb_spec Left (c ++ c0) (fuel_of st) st a _ Ha eq_refl Hc)
      as (e & Hclimb & Hret).
    { simpl in Hnd. by apply NoDup_drop_middle in Hnd. }
    { pose proof (length_caddrs (c ++ c0)). unfold fuel_of. lia. }
    erewrite bind_ok by exact Hclimb. exact Hret.
  - cbn [rootref truthy]. mstep get_left_ok. cbn [left rootref].
    destruct (rm_lookup _ _ _ _ _ _ Hl) as (o & Ho & Hv).
    unfold getRightmostDescendant.
    erewrite bind_ok.
    2:{ eapply getRightmostDescendant_fuel_spec; [exact Hl|].
        pose proof (height_le_size lr). unfold fuel_of. simpl in Hsz. lia. }
    rewrite (get_value_ok _ _ _ Ho). by rewrite Hv.
Qed.

Lemma getSuccessor_spec v st t c0 :
  top c0 -> zrep (heap st) c0 t -> root st = rootref t ->
  length st = Z.of_nat (size t) ->
  getSuccessor cmp v st = Ok (tsucc cmp c0 v t, st).
Proof.
  intros Htop Hz Hroot Hlen.
  assert (Inv st t) as HI by (exists c0; done).
  unfold getSuccessor, tsucc. erewrite bind_ok by (apply search_spec, HI).
  pose proof (path_plug cmp v t) as Hplug.
  pose proof (path_nodes cmp v t) as Hnodes.
  destruct (path cmp v t) as [c foc]. cbn [fst snd] in *.
  destruct foc as [|l a w r]; [done|]. cbn [rootref truthy negb].
  rewrite <- Hplug in Hz. apply zrep_app in Hz; [|done].
  pose proof (zrep_size _ _ _ Hz) as Hsz.
  destruct Hz as (Hc & (Ha & Hl & Hr) & Hnd).
  mstep get_right_ok. cbn [right].
  destruct r as [|rl ra rv rr].
  - cbn [rootref truthy]. unfold climb.
    destruct (climb_spec Right (c ++ c0) (fuel_of st) st a _ Ha eq_refl Hc)
      as (e & Hclimb & Hret).
    { simpl in Hnd. rewrite app_nil_r in Hnd. by apply NoDup_drop_middle in Hnd. }
    { pose proof (length_caddrs (c ++ c0)). unfold fuel_of. lia. }
    erewrite bind_ok by exact Hclimb. exact Hret.
  - cbn [rootref truthy]. mstep get_right_ok. cbn [right rootref].
    pose proof (lm_lookup _ _ _ _ _ _ Hr) as Hlm.
    pose proof (getLeftmostDescendant_fuel_spec rl ra rv rr (fuel_of st) _ st Hr) as Hd.
    destruct (lm rl ra rv rr) as [[[cm m] mv] mr]. destruct Hlm as (pm & Hm).
    unfold getLeftmostDescendant. erewrite bind_ok.
    2:{ apply Hd. pose proof (height_le_size rl). unfold fuel_of. simpl in Hsz. lia. }
    cbn [fst snd]. by rewrite (get_value_ok _ _ _ Hm).
Qed.

End PredSucc.

(** * The claims that need no order *)

Section Claims.

Context {T : Type} `{EqDecision T} `{ConcatSpreadable T}.
Variable cmp : T -> T -> bool.
Implicit Types (h : list (@obj T)) (st : @state T) (t l r : @tree T)
  (c : @ctx T) (f : @frame T) (a b n m p : addr) (o : @obj T)
  (v w x y z : T) (xs ys : list T).

(** C5.  After every sequence of calls, [length] is the number of nodes
    reachable from the root (each reached once), and it is the number of
    inserts minus the number of removes that found their value. *)
Theorem count_consistent (ops : list op) :
  exists rets st nodes,
    run cmp ops init = Ok (rets, st)
    /\ reachable st = Some nodes /\ NoDup nodes
    /\ length st = Z.of_nat (List.length nodes)
    /\ length st = net ops rets.
Proof.
  destruct (run_spec cmp ops init E Inv_init) as (rets & st & t & Hrun & HI & _ & Hlen).
  destruct (reachable_spec st t HI) as (Hreach & Hnd).
  exists rets, st, (addrs t). split; [done|]. split; [done|]. split; [done|].
  split; [|by rewrite Hlen].
  destruct HI as (c & _ & _ & _ & ->). by rewrite size_addrs.
Qed.

(** [search] reads the store and leaves it as it is, in every state. *)
Lemma search_fuel_pure fuel v : forall node st (ret : ref) st',
  search_fuel cmp fuel v node st = Ok (ret, st') -> st' = st.
Proof.
  induction fuel as [|fuel IH]; intros node st ret st'; [done|].
  cbn [search_fuel].
  assert (exists nd, or_root node st = Ok (nd, st)) as [nd Hnd]
    by (destruct node; eexists; reflexivity).
  rewrite (bind_ok _ _ _ _ _ Hnd).
  destruct nd as [| |a]; cbn [truthy negb];
    [by intros [= _ ->]|by intros [= _ ->]|].
  destruct (heap st !! a) as [o|] eqn:Ho.
  2:{ erewrite bind_fail; [done|]. unfold get_value.
      erewrite bind_fail; [done|]. unfold deref. by rewrite Ho. }
  rewrite (bind_ok _ _ _ _ _ (get_value_ok _ _ _ Ho)).
  destruct (strict_eq (value o) (val v)); [by intros [= _ ->]|].
  rewrite (bind_ok _ _ _ _ _ (get_value_ok _ _ _ Ho)).
  destruct (value o) as [| |w]; [done|done|].
  cbn [call_cmp]. rewrite (bind_ok _ _ _ _ _ (ret_ok _ _)).
  destruct (cmp v w).
  - rewrite (bind_ok _ _ _ _ _ (get_left_ok _ _ _ Ho)). apply IH.
  - rewrite (bind_ok _ _ _ _ _ (get_right_ok _ _ _ Ho)). apply IH.
Qed.

(** What [remove] does when [search] comes back with nothing, in every
    state. *)
Lemma remove_not_found v st (ret : ref) st' :
  search cmp v st = Ok (ret, st') -> truthy ret = false ->
  remove cmp v st = Ok (null, st).
Proof.
  intros Hs Hr. pose proof (search_fuel_pure _ _ _ _ _ _ Hs) as ->.
  unfold remove. erewrite bind_ok by exact Hs. by rewrite Hr.
Qed.

(** C6.  For a value that is not in the tree, [search] returns [null]
    and [remove] returns [null], which no count is, and leaves the state
    (store, root and count) as it was. *)
Theorem remove_missing v st t :
  Inv st t -> v ∉ elements t ->
  search cmp v st = Ok (null, st)
  /\ remove cmp v st = Ok (null, st)
  /\ forall k : Z, @null Z <> val k.
Proof.
  intros HI Hv. pose proof (search_spec cmp v st t HI) as Hs.
  rewrite (path_absent cmp v t Hv) in Hs. split; [exact Hs|].
  split; [|done]. by eapply remove_not_found.
Qed.

(** C10.  On an empty tree [toArray] fails, reading [left] of [null];
    the other methods return: [insert] the count, the others [null]. *)
Theorem empty_tree_calls (h : list (@obj T)) (k : Z) v :
  let st := State h null k in
  toArray st = Fail TypeError
  /\ (exists st', insert cmp v st = Ok (val (k + 1), st'))
  /\ search cmp v st = Ok (null, st)
  /\ remove cmp v st = Ok (null, st)
  /\ getPredecessor cmp v st = Ok (null, st)
  /\ getSuccessor cmp v st = Ok (null, st).
Proof.
  intros st. subst st. split; [reflexivity|].
  split; [eexists; unfold insert, fuel_of; cbn [insert_fuel]; reflexivity|].
  repeat split; reflexivity.
Qed.

End Claims.

(** * Search trees under a strict total order *)

Section Ordered.

Context {T : Type} `{EqDecision T} `{ConcatSpreadable T}.
Variable cmp : T -> T -> bool.
Implicit Types (t l r : @tree T) (c : @ctx T) (f : @frame T) (a b n m p : addr)
  (v w x y z : T) (xs ys : list T).

Hypothesis cmp_irrefl : forall x, cmp x x = false.
Hypothesis cmp_trans :
  forall x y z, cmp x y = true -> cmp y z = true -> cmp x z = true.
Hypothesis cmp_total :
  forall x y, cmp x y = false -> cmp y x = false -> x = y.

Lemma cmp_asym x y : cmp x y = true -> cmp y x = false.
Proof.
  intros Hxy. destruct (cmp y x) eqn:Hyx; [|done].
  pose proof (cmp_trans _ _ _ Hxy Hyx) as Hxx. by rewrite cmp_irrefl in Hxx.
Qed.

(** [x < y <= z] gives [x < z]. *)
Lemma cmp_lt_le x y z : cmp x y = true -> cmp z y = false -> cmp x z = true.
Proof.
  intros Hxy Hzy. destruct (cmp x z) eqn:Hxz; [done|].
  destruct (cmp z x) eqn:Hzx.
  - pose proof (cmp_trans _ _ _ Hzx Hxy). congruence.
  - pose proof (cmp_total _ _ Hxz Hzx). subst. congruence.
Qed.

(** [x <= y < z] gives [x < z]. *)
Lemma cmp_le_lt x y z : cmp y x = false -> cmp y z = true -> cmp x z = true.
Proof.
  intros Hyx Hyz. destruct (cmp x y) eqn:Hxy; [by eapply cmp_trans|].
  pose proof (cmp_total _ _ Hxy Hyx). by subst.
Qed.

Lemma lm_bst l a v r :
  bst cmp (N l a v r) ->
  let '(c, m, mv, mr) := lm l a v r in
  bst cmp (plug c mr) /\ Forall (fun x => cmp x mv = false) (elements (plug c mr)).
Proof.
  revert a v r. induction l as [|ll IH la lv lr _]; intros a v r (Hl & Hr & Hbl & Hbr).
  - simpl. done.
  - cbn [lm]. specialize (IH la lv lr Hbl).
    pose proof (lm_elements ll la lv lr) as Hel.
    destruct (lm ll la lv lr) as [[[c m] mv] mr]. destruct IH as (Hb & Hge).
    rewrite plug_app. cbn [plug fill]. rewrite Hel in Hl.
    apply Forall_cons in Hl as (Hmv & Hl).
    split.
    + cbn [bst]. split_and!; assumption.
    + cbn [elements]. apply Forall_app. split; [done|]. constructor.
      * by apply cmp_asym.
      * eapply Forall_impl; [exact Hr|]. intros x Hx. simpl in Hx.
        destruct (cmp x mv) eqn:Hxm; [|done].
        pose proof (cmp_trans _ _ _ Hxm Hmv). congruence.
Qed.

Lemma bst_remove_root l a v r :
  bst cmp (N l a v r) -> bst cmp (remove_root (N l a v r)).
Proof.
  intros (Hl & Hr & Hbl & Hbr).
  destruct l as [|ll la lv lr]; [done|].
  destruct r as [|rl ra rv rr]; [done|].
  cbn [remove_root]. pose proof (lm_bst rl ra rv rr Hbr) as Hlm.
  pose proof (lm_elements rl ra rv rr) as Hel.
  destruct (lm rl ra rv rr) as [[[c m] mv] mr]. destruct Hlm as (Hb & Hge).
  rewrite Hel in Hr. apply Forall_cons in Hr as (Hmv & Hr).
  split; [|split; [exact Hge|split; [exact Hbl|exact Hb]]].
  eapply Forall_impl; [exact Hl|]. intros x Hx. simpl in Hx.
  by eapply cmp_lt_le.
Qed.

Lemma elements_tremove_sub v t x :
  x ∈ elements (tremove cmp v t) -> x ∈ elements t.
Proof.
  pose proof (elements_tremove cmp v t) as Hel.
  destruct ((path cmp v t).2).
  - by rewrite Hel.
  - rewrite Hel. intros Hx. apply elem_of_cons. by right.
Qed.

Lemma bst_tremove v t : bst cmp t -> bst cmp (tremove cmp v t).
Proof.
  induction t as [|l IHl a w r IHr]; [done|].
  intros Hb. rewrite tremove_N.
  destruct (decide (w = v)); [by apply bst_remove_root|].
  destruct Hb as (Hl & Hr & Hbl & Hbr).
  rewrite Forall_forall in Hl, Hr.
  destruct (cmp v w); cbn [bst]; rewrite !Forall_forall.
  - split_and!; [|done|by apply IHl|done].
    intros x Hx. by apply Hl, (elements_tremove_sub v).
  - split_and!; [done| |done|by apply IHr].
    intros x Hx. by apply Hr, (elements_tremove_sub v).
Qed.

(** The in-order values of a search tree ascend. *)
Lemma bst_ascending t : bst cmp t -> ascending cmp (elements t).
Proof.
  unfold ascending. induction t as [|l IHl a v r IHr]; [constructor|].
  intros (Hl & Hr & Hbl & Hbr). cbn [elements].
  rewrite Forall_forall in Hl, Hr.
  apply StronglySorted_app_2; [|by apply IHl|].
  - intros x y Hx Hy. apply elem_of_cons in Hy as [->|Hy].
    + by apply cmp_asym, Hl.
    + destruct (cmp y x) eqn:Hyx; [|done].
      pose proof (cmp_trans _ _ _ Hyx (Hl _ Hx)) as Hyv.
      rewrite (Hr _ Hy) in Hyv. done.
  - apply StronglySorted_cons. split; [|by apply IHr].
    apply Forall_forall. intros y Hy. by apply Hr.
Qed.

(** What a sequence of calls keeps: a search tree, holding what the
    calls stored. *)
Lemma evolves_spec t ops t' :
  evolves cmp t ops t' -> forall xs, bst cmp t -> elements t ≡ₚ xs ->
  bst cmp t' /\ elements t' ≡ₚ fold_left stored_after ops xs.
Proof.
  induction 1 as [t|n o t ops t' Hev IH]; intros xs Hb Hp; [done|].
  cbn [fold_left]. apply IH.
  - destruct o as [v|v]; cbn [texec]; [by apply bst_tinsert|by apply bst_tremove].
  - destruct o as [v|v]; cbn [texec stored_after].
    + by rewrite elements_tinsert, Hp.
    + pose proof (elements_tremove cmp v t) as Hel.
      destruct ((path cmp v t).2) as [|l a w r] eqn:Hf.
      * rewrite Hel, Hp. rewrite remove_one_absent; [done|].
        rewrite <- Hp. intros Hv.
        destruct (path_complete cmp v t Hb Hv) as (? & ? & ? & Hf').
        congruence.
      * symmetry. apply remove_one_perm. by rewrite <- Hp.
Qed.



(** In an ascending list without duplicates, a value that is not the
    minimum has something before it, one that is not the maximum
    something after it. *)
Lemma not_min_before v xs ys :
  ascending cmp (xs ++ v :: ys) -> ~ is_min cmp v (xs ++ v :: ys) -> xs <> [].
Proof.
  intros Hasc Hmin ->. apply Hmin. split; [apply elem_of_cons; by left|].
  intros x Hx. apply elem_of_cons in Hx as [->|Hx]; [done|].
  simpl in Hasc. apply StronglySorted_cons in Hasc as (Hall & _).
  rewrite Forall_forall in Hall. by apply Hall.
Qed.

Lemma not_max_after v xs ys :
  ascending cmp (xs ++ v :: ys) -> ~ is_max cmp v (xs ++ v :: ys) -> ys <> [].
Proof.
  intros Hasc Hmax ->. apply Hmax. split; [apply elem_of_app; right; apply elem_of_cons; by left|].
  intros x Hx. apply elem_of_app in Hx as [Hx|Hx].
  - unfold ascending in Hasc.
    apply (StronglySorted_app_1_elem_of _ _ _ x v) in Hasc; [done|done|].
    apply elem_of_cons. by left.
  - apply list_elem_of_singleton in Hx as ->. done.
Qed.

(** Every sequence of calls leaves a state that holds a search tree of
    what the calls stored. *)
Lemma reachable_wf (ops : list op) :
  exists rets st t,
    run cmp ops init = Ok (rets, st)
    /\ Inv st t /\ bst cmp t /\ elements t ≡ₚ stored ops.
Proof.
  destruct (run_spec cmp ops init E Inv_init) as (rets & st & t & Hrun & HI & Hev & _).
  destruct (evolves_spec _ _ _ Hev []) as (Hb & Hp);
    [done|done|].
  by exists rets, st, t.
Qed.

(** X23.  After every sequence of calls that leaves a root, [toArray]
    returns what [concat] makes of the stored elements taken in
    ascending order under [cmp]: the entries of an element that is an
    array, any other element itself.  A root is left exactly when
    something is stored. *)
Theorem toArray_ascending (ops : list op) :
  exists rets st,
    run cmp ops init = Ok (rets, st)
    /\ (root st = null <-> stored ops = [])
    /\ (root st <> null ->
        exists xs, toArray st = Ok (spread_all xs, st)
                   /\ ascending cmp xs /\ xs ≡ₚ stored ops).
Proof.
  destruct (reachable_wf ops) as (rets & st & t & Hrun & HI & Hb & Hp).
  exists rets, st. split; [done|].
  assert (root st = rootref t) as Hroot by (by destruct HI as (c & _ & _ & -> & _)).
  split.
  - rewrite Hroot. destruct t as [|l a v r].
    + split; [|done]. intros _. simpl in Hp. by apply Permutation_nil in Hp.
    + split; [done|]. intros Hnil. rewrite Hnil in Hp. symmetry in Hp.
      apply Permutation_nil in Hp. simpl in Hp. by destruct (elements l).
  - intros Hne. exists (elements t). split; [|split; [|done]].
    + apply toArray_spec; [done|]. intros ->. by apply Hne.
    + by apply bst_ascending.
Qed.


(** C9.  In a search tree without duplicates, for a value [v] that is
    there and is neither the minimum nor the maximum: [getPredecessor]
    and [getSuccessor] return values, the successor of the predecessor
    is [v], and the predecessor of the successor is [v]. *)
Theorem pred_succ_dual st t v :
  Inv st t -> bst cmp t -> NoDup (elements t) -> v ∈ elements t ->
  ~ is_min cmp v (elements t) -> ~ is_max cmp v (elements t) ->
  (forall u, getPredecessor cmp v st = Ok (val u, st) ->
             getSuccessor cmp u st = Ok (val v, st))
  /\ (forall w, getSuccessor cmp v st = Ok (val w, st) ->
                getPredecessor cmp w st = Ok (val v, st))
  /\ exists u w, getPredecessor cmp v st = Ok (val u, st)
                 /\ getSuccessor cmp v st = Ok (val w, st).
Proof.
  intros (c0 & Htop & Hz & Hroot & Hlen) Hb Hnd Hv Hmin Hmax.
  pose proof (bst_ascending t Hb) as Hasc.
  assert (forall x, x ∈ elements t ->
            ((path cmp x t).2 <> E)
            /\ elements t = before cmp x t ++ x :: after cmp x t
            /\ (x ∉ before cmp x t) /\ (x ∉ after cmp x t)) as Hsplit.
  { intros x Hx. destruct (path_complete cmp x t Hb Hx) as (l & a & r & Hf).
    assert ((path cmp x t).2 <> E) as Hne by (by rewrite Hf).
    pose proof (path_found cmp x t Hne) as Hel. split; [done|]. split; [done|].
    rewrite Hel in Hnd. apply NoDup_app in Hnd as (_ & Hdisj & Hnd').
    apply NoDup_cons in Hnd' as (Hxa & _). split; [|done].
    intros Hxb. apply (Hdisj x Hxb). apply elem_of_cons. by left. }
  destruct (Hsplit v Hv) as (Hfv & Helv & Hvb & Hva).
  rewrite Helv in Hasc, Hmin, Hmax.
  pose proof (not_min_before _ _ _ Hasc Hmin) as HB.
  pose proof (not_max_after _ _ _ Hasc Hmax) as HA.
  destruct (before cmp v t) as [|u' B' _] eqn:HeqB using rev_ind; [done|].
  destruct (after cmp v t) as [|w A'] eqn:HeqA; [done|].
  clear HB HA.
  assert (getPredecessor cmp v st = Ok (val u', st)) as Hpred.
  { rewrite (getPredecessor_spec cmp v st t c0) by done.
    rewrite tpred_spec by done. by rewrite HeqB, last_snoc. }
  assert (getSuccessor cmp v st = Ok (val w, st)) as Hsucc.
  { rewrite (getSuccessor_spec cmp v st t c0) by done.
    rewrite tsucc_spec by done. by rewrite HeqA. }
  assert (getSuccessor cmp u' st = Ok (val v, st)) as Hsu.
  { assert (u' ∈ elements t) as Hu.
    { rewrite Helv. rewrite !elem_of_app. left. right. apply elem_of_cons. by left. }
    destruct (Hsplit u' Hu) as (Hfu & Helu & Hub & Hua).
    rewrite (getSuccessor_spec cmp u' st t c0) by done.
    rewrite tsucc_spec by done.
    assert (B' ++ u' :: v :: w :: A' = before cmp u' t ++ u' :: after cmp u' t) as Heq.
    { rewrite <- Helu, Helv. by rewrite <- app_assoc. }
    apply split_unique in Heq as [_ <-]; [done| |done].
    intros HuB. rewrite Helv, <- app_assoc in Hnd. simpl in Hnd.
    apply NoDup_app in Hnd as (_ & Hdisj & _). apply (Hdisj u' HuB).
    apply elem_of_cons. by left. }
  assert (getPredecessor cmp w st = Ok (val v, st)) as Hpw.
  { assert (w ∈ elements t) as Hw.
    { rewrite Helv. rewrite !elem_of_app. right. rewrite !elem_of_cons. auto. }
    destruct (Hsplit w Hw) as (Hfw & Helw & Hwb & Hwa).
    rewrite (getPredecessor_spec cmp w st t c0) by done.
    rewrite tpred_spec by done.
    assert (((B' ++ [u']) ++ [v]) ++ w :: A' = before cmp w t ++ w :: after cmp w t) as Heq.
    { rewrite <- Helw, Helv. by rewrite <- !app_assoc. }
    apply split_unique in Heq as [<- _]; [by rewrite last_snoc| |done].
    intros HwB. rewrite Helv in Hnd.
    apply NoDup_app in Hnd as (_ & Hdisj & Hnd').
    apply elem_of_app in HwB as [HwB|HwB].
    - apply (Hdisj w HwB). rewrite !elem_of_cons. auto.
    - apply list_elem_of_singleton in HwB as ->.
      apply NoDup_cons in Hnd' as (Hvw & _). apply Hvw. apply elem_of_cons. by left. }
  split; [|split].
  - intros u Hu. rewrite Hpred in Hu. by injection Hu as <-.
  - intros w' Hw'. rewrite Hsucc in Hw'. by injection Hw' as <-.
  - eauto.
Qed.

End Ordered.

(** * The scenarios, on integers under [<] *)

(** [Z.ltb] is a strict total order. *)
Lemma ltb_irrefl (x : Z) : (x <? x) = false.
Proof. apply Z.ltb_irrefl. Qed.

Lemma ltb_trans (x y z : Z) : (x <? y) = true -> (y <? z) = true -> (x <? z) = true.
Proof. rewrite !Z.ltb_lt. lia. Qed.

Lemma ltb_total (x y : Z) : (x <? y) = false -> (y <? x) = false -> x = y.
Proof. rewrite !Z.ltb_ge. lia. Qed.

(** C1.  [insert] loses its result when it recurses: after
    [new BinarySearchTree([5, 3])], [insert(1)] goes past the root and
    past 3, the count becomes 3, and the call returns [undefined]. *)
Theorem insert_result_lost :
  exists st2 st3,
    constructor Z.ltb [5; 3] = Ok (tt, st2) /\ length st2 = 2
    /\ insert Z.ltb 1 st2 = Ok (undefined, st3) /\ length st3 = 3.
Proof.
  do 2 eexists. repeat (split; [vm_compute; reflexivity|]).
  vm_compute; reflexivity.
Qed.

(** C2.  [remove] at the root leaves the object [{left: ...}] it made as
    the [parent] of the new root: after [new BinarySearchTree([2, 1])]
    and [remove(2)] the root is the node of 1 and its [parent] is that
    object, not [null]. *)
Theorem remove_leaves_placeholder :
  exists st st',
    constructor Z.ltb [2; 1] = Ok (tt, st)
    /\ remove Z.ltb 2 st = Ok (val 1, st')
    /\ root st' = val 1%nat
    /\ heap st' !! 1%nat = Some (Obj (val 1) (val 2%nat) null null)
    /\ heap st' !! 2%nat = Some (Obj undefined undefined (val 1%nat) undefined)
    /\ root_parent st' = Some (val 2%nat)
    /\ result (getSuccessor Z.ltb 1 st') = Ok undefined.
Proof.
  do 2 eexists. repeat (split; [vm_compute; reflexivity|]).
  vm_compute; reflexivity.
Qed.

(** C7.  Scenarios A and B. *)
Theorem scenario_A_B :
  exists st7 st6,
    constructor Z.ltb [5; 3; 8; 1; 4; 7; 9] = Ok (tt, st7)
    /\ toArray st7 = Ok ([val 1; val 3; val 4; val 5; val 7; val 8; val 9], st7)
    /\ length st7 = 7
    /\ root st7 = val 0%nat
    /\ value <$> heap st7 !! 0%nat = Some (val 5)
    /\ reachable st7 = Some [0; 1; 3; 4; 2; 5; 6]%nat
    /\ value <$> heap st7 !! 5%nat = Some (val 7)
    /\ remove Z.ltb 5 st7 = Ok (val 6, st6)
    /\ root st6 = val 0%nat
    /\ value <$> heap st6 !! 0%nat = Some (val 7)
    /\ reachable st6 = Some [0; 1; 3; 4; 2; 6]%nat
    /\ toArray st6 = Ok ([val 1; val 3; val 4; val 7; val 8; val 9], st6)
    /\ length st6 = 6.
Proof.
  do 2 eexists. repeat (split; [vm_compute; reflexivity|]).
  vm_compute; reflexivity.
Qed.

(** C8.  Scenario D. *)
Theorem scenario_D :
  exists st3 st2 st1 st0,
    constructor Z.ltb [5; 5; 5] = Ok (tt, st3)
    /\ length st3 = 3
    /\ toArray st3 = Ok ([val 5; val 5; val 5], st3)
    /\ remove Z.ltb 5 st3 = Ok (val 2, st2)
    /\ remove Z.ltb 5 st2 = Ok (val 1, st1)
    /\ remove Z.ltb 5 st1 = Ok (val 0, st0)
    /\ remove Z.ltb 5 st0 = Ok (null, st0).
Proof.
  do 4 eexists. repeat (split; [vm_compute; reflexivity|]).
  vm_compute; reflexivity.
Qed.

(** C3.  [toArray] throws on a tree without a root, where an empty
    array is due: line 169 reads [node.left] of the [null] root.  So on
    the tree of [new BinarySearchTree()], and again once [insert(5)] and
    [remove(5)] have emptied the tree. *)
Theorem toArray_throws_without_root :
  exists st0 st1,
    constructor Z.ltb [] = Ok (tt, st0)
    /\ root st0 = null
    /\ toArray st0 = Fail TypeError
    /\ run Z.ltb [Insert 5; Remove 5] st0 = Ok ([val 1; val 0], st1)
    /\ root st1 = null
    /\ toArray st1 = Fail TypeError.
Proof.
  do 2 eexists. repeat (split; [vm_compute; reflexivity|]).
  vm_compute; reflexivity.
Qed.


(** ** The general theorems at concrete inputs *)

Lemma state_213_built : constructor Z.ltb [2; 1; 3] = Ok (tt, state_213).
Proof. vm_compute; reflexivity. Qed.

Lemma Inv_213 : Inv state_213 tree_213.
Proof.
  exists []. split; [by left|]. split; [|split; reflexivity].
  split; [exact I|]. split; [repeat split|].
  apply (bool_decide_unpack _). vm_compute. exact I.
Qed.

Lemma bst_213 : bst Z.ltb tree_213.
Proof. repeat split; repeat constructor. Qed.

(** X23 at [insert(5); insert(3); insert(8); remove(5)]: a root is
    left, and [toArray] returns 3 and 8 in ascending order. *)
Lemma toArray_ascending_witness :
  exists rets st xs,
    run Z.ltb [Insert 5; Insert 3; Insert 8; Remove 5] init = Ok (rets, st)
    /\ root st <> null
    /\ toArray st = Ok (val <$> xs, st)
    /\ ascending Z.ltb xs /\ xs ≡ₚ [8; 3].
Proof.
  destruct (toArray_ascending Z.ltb ltb_irrefl ltb_trans ltb_total
              [Insert 5; Insert 3; Insert 8; Remove 5])
    as (rets & st & Hrun & Hiff & Harr).
  assert (root st <> null) as Hroot.
  { intros Hnull. apply Hiff in Hnull. vm_compute in Hnull. discriminate Hnull. }
  destruct (Harr Hroot) as (xs & Hto & Hasc & Hperm).
  rewrite spread_all_plain in Hto by done.
  exists rets, st, xs. repeat split; assumption.
Defined.


(** C6 at the tree of [[2, 1, 3]] and the value 7. *)
Lemma remove_missing_witness :
  search Z.ltb 7 state_213 = Ok (null, state_213)
  /\ remove Z.ltb 7 state_213 = Ok (null, state_213)
  /\ forall k : Z, @null Z <> val k.
Proof.
  apply (remove_missing Z.ltb 7 state_213 tree_213 Inv_213).
  apply (bool_decide_unpack _). vm_compute. exact I.
Defined.

(** C9 at the tree of [[2, 1, 3]] and the value 2. *)
Lemma pred_succ_dual_witness :
  (forall u, getPredecessor Z.ltb 2 state_213 = Ok (val u, state_213) ->
             getSuccessor Z.ltb u state_213 = Ok (val 2, state_213))
  /\ (forall w, getSuccessor Z.ltb 2 state_213 = Ok (val w, state_213) ->
                getPredecessor Z.ltb w state_213 = Ok (val 2, state_213))
  /\ exists u w, getPredecessor Z.ltb 2 state_213 = Ok (val u, state_213)
                 /\ getSuccessor Z.ltb 2 state_213 = Ok (val w, state_213).
Proof.
  apply (pred_succ_dual Z.ltb ltb_irrefl ltb_trans ltb_total state_213 tree_213 2
           Inv_213 bst_213).
  - apply (bool_decide_unpack _). vm_compute. exact I.
  - apply (bool_decide_unpack _). vm_compute. exact I.
  - intros (_ & Hmin). assert ((1 <? 2) = false) as Hc; [|discriminate Hc].
    apply Hmin. apply (bool_decide_unpack _). vm_compute. exact I.
  - intros (_ & Hmax). assert ((2 <? 3) = false) as Hc; [|discriminate Hc].
    apply Hmax. apply (bool_decide_unpack _). vm_compute. exact I.
Defined.

(** * Further properties of the methods *)

(** ** Whatever the ordering predicate *)

Section Calls.

Context {T : Type} `{EqDecision T} `{ConcatSpreadable T}.
Variable cmp : T -> T -> bool.
Implicit Types (h : list (@obj T)) (st : @state T) (t l r : @tree T)
  (c : @ctx T) (f : @frame T) (a b n m p : addr) (v w : T).

(** The state after a sequence of calls holds a tree. *)
Lemma run_Inv (ops : list op) rets st :
  run cmp ops init = Ok (rets, st) -> exists t, Inv st t /\ evolves cmp E ops t.
Proof.
  intros Hrun.
  destruct (run_spec cmp ops init E Inv_init) as (rets' & st' & t & Hrun' & HI & Hev & _).
  rewrite Hrun in Hrun'. injection Hrun' as <- <-. eauto.
Qed.

Lemma run_app (ops1 ops2 : list op) : forall st0 rets1 st1 rets2 st2,
  run cmp ops1 st0 = Ok (rets1, st1) -> run cmp ops2 st1 = Ok (rets2, st2) ->
  run cmp (ops1 ++ ops2) st0 = Ok (rets1 ++ rets2, st2).
Proof.
  induction ops1 as [|o ops1 IH]; intros st0 rets1 st1 rets2 st2 H1 H2.
  - injection H1 as <- <-. exact H2.
  - cbn [run app] in *. unfold mbind, M_bind in *.
    destruct (exec cmp o st0) as [[ret sta]|e]; [|discriminate H1].
    destruct (run cmp ops1 sta) as [[rs stb]|e] eqn:Hrs; [|discriminate H1].
    injection H1 as <- <-.
    by rewrite (IH _ _ _ _ _ Hrs H2).
Qed.

Lemma run_snoc (ops : list op) (o : op) rets st ret st' :
  run cmp ops init = Ok (rets, st) -> exec cmp o st = Ok (ret, st') ->
  run cmp (ops ++ [o]) init = Ok (rets ++ [ret], st').
Proof.
  intros H1 H2. apply (run_app _ _ _ _ _ _ _ H1).
  cbn [run]. unfold mbind, M_bind. by rewrite H2.
Qed.

Lemma stored_snoc (ops : list (@op T)) (o : @op T) :
  stored (ops ++ [o]) = stored_after (stored ops) o.
Proof. unfold stored. by rewrite fold_left_app. Qed.

Lemma elements_nil t : elements t = [] <-> t = E.
Proof.
  split; [|by intros ->]. destruct t as [|l a v r]; [done|].
  simpl. by destruct (elements l).
Qed.

Lemma size_elements t : size t = List.length (elements t).
Proof.
  induction t as [|l IHl a v r IHr]; simpl; [done|].
  rewrite length_app. simpl. lia.
Qed.

Lemma Inv_root_null st t : Inv st t -> (root st = null <-> t = E).
Proof.
  intros (c & _ & _ & -> & _). by destruct t.
Qed.

(** The node [search] stops at, in the store. *)
Lemma Inv_focus v st t l a w r :
  Inv st t -> (path cmp v t).2 = N l a w r ->
  w = v /\ exists par, heap st !! a = Some (Obj (val v) par (rootref l) (rootref r)).
Proof.
  intros (c0 & Htop & Hz & _) Hf.
  assert (w = v) as ->.
  { destruct (path_focus cmp v t) as [He|(l' & a' & r' & He)]; rewrite Hf in He;
      [done|by injection He]. }
  split; [done|].
  pose proof (path_plug cmp v t) as Hplug.
  pose proof (path_nodes cmp v t) as Hnodes.
  destruct (path cmp v t) as [c foc]. cbn [fst snd] in *. subst foc.
  rewrite <- Hplug in Hz. apply zrep_app in Hz; [|done].
  destruct Hz as (_ & (Ha & _) & _). eauto.
Qed.

Lemma path_tinsert n v t :
  exists l a r, (path cmp v (tinsert cmp n v t)).2 = N l a v r.
Proof.
  induction t as [|l IHl a w r IHr]; cbn [tinsert].
  - cbn [path]. rewrite decide_True by done. eauto.
  - destruct (decide (w = v)) as [->|Hne].
    + destruct (cmp v v); cbn [path]; rewrite decide_True by done; eauto.
    + destruct (cmp v w) eqn:Hc; cbn [path]; rewrite decide_False by done;
        rewrite Hc.
      * destruct IHl as (l' & a' & r' & IH).
        destruct (path cmp v (tinsert cmp n v l)) as [c foc]. eauto.
      * destruct IHr as (l' & a' & r' & IH).
        destruct (path cmp v (tinsert cmp n v r)) as [c foc]. eauto.
Qed.

Lemma path_sub_left v l a w r :
  w <> v -> cmp v w = true ->
  (path cmp v (N l a w r)).2 = (path cmp v l).2.
Proof.
  intros Hne Hc. cbn [path]. rewrite decide_False by done. rewrite Hc.
  by destruct (path cmp v l).
Qed.

Lemma path_sub_right v l a w r :
  w <> v -> cmp v w = false ->
  (path cmp v (N l a w r)).2 = (path cmp v r).2.
Proof.
  intros Hne Hc. cbn [path]. rewrite decide_False by done. rewrite Hc.
  by destruct (path cmp v r).
Qed.

Lemma elements_remove_root_eq l a v r :
  elements (remove_root (N l a v r)) = elements l ++ elements r.
Proof.
  cbn [remove_root]. destruct l as [|ll la lv lr].
  - done.
  - destruct r as [|rl ra rv rr]; [by rewrite app_nil_r|].
    pose proof (lm_elements rl ra rv rr) as Hlm.
    destruct (lm rl ra rv rr) as [[[cm m] mv] mr].
    cbn [elements] in *. by rewrite Hlm.
Qed.

(** [remove] takes the value found out of the in-order sequence and
    leaves the rest in place. *)
Lemma elements_tremove_eq v t :
  (path cmp v t).2 <> E ->
  elements (tremove cmp v t) = before cmp v t ++ after cmp v t.
Proof.
  induction t as [|l IHl a w r IHr]; [done|].
  intros Hf. rewrite tremove_N. cbn [before after].
  destruct (decide (w = v)) as [->|Hne].
  - apply elements_remove_root_eq.
  - destruct (cmp v w) eqn:Hc; cbn [elements].
    + rewrite path_sub_left in Hf by done. rewrite IHl by done.
      by rewrite <- app_assoc.
    + rewrite path_sub_right in Hf by done. rewrite IHr by done.
      by rewrite <- app_assoc.
Qed.

(** The links of a tree in the store. *)
Lemma shape_links h par t a o :
  shape h par t -> a ∈ addrs t -> h !! a = Some o ->
  (exists w, value o = val w)
  /\ (forall b, left o = val b -> parent <$> h !! b = Some (val a))
  /\ (forall b, right o = val b -> parent <$> h !! b = Some (val a))
  /\ left o <> undefined /\ right o <> undefined.
Proof.
  revert par. induction t as [|l IHl a' v r IHr]; intros par Hs Ha Ho.
  - by apply elem_of_nil in Ha.
  - cbn [shape addrs] in *. destruct Hs as (Ha' & Hl & Hr).
    apply elem_of_cons in Ha as [->|Ha].
    + rewrite Ha' in Ho. injection Ho as <-. cbn [value left right].
      split; [eauto|].
      split; [|split; [|split; [by destruct l|by destruct r]]].
      * intros b Hb. destruct l as [|ll la lv lr]; [done|].
        injection Hb as ->. destruct Hl as (-> & _). done.
      * intros b Hb. destruct r as [|rl ra rv rr]; [done|].
        injection Hb as ->. destruct Hr as (-> & _). done.
    + apply elem_of_app in Ha as [Ha|Ha]; eauto.
Qed.

(** X1.  [insert] after any sequence of calls: the count grows by one;
    the call returns the new count when there is no root, or when the
    root has no child on the side the value goes to, and [undefined]
    when the root has a child there. *)
Theorem insert_returns (ops : list op) rets st v :
  run cmp ops init = Ok (rets, st) ->
  exists ret st',
    insert cmp v st = Ok (ret, st')
    /\ length st' = length st + 1
    /\ (root st = null -> ret = val (length st + 1))
    /\ (forall a o w,
          root st = val a -> heap st !! a = Some o -> value o = val w ->
          ret = if strict_eq (if cmp v w then left o else right o) null
                then val (length st + 1) else undefined).
Proof.
  intros Hrun. destruct (run_Inv _ _ _ Hrun) as (t & HI & _).
  destruct (insert_spec cmp v st t HI) as (st' & Hins & _ & _ & Hlen).
  eexists _, st'. split; [exact Hins|]. split; [exact Hlen|]. split.
  - intros Hnull. apply (Inv_root_null _ _ HI) in Hnull as ->. done.
  - intros a o w Hroot Ho Hw.
    destruct HI as (c0 & _ & (_ & Hs & _) & Hr & _). rewrite Hr in Hroot.
    destruct t as [|l a' w' r]; [done|]. injection Hroot as ->.
    destruct Hs as (Ha & _). rewrite Ha in Ho. injection Ho as <-.
    injection Hw as <-. cbn [direct left right].
    destruct (cmp v w'); [by destruct l|by destruct r].
Qed.

(** X2.  A value just inserted is found: after [insert(v)], [search(v)]
    returns a node, and that node holds [v]. *)
Theorem insert_then_search (ops : list op) rets st v ret st' :
  run cmp ops init = Ok (rets, st) -> insert cmp v st = Ok (ret, st') ->
  exists a o,
    search cmp v st' = Ok (val a, st')
    /\ heap st' !! a = Some o /\ value o = val v.
Proof.
  intros Hrun Hins. destruct (run_Inv _ _ _ Hrun) as (t & HI & _).
  destruct (insert_spec cmp v st t HI) as (st1 & Hins' & HI' & _).
  rewrite Hins in Hins'. injection Hins' as _ <-.
  destruct (path_tinsert (List.length (heap st)) v t) as (l & a & r & Hf).
  destruct (Inv_focus _ _ _ _ _ _ _ HI' Hf) as (_ & par & Ha).
  exists a, (Obj (val v) par (rootref l) (rootref r)).
  rewrite (search_spec cmp v st' _ HI'), Hf. done.
Qed.

(** X3.  [remove] of a value that [search] finds: it returns the count
    less one.  [toArray] before returns what [concat] makes of the
    elements of the tree in order (the entries of an element that is an
    array, any other element itself), and afterwards of the same
    elements with the one occurrence taken out, the others in place;
    when that was the only element, no root is left. *)
Theorem remove_found (ops : list op) rets st v a :
  run cmp ops init = Ok (rets, st) -> search cmp v st = Ok (val a, st) ->
  exists st' xs ys,
    remove cmp v st = Ok (val (length st - 1), st')
    /\ length st' = length st - 1
    /\ toArray st = Ok (spread_all (xs ++ v :: ys), st)
    /\ (xs ++ ys = [] -> root st' = null)
    /\ (xs ++ ys <> [] -> toArray st' = Ok (spread_all (xs ++ ys), st')).
Proof.
  intros Hrun Hsearch. destruct (run_Inv _ _ _ Hrun) as (t & HI & _).
  rewrite (search_spec cmp v st t HI) in Hsearch. injection Hsearch as Hfoc.
  assert ((path cmp v t).2 <> E) as Hf by (intros He; by rewrite He in Hfoc).
  assert (t <> E) as Ht by (intros ->; by apply Hf).
  destruct (remove_spec cmp v st t HI) as (st' & Hrem & HI' & _ & Hlen & _).
  rewrite Hfoc in Hrem, Hlen. cbn [truthy] in Hrem, Hlen.
  exists st', (before cmp v t), (after cmp v t).
  split; [exact Hrem|]. split; [by apply Hlen|].
  rewrite <- (path_found cmp v t Hf), <- (elements_tremove_eq v t Hf).
  split; [by apply toArray_spec|]. split.
  - intros Hnil%elements_nil. by apply (Inv_root_null _ _ HI').
  - intros Hne. apply toArray_spec; [done|]. intros He. apply Hne.
    by apply elements_nil.
Qed.

(** X4.  The links agree: after any sequence of calls, a node reachable
    from the root holds a proper value, its [left] and [right] are
    [null] or nodes, and each child has the node as its [parent]. *)
Theorem child_parent_links (ops : list op) rets st nodes a o :
  run cmp ops init = Ok (rets, st) -> reachable st = Some nodes ->
  a ∈ nodes -> heap st !! a = Some o ->
  (exists w, value o = val w)
  /\ (forall b, left o = val b -> parent <$> heap st !! b = Some (val a))
  /\ (forall b, right o = val b -> parent <$> heap st !! b = Some (val a))
  /\ left o <> undefined /\ right o <> undefined.
Proof.
  intros Hrun Hreach Ha Ho. destruct (run_Inv _ _ _ Hrun) as (t & HI & _).
  destruct (reachable_spec st t HI) as (Hreach' & _).
  rewrite Hreach in Hreach'. injection Hreach' as ->.
  destruct HI as (c0 & _ & (_ & Hs & _) & _).
  exact (shape_links _ _ _ _ _ Hs Ha Ho).
Qed.

(** X5.  What is above the root: after any sequence of calls the
    [parent] of the root node is [null], or it is an object that has
    only a [left], which is the root: the object [remove] makes when it
    removes at the root.  It is never a node of the tree. *)
Theorem root_parent_shape (ops : list op) rets st a :
  run cmp ops init = Ok (rets, st) -> root st = val a ->
  root_parent st = Some null
  \/ exists p, root_parent st = Some (val p)
               /\ heap st !! p = Some (Obj undefined undefined (val a) undefined).
Proof.
  intros Hrun Hroot. destruct (run_Inv _ _ _ Hrun) as (t & HI & _).
  destruct HI as (c0 & Htop & (Hc & Hs & _) & Hr & _).
  unfold root_parent. rewrite Hroot. rewrite Hr in Hroot.
  destruct t as [|l a' w r]; [done|]. injection Hroot as ->.
  destruct Hs as (Ha & _). rewrite Ha. cbn [fmap option_fmap option_map parent].
  destruct Htop as [->|[p ->]]; [by left|]. right. exists p.
  split; [done|]. by destruct Hc as (Hp & _).
Qed.

(** X6.  [toArray] on a tree with a root returns what [concat] makes
    of as many elements as the count says, and changes nothing; when
    none of the elements is an array, these are as many entries as the
    count says, each a proper value. *)
Theorem toArray_length (ops : list op) rets st :
  run cmp ops init = Ok (rets, st) -> root st <> null ->
  exists xs,
    toArray st = Ok (spread_all xs, st)
    /\ Z.of_nat (List.length xs) = length st
    /\ ((forall x, x ∈ xs -> array_entries x = None) ->
        toArray st = Ok (val <$> xs, st)).
Proof.
  intros Hrun Hroot. destruct (run_Inv _ _ _ Hrun) as (t & HI & _).
  assert (toArray st = Ok (spread_all (elements t), st)) as Harr.
  { apply toArray_spec; [done|]. intros He. by apply Hroot, (Inv_root_null _ _ HI). }
  exists (elements t). split; [exact Harr|]. split.
  - destruct HI as (c0 & _ & _ & _ & ->). by rewrite size_elements.
  - intros Hplain. by rewrite Harr, spread_all_plain.
Qed.

(** A node of a tree, as a subtree in its context. *)
Lemma addrs_plug t a :
  a ∈ addrs t ->
  exists c l v r, Forall is_node c /\ plug c (N l a v r) = t.
Proof.
  induction t as [|l IHl a' v r IHr]; [by intros ?%elem_of_nil|].
  cbn [addrs]. rewrite elem_of_cons, elem_of_app. intros [->|[Ha|Ha]].
  - by exists [], l, v, r.
  - destruct (IHl Ha) as (c & l' & v' & r' & Hc & <-).
    exists (c ++ [FL a' v r]), l', v', r'. split.
    + apply Forall_app. split; [done|]. by repeat constructor.
    + by rewrite plug_app.
  - destruct (IHr Ha) as (c & l' & v' & r' & Hc & <-).
    exists (c ++ [FR l a' v]), l', v', r'. split.
    + apply Forall_app. split; [done|]. by repeat constructor.
    + by rewrite plug_app.
Qed.

Lemma elements_plug c :
  Forall is_node c ->
  exists xs zs, forall t, elements (plug c t) = xs ++ elements t ++ zs.
Proof.
  induction 1 as [|f c Hf Hc (xs & zs & IH)].
  - exists [], []. intros t. by rewrite app_nil_r.
  - destruct f as [b w r|l b w|p]; [| |done]; cbn [plug fill].
    + exists xs, (w :: elements r ++ zs). intros t. rewrite IH. cbn [elements].
      by rewrite <- !app_assoc.
    + exists (xs ++ elements l ++ [w]), zs. intros t. rewrite IH. cbn [elements].
      by rewrite <- !app_assoc.
Qed.

Lemma rm_right h par l a v r :
  shape h par (N l a v r) ->
  exists o, h !! (rm l a v r).1 = Some o /\ right o = null.
Proof.
  revert par l a v. induction r as [|rl _ ra rv rr IH]; intros par l a v Hs.
  - destruct Hs as (Ha & _). cbn [rm fst]. eauto.
  - destruct Hs as (_ & _ & Hr). cbn [rm]. by apply (IH _ _ _ _ Hr).
Qed.

(** A node reachable from the root, in the store: its subtree, and what
    the in-order sequence of the tree has around that of the subtree. *)
Lemma Inv_node st t a :
  Inv st t -> a ∈ addrs t ->
  exists par l v r xs zs,
    shape (heap st) par (N l a v r)
    /\ (size (N l a v r) < fuel_of st)%nat
    /\ elements t = xs ++ elements (N l a v r) ++ zs.
Proof.
  intros (c0 & _ & Hz & _) Ha.
  destruct (addrs_plug t a Ha) as (c & l & v & r & Hc & Hplug).
  destruct (elements_plug c Hc) as (xs & zs & Hel).
  rewrite <- Hplug in Hz. apply zrep_app in Hz; [|done].
  pose proof (zrep_size _ _ _ Hz) as Hsz. destruct Hz as (_ & Hs & _).
  exists (cpar (c ++ c0)), l, v, r, xs, zs.
  split; [done|]. split; [unfold fuel_of; lia|]. by rewrite <- Hplug.
Qed.


(** X8.  The two methods of a node, against the elements of its
    subtree in order (those [toArray(node)] returns, through [concat]):
    [getLeftmostDescendant] returns the node that holds the first of
    them, and that node has no [left]; [getRightmostDescendant] returns
    the node that holds the last, and that node has no [right]. *)
Theorem descendants_hold_ends (ops : list op) rets st nodes a :
  run cmp ops init = Ok (rets, st) -> reachable st = Some nodes -> a ∈ nodes ->
  exists es m k om ok,
    toArray_from (val a) st = Ok (spread_all es, st)
    /\ getLeftmostDescendant (val a) st = Ok (val m, st)
    /\ heap st !! m = Some om /\ left om = null
    /\ val <$> head es = Some (value om)
    /\ getRightmostDescendant (val a) st = Ok (val k, st)
    /\ heap st !! k = Some ok /\ right ok = null
    /\ val <$> last es = Some (value ok).
Proof.
  intros Hrun Hreach Ha. destruct (run_Inv _ _ _ Hrun) as (t & HI & _).
  destruct (reachable_spec st t HI) as (Hreach' & _).
  rewrite Hreach in Hreach'. injection Hreach' as ->.
  destruct (Inv_node _ _ _ HI Ha) as (par & l & v & r & xs & zs & Hs & Hfuel & _).
  pose proof (height_le_size (N l a v r)) as Hh. cbn [height size] in Hh, Hfuel.
  pose proof (lm_lookup _ _ _ _ _ _ Hs) as Hlm.
  pose proof (lm_elements l a v r) as Hlme.
  pose proof (getLeftmostDescendant_fuel_spec l a v r (fuel_of st) par st Hs) as Hld.
  destruct (lm l a v r) as [[[cm m] mv] mr]. destruct Hlm as (pm & Hm).
  destruct (rm_lookup _ _ _ _ _ _ Hs) as (ok & Hk & Hkv).
  destruct (rm_right _ _ _ _ _ _ Hs) as (ok' & Hk' & Hkr).
  rewrite Hk in Hk'. injection Hk' as <-.
  destruct (rm_elements l a v r) as (ys' & Hrme).
  eexists (elements (N l a v r)), m, (rm l a v r).1, _, ok.
  split; [|split; [|split; [exact Hm|split; [done|split; [|split; [|split; [exact Hk|split; [done|]]]]]]]].
  - unfold toArray_from.
    apply (toArray_fuel_spec (N l a v r) _ par); [done|done|]. cbn [height]. lia.
  - unfold getLeftmostDescendant. apply Hld. lia.
  - by rewrite Hlme.
  - unfold getRightmostDescendant.
    apply (getRightmostDescendant_fuel_spec l a v r _ par); [done|lia].
  - rewrite Hrme, last_snoc. cbn [fmap option_fmap option_map]. by rewrite Hkv.
Qed.

(** X9.  After any sequence of calls no call throws, but for [toArray]
    on a tree without a root; and [search], [toArray], [getPredecessor]
    and [getSuccessor] leave the tree as it is. *)
Theorem calls_return (ops : list op) rets st v :
  run cmp ops init = Ok (rets, st) ->
  (exists ret st', insert cmp v st = Ok (ret, st'))
  /\ (exists ret, search cmp v st = Ok (ret, st))
  /\ (exists ret st', remove cmp v st = Ok (ret, st'))
  /\ (exists ret, getPredecessor cmp v st = Ok (ret, st))
  /\ (exists ret, getSuccessor cmp v st = Ok (ret, st))
  /\ (root st = null -> toArray st = Fail TypeError)
  /\ (root st <> null -> exists arr, toArray st = Ok (arr, st)).
Proof.
  intros Hrun. destruct (run_Inv _ _ _ Hrun) as (t & HI & _).
  destruct (insert_spec cmp v st t HI) as (st1 & Hins & _).
  destruct (remove_spec cmp v st t HI) as (st2 & Hrem & _).
  pose proof (search_spec cmp v st t HI) as Hsearch.
  split; [eauto|]. split; [eauto|]. split; [eauto|].
  split; [|split; [|split]].
  - destruct HI as (c0 & Htop & Hz & Hroot & Hlen). eexists.
    by apply (getPredecessor_spec cmp v st t c0).
  - destruct HI as (c0 & Htop & Hz & Hroot & Hlen). eexists.
    by apply (getSuccessor_spec cmp v st t c0).
  - apply toArray_empty.
  - intros Hne. eexists. apply (toArray_spec st t HI).
    intros He. by apply Hne, (Inv_root_null _ _ HI).
Qed.

End Calls.

(** ** Under a strict total order *)

Section OrderedCalls.

Context {T : Type} `{EqDecision T} `{ConcatSpreadable T}.
Variable cmp : T -> T -> bool.
Implicit Types (h : list (@obj T)) (st : @state T) (t l r : @tree T)
  (c : @ctx T) (f : @frame T) (a b n m p : addr)
  (v w x y z : T) (xs ys : list T).

Hypothesis cmp_irrefl : forall x, cmp x x = false.
Hypothesis cmp_trans :
  forall x y z, cmp x y = true -> cmp y z = true -> cmp x z = true.
Hypothesis cmp_total :
  forall x y, cmp x y = false -> cmp y x = false -> x = y.

(** The state after a sequence of calls holds a search tree of what the
    calls stored. *)
Lemma run_bst (ops : list op) rets st :
  run cmp ops init = Ok (rets, st) ->
  exists t, Inv st t /\ bst cmp t /\ elements t ≡ₚ stored ops.
Proof.
  intros Hrun.
  destruct (reachable_wf cmp cmp_irrefl cmp_trans cmp_total ops)
    as (rets' & st' & t & Hrun' & HI & Hb & Hp).
  rewrite Hrun in Hrun'. injection Hrun' as <- <-. eauto.
Qed.

Lemma ascending_unique xs ys :
  ascending cmp xs -> ascending cmp ys -> xs ≡ₚ ys -> xs = ys.
Proof.
  apply StronglySorted_unique. intros x y Hxy Hyx. by apply cmp_total.
Qed.

(** In an ascending list, what comes after [v] is not before it in the
    order, and what comes before an element is not after it. *)
Lemma ascending_after v xs ys x :
  ascending cmp (xs ++ v :: ys) -> x ∈ v :: ys -> cmp x v = false.
Proof.
  intros Hasc Hx. apply elem_of_cons in Hx as [->|Hx]; [done|].
  unfold ascending in Hasc. apply StronglySorted_app_1_r in Hasc.
  apply StronglySorted_cons in Hasc as (Hall & _).
  rewrite Forall_forall in Hall. by apply Hall.
Qed.

Lemma ascending_before u xs ys x :
  ascending cmp (xs ++ u :: ys) -> x ∈ xs -> cmp u x = false.
Proof.
  intros Hasc Hx. unfold ascending in Hasc.
  apply (StronglySorted_app_1_elem_of _ _ _ x u) in Hasc; [done|done|].
  apply elem_of_cons. by left.
Qed.

(** What [search] passes on its way to [v] and leaves to the left is
    strictly before [v]. *)
Lemma before_lt v t :
  bst cmp t -> Forall (fun x => cmp x v = true) (before cmp v t).
Proof.
  induction t as [|l IHl a w r IHr]; [constructor|].
  intros (Hl & Hr & Hbl & Hbr). cbn [before].
  destruct (decide (w = v)) as [->|Hne]; [done|].
  destruct (cmp v w) eqn:Hvw; [by apply IHl|].
  assert (cmp w v = true) as Hwv.
  { destruct (cmp w v) eqn:Hwv; [done|]. exfalso. apply Hne. by apply cmp_total. }
  apply Forall_app. split.
  - eapply Forall_impl; [exact Hl|]. intros x Hx. by apply (cmp_trans x w v).
  - apply Forall_cons. split; [done|]. by apply IHr.
Qed.

Lemma count_of_none v xs : v ∉ xs -> count_of v xs = 0%nat.
Proof.
  induction xs as [|x xs IH]; [done|]. rewrite not_elem_of_cons.
  intros (Hne & Hx). cbn [count_of]. rewrite decide_False by done. by rewrite IH.
Qed.

Lemma count_of_some v xs : (1 <= count_of v xs)%nat -> v ∈ xs.
Proof.
  intros Hc. destruct (decide (v ∈ xs)) as [|Hn]; [done|].
  rewrite (count_of_none _ _ Hn) in Hc. lia.
Qed.

Lemma count_of_remove_one v xs :
  count_of v (remove_one v xs) = Nat.pred (count_of v xs).
Proof.
  induction xs as [|x xs IH]; [done|]. cbn [remove_one count_of].
  destruct (decide (x = v)) as [->|Hne]; [done|].
  cbn [count_of]. rewrite decide_False by done. by rewrite IH.
Qed.

(** Where [search] stops at [v]: the in-order sequence around it. *)
Lemma found_split v t :
  bst cmp t -> v ∈ elements t ->
  (path cmp v t).2 <> E
  /\ elements t = before cmp v t ++ v :: after cmp v t
  /\ ascending cmp (before cmp v t ++ v :: after cmp v t)
  /\ Forall (fun x => cmp x v = true) (before cmp v t)
  /\ count_of v (elements t) = S (count_of v (after cmp v t)).
Proof.
  intros Hb Hv. destruct (path_complete cmp v t Hb Hv) as (l & a & r & Hf).
  assert ((path cmp v t).2 <> E) as Hne by (by rewrite Hf).
  pose proof (path_found cmp v t Hne) as Hel.
  pose proof (before_lt v t Hb) as Hlt.
  split; [done|]. split; [done|]. split; [|split; [done|]].
  - rewrite <- Hel. by apply bst_ascending.
  - rewrite Hel at 1. rewrite count_of_app. cbn [count_of].
    rewrite decide_True by done. rewrite count_of_none; [done|].
    intros Hvb. rewrite Forall_forall in Hlt. specialize (Hlt v Hvb).
    by rewrite cmp_irrefl in Hlt.
Qed.

Lemma forEach_run (l : list T) : forall st rets st',
  run cmp (Insert <$> l) st = Ok (rets, st') ->
  forEach (insert cmp) l st = Ok (tt, st').
Proof.
  induction l as [|x l IH]; intros st rets st' Hrun.
  - by injection Hrun as _ <-.
  - cbn [fmap list_fmap run forEach exec] in *. unfold mbind, M_bind in *.
    destruct (insert cmp x st) as [[ret st1]|e]; [|discriminate Hrun].
    destruct (run cmp (Insert <$> l) st1) as [[rs st2]|e] eqn:Hrs; [|discriminate Hrun].
    injection Hrun as _ <-. by apply (IH _ _ _ Hrs).
Qed.

Lemma stored_inserts (l : list T) : forall acc,
  fold_left stored_after (Insert <$> l) acc ≡ₚ l ++ acc.
Proof.
  induction l as [|x l IH]; intros acc; [done|].
  cbn [fmap list_fmap fold_left stored_after]. rewrite IH.
  symmetry. apply Permutation_middle.
Qed.

(** X10.  [search] decides membership: after any sequence of calls it
    returns [null] exactly when the value is not stored, and otherwise
    a node that holds the value; it changes nothing. *)
Theorem search_membership (ops : list op) rets st v :
  run cmp ops init = Ok (rets, st) ->
  exists ret : ref,
    search cmp v st = Ok (ret, st)
    /\ match ret with
       | val a => v ∈ stored ops
                  /\ exists o, heap st !! a = Some o /\ value o = val v
       | null => v ∉ stored ops
       | undefined => False
       end.
Proof.
  intros Hrun. destruct (run_bst _ _ _ Hrun) as (t & HI & Hb & Hp).
  eexists. split; [apply (search_spec cmp v st t HI)|].
  destruct (decide (v ∈ elements t)) as [Hv|Hv].
  - destruct (path_complete cmp v t Hb Hv) as (l & a & r & Hf).
    destruct (Inv_focus _ _ _ _ _ _ _ _ HI Hf) as (_ & par & Ha).
    rewrite Hf. cbn [rootref]. split; [by rewrite <- Hp|]. eauto.
  - rewrite (path_absent cmp v t Hv). cbn [rootref]. by rewrite <- Hp.
Qed.

(** Where [insert] puts a value in the in-order sequence of a search
    tree. *)
Lemma elements_tinsert_split n v t :
  bst cmp t ->
  exists xs ys,
    elements t = xs ++ ys
    /\ elements (tinsert cmp n v t) = xs ++ v :: ys
    /\ Forall (fun x => cmp v x = false) xs
    /\ Forall (fun y => cmp v y = true) ys.
Proof.
  induction t as [|l IHl a w r IHr].
  - intros _. exists [], []. by repeat split.
  - intros (Hl & Hr & Hbl & Hbr). cbn [tinsert].
    destruct (cmp v w) eqn:Hvw; cbn [elements].
    + destruct (IHl Hbl) as (xs & ys & -> & -> & Hxs & Hys).
      exists xs, (ys ++ w :: elements r).
      split; [by rewrite <- app_assoc|]. split; [by rewrite <- app_assoc|].
      split; [done|]. apply Forall_app. split; [done|].
      apply Forall_cons. split; [done|].
      eapply Forall_impl; [exact Hr|]. intros y Hy.
      by apply (cmp_lt_le cmp cmp_trans cmp_total v w y).
    + destruct (IHr Hbr) as (xs & ys & -> & -> & Hxs & Hys).
      exists (elements l ++ w :: xs), ys.
      split; [by rewrite <- app_assoc|]. split; [by rewrite <- app_assoc|].
      split; [|done]. apply Forall_app. split.
      * eapply Forall_impl; [exact Hl|]. intros x Hx.
        destruct (cmp v x) eqn:Hvx; [|done].
        by rewrite (cmp_trans v x w Hvx Hx) in Hvw.
      * by apply Forall_cons.
Qed.

(** X11.  Where [insert] puts a value: the elements of the tree in
    order afterwards are those from before with the value added after
    every element that is not greater (so after its equals) and before
    every greater one; [toArray] returns what [concat] makes of them,
    before and afterwards. *)
Theorem insert_position (ops : list op) rets st v ret st' :
  run cmp ops init = Ok (rets, st) -> insert cmp v st = Ok (ret, st') ->
  exists xs ys,
    toArray st' = Ok (spread_all (xs ++ v :: ys), st')
    /\ Forall (fun x => cmp v x = false) xs
    /\ Forall (fun y => cmp v y = true) ys
    /\ (root st = null -> xs ++ ys = [])
    /\ (root st <> null -> toArray st = Ok (spread_all (xs ++ ys), st)).
Proof.
  intros Hrun Hins. destruct (run_bst _ _ _ Hrun) as (t & HI & Hb & _).
  destruct (insert_spec cmp v st t HI) as (st1 & Hins' & HI' & _).
  rewrite Hins in Hins'. injection Hins' as _ <-.
  destruct (elements_tinsert_split (List.length (heap st)) v t Hb)
    as (xs & ys & Hel & Hel' & Hxs & Hys).
  exists xs, ys. rewrite <- Hel, <- Hel'.
  split; [|split; [done|split; [done|split]]].
  - apply toArray_spec; [done|]. intros He%(elements_nil (T:=T)).
    rewrite Hel' in He. by destruct xs.
  - intros ->%(Inv_root_null _ _ HI). done.
  - intros Hne. apply toArray_spec; [done|]. intros He. by apply Hne, (Inv_root_null _ _ HI).
Qed.

(** X12.  The constructor sorts: [new BinarySearchTree(list, cmp)] has
    the count of the list, and for a list that is not empty [toArray]
    returns what [concat] makes of its elements taken in ascending
    order. *)
Theorem constructor_sorts (l : list T) :
  exists st,
    constructor cmp l = Ok (tt, st)
    /\ length st = Z.of_nat (List.length l)
    /\ (l = [] -> st = init)
    /\ (l <> [] -> exists xs, toArray st = Ok (spread_all xs, st)
                              /\ ascending cmp xs /\ xs ≡ₚ l).
Proof.
  destruct (reachable_wf cmp cmp_irrefl cmp_trans cmp_total (Insert <$> l))
    as (rets & st & t & Hrun & HI & Hb & Hp).
  unfold stored in Hp. rewrite stored_inserts, app_nil_r in Hp.
  exists st. split; [by apply (forEach_run l init rets)|].
  split; [|split].
  - destruct HI as (c0 & _ & _ & _ & ->). rewrite size_elements.
    by rewrite (Permutation_length Hp).
  - intros ->. by injection Hrun as _ <-.
  - intros Hne. exists (elements t). split; [|split; [|done]].
    + apply toArray_spec; [done|]. intros ->. apply Hne.
      simpl in Hp. by apply Permutation_nil in Hp.
    + by apply bst_ascending.
Qed.

(** X13.  [getPredecessor] of a stored value returns the greatest stored
    element strictly before it, or [null] when no stored element is
    strictly before it. *)
Theorem predecessor_greatest_below (ops : list op) rets st v :
  run cmp ops init = Ok (rets, st) -> v ∈ stored ops ->
  exists ret : js T,
    getPredecessor cmp v st = Ok (ret, st)
    /\ match ret with
       | val u => u ∈ stored ops /\ cmp u v = true
                  /\ forall x, x ∈ stored ops -> cmp x v = true -> cmp u x = false
       | null => forall x, x ∈ stored ops -> cmp x v = false
       | undefined => False
       end.
Proof.
  intros Hrun Hv. destruct (run_bst _ _ _ Hrun) as (t & HI & Hb & Hp).
  assert (forall x, x ∈ stored ops <-> x ∈ elements t) as Hin
    by (intros x; by rewrite Hp).
  apply Hin in Hv.
  destruct (found_split v t Hb Hv) as (Hne & Hel & Hasc & Hlt & _).
  destruct HI as (c0 & Htop & Hz & Hroot & Hlen).
  eexists. split; [by apply (getPredecessor_spec cmp v st t c0)|].
  rewrite tpred_spec by done. rewrite Hel in Hin. rewrite Forall_forall in Hlt.
  set (B0 := before cmp v t) in *. set (A0 := after cmp v t) in *.
  clearbody B0 A0. clear Hel.
  destruct B0 as [|u B _] using rev_ind.
  - cbn [last]. assert (ctx_pred c0 = @null T) as -> by (by destruct Htop as [->|[p ->]]).
    intros x Hx%Hin. by apply (ascending_after v [] A0).
  - rewrite last_snoc. split; [|split].
    + apply Hin. rewrite !elem_of_app. left. right. apply elem_of_cons. by left.
    + apply Hlt. apply elem_of_app. right. apply elem_of_cons. by left.
    + intros x Hx%Hin Hxv. rewrite <- app_assoc in Hx, Hasc.
      apply elem_of_app in Hx as [Hx|Hx].
      * by apply (ascending_before u B ([] ++ v :: A0)).
      * apply elem_of_cons in Hx as [->|Hx]; [done|]. exfalso.
        rewrite app_assoc in Hasc.
        rewrite (ascending_after v _ _ x Hasc Hx) in Hxv. done.
Qed.

(** X14.  [getSuccessor] of a stored value returns the least stored
    element not before it, the occurrence found apart: the value itself
    when it is stored more than once, the least strictly greater element
    otherwise.  When the value is the maximum and stored once there is
    none: the call returns [null] if the root's [parent] is [null], and
    [undefined] if it is the object a [remove] at the root left. *)
Theorem successor_least_above (ops : list op) rets st v :
  run cmp ops init = Ok (rets, st) -> v ∈ stored ops ->
  exists ret : js T,
    getSuccessor cmp v st = Ok (ret, st)
    /\ match ret with
       | val w =>
           w ∈ stored ops /\ cmp w v = false
           /\ (forall x, x ∈ stored ops -> cmp v x = true -> cmp x w = false)
           /\ (w = v <-> (2 <= count_of v (stored ops))%nat)
       | null =>
           is_max cmp v (stored ops) /\ count_of v (stored ops) = 1%nat
           /\ root_parent st = Some null
       | undefined =>
           is_max cmp v (stored ops) /\ count_of v (stored ops) = 1%nat
           /\ exists p, root_parent st = Some (val p)
       end.
Proof.
  intros Hrun Hv. destruct (run_bst _ _ _ Hrun) as (t & HI & Hb & Hp).
  assert (forall x, x ∈ stored ops <-> x ∈ elements t) as Hin
    by (intros x; by rewrite Hp).
  apply Hin in Hv. rewrite <- (count_of_perm v _ _ Hp).
  destruct (found_split v t Hb Hv) as (Hne & Hel & Hasc & Hlt & Hcount).
  destruct HI as (c0 & Htop & Hz & Hroot & Hlen).
  assert (root_parent st = Some (cpar c0)) as Hpar.
  { destruct t as [|tl ta tv tr]; [by apply elem_of_nil in Hv|].
    destruct Hz as (_ & (Ha & _) & _). unfold root_parent.
    rewrite Hroot. cbn [rootref]. by rewrite Ha. }
  eexists. split; [by apply (getSuccessor_spec cmp v st t c0)|].
  rewrite tsucc_spec by done. rewrite Hcount. rewrite Hel in Hin.
  rewrite Forall_forall in Hlt.
  assert (forall x, x ∈ before cmp v t -> cmp v x = false) as Hbv.
  { intros x Hx. apply (cmp_asym cmp cmp_irrefl cmp_trans). by apply Hlt. }
  set (B0 := before cmp v t) in *. set (A0 := after cmp v t) in *.
  clearbody B0 A0. clear Hel Hlt.
  destruct A0 as [|w A].
  - assert (is_max cmp v (stored ops)) as Hmax.
    { split; [apply Hin, elem_of_app; right; apply elem_of_cons; by left|].
      intros x Hx%Hin. apply elem_of_app in Hx as [Hx|Hx]; [by apply Hbv|].
      apply list_elem_of_singleton in Hx as ->. done. }
    destruct Htop as [->|[p ->]]; cbn [ctx_succ cpar faddr] in *; eauto.
  - split; [|split; [|split]].
    + apply Hin. rewrite elem_of_app, !elem_of_cons. auto.
    + apply (ascending_after v _ _ w Hasc). rewrite !elem_of_cons. auto.
    + intros x Hx%Hin Hvx. apply elem_of_app in Hx as [Hx|Hx];
        [by rewrite (Hbv x Hx) in Hvx|].
      apply elem_of_cons in Hx as [->|Hx]; [by rewrite cmp_irrefl in Hvx|].
      apply (ascending_after w (B0 ++ [v]) A x); [|done].
      by rewrite <- app_assoc.
    + assert (cmp w v = false) as Hwv.
      { apply (ascending_after v _ _ w Hasc). rewrite !elem_of_cons. auto. }
      split.
      * intros ->. cbn [count_of]. rewrite decide_True by done. lia.
      * intros Hc. assert (v ∈ w :: A) as Hvin by (apply count_of_some; lia).
        apply cmp_total; [done|].
        apply (ascending_after w (B0 ++ [v]) A v); [|done].
        by rewrite <- app_assoc.
Qed.

(** X15.  [getPredecessor] and [getSuccessor] of a value that is not
    stored return [null]. *)
Theorem neighbours_of_missing (ops : list op) rets st v :
  run cmp ops init = Ok (rets, st) -> v ∉ stored ops ->
  getPredecessor cmp v st = Ok (null, st)
  /\ getSuccessor cmp v st = Ok (null, st).
Proof.
  intros Hrun Hv. destruct (run_bst _ _ _ Hrun) as (t & HI & Hb & Hp).
  rewrite <- Hp in Hv. pose proof (path_absent cmp v t Hv) as Hf.
  destruct HI as (c0 & Htop & Hz & Hroot & Hlen).
  rewrite (getPredecessor_spec cmp v st t c0), (getSuccessor_spec cmp v st t c0) by done.
  unfold tpred, tsucc. destruct (path cmp v t) as [c foc].
  cbn [snd] in Hf. by subst foc.
Qed.

(** X16.  [remove] takes out one occurrence: after [remove(v)],
    [search(v)] returns [null] exactly when the value was stored at
    most once before. *)
Theorem remove_then_search (ops : list op) rets st v ret st' :
  run cmp ops init = Ok (rets, st) -> remove cmp v st = Ok (ret, st') ->
  exists found : ref,
    search cmp v st' = Ok (found, st')
    /\ (found = null <-> (count_of v (stored ops) <= 1)%nat).
Proof.
  intros Hrun Hrem.
  pose proof (run_snoc cmp ops (Remove v) _ _ _ _ Hrun Hrem) as Hrun'.
  destruct (run_bst _ _ _ Hrun') as (t & HI & Hb & Hp).
  rewrite stored_snoc in Hp. cbn [stored_after] in Hp.
  eexists. split; [apply (search_spec cmp v st' t HI)|].
  pose proof (count_of_perm v _ _ Hp) as Hc. rewrite count_of_remove_one in Hc.
  destruct (decide (v ∈ elements t)) as [Hv|Hv].
  - destruct (path_complete cmp v t Hb Hv) as (l & a & r & ->).
    apply (count_of_elem v) in Hv. cbn [rootref]. split; [done|]. lia.
  - rewrite (path_absent cmp v t Hv). cbn [rootref]. split; [|done].
    intros _. rewrite (count_of_none _ _ Hv) in Hc. lia.
Qed.

(** X17.  [insert(v)] and then [remove(v)] restore the tree's contents:
    [remove] returns the count from before the two calls, and [toArray]
    returns what it returned before; if there was no root, there is
    none again. *)
Theorem insert_remove_restores (ops : list op) rets st v ret1 st1 ret2 st2 :
  run cmp ops init = Ok (rets, st) ->
  insert cmp v st = Ok (ret1, st1) -> remove cmp v st1 = Ok (ret2, st2) ->
  ret2 = val (length st) /\ length st2 = length st
  /\ (root st = null -> root st2 = null)
  /\ (forall arr, toArray st = Ok (arr, st) -> toArray st2 = Ok (arr, st2)).
Proof.
  intros Hrun Hins Hrem.
  pose proof (run_snoc cmp ops (Insert v) _ _ _ _ Hrun Hins) as Hrun1.
  pose proof (run_snoc cmp _ (Remove v) _ _ _ _ Hrun1 Hrem) as Hrun2.
  destruct (run_bst _ _ _ Hrun) as (t & HI & Hb & Hp).
  destruct (run_bst _ _ _ Hrun1) as (t1 & HI1 & Hb1 & Hp1).
  destruct (run_bst _ _ _ Hrun2) as (t2 & HI2 & Hb2 & Hp2).
  rewrite !stored_snoc in Hp2. rewrite stored_snoc in Hp1.
  cbn [stored_after remove_one] in Hp1, Hp2. rewrite decide_True in Hp2 by done.
  assert (elements t2 = elements t) as Heq.
  { apply ascending_unique; [by apply bst_ascending..|]. by rewrite Hp, Hp2. }
  assert (length st1 = length st + 1) as Hlen1.
  { destruct HI as (? & _ & _ & _ & ->). destruct HI1 as (? & _ & _ & _ & ->).
    rewrite !size_elements, (Permutation_length Hp1), (Permutation_length Hp).
    cbn [List.length]. lia. }
  assert (length st2 = length st) as Hlen2.
  { destruct HI as (? & _ & _ & _ & ->). destruct HI2 as (? & _ & _ & _ & ->).
    by rewrite !size_elements, Heq. }
  split; [|split; [done|split]].
  - destruct (remove_spec cmp v st1 t1 HI1) as (st' & Hrem' & _).
    rewrite Hrem in Hrem'. injection Hrem' as -> _.
    destruct (path_complete cmp v t1 Hb1) as (l & a & r & ->).
    { rewrite Hp1. apply elem_of_cons. by left. }
    cbn [rootref truthy]. f_equal. lia.
  - intros ->%(Inv_root_null _ _ HI). cbn [elements] in Heq.
    apply (elements_nil (T:=T)) in Heq. by apply (Inv_root_null _ _ HI2).
  - intros arr Harr.
    assert (t <> E) as Ht.
    { intros Ht%(Inv_root_null _ _ HI). by rewrite (toArray_empty st Ht) in Harr. }
    rewrite (toArray_spec st t HI Ht) in Harr. injection Harr as <-.
    rewrite <- Heq. apply toArray_spec; [done|].
    intros He. apply Ht. apply (elements_nil (T:=T)). rewrite <- Heq. by rewrite He.
Qed.

End OrderedCalls.

(** ** What is above the root *)

Section AboveRoot.

Context {T : Type} `{EqDecision T}.
Variable cmp : T -> T -> bool.
Implicit Types (h : list (@obj T)) (st : @state T) (t l r : @tree T)
  (c : @ctx T) (f : @frame T) (a b n m p : addr) (o : @obj T) (v w : T).

(** [insert] leaves what is above the root as it is; a root it makes
    has nothing above it. *)
Lemma insert_top v st t c :
  top c -> zrep (heap st) c t -> root st = rootref t ->
  length st = Z.of_nat (size t) ->
  exists ret st',
    insert cmp v st = Ok (ret, st')
    /\ zrep (heap st') (match t with E => [] | _ => c end)
            (tinsert cmp (List.length (heap st)) v t)
    /\ root st' = rootref (tinsert cmp (List.length (heap st)) v t)
    /\ length st' = Z.of_nat (size (tinsert cmp (List.length (heap st)) v t)).
Proof.
  intros Htop Hz Hroot Hlen.
  assert (Inv st t) as HI by (exists c; done).
  pose proof (Inv_fuel _ _ HI) as Hfuel. clear HI.
  destruct Hz as (Hc & Hs & Hnd).
  unfold insert. destruct t as [|l a w r].
  - unfold fuel_of. cbn [insert_fuel or_root]. unfold get_root.
    rewrite !(bind_ok _ _ _ _ _ eq_refl). simpl in Hroot. rewrite Hroot.
    cbn [truthy negb]. unfold alloc. rewrite (bind_ok _ _ _ _ _ eq_refl).
    unfold set_root. rewrite (bind_ok _ _ _ _ _ eq_refl).
    unfold incr_length. cbn [heap root length].
    eexists _, _. split; [reflexivity|]. cbn [heap root length tinsert].
    split; [|split; [done|simpl in *; lia]].
    split; [done|]. split.
    + simpl. split; [apply lookup_alloc_new|done].
    + simpl. apply NoDup_singleton.
  - simpl in Hroot. rewrite insert_fuel_default by (by rewrite Hroot).
    rewrite Hroot. pose proof Hnd as Hnd0.
    apply NoDup_app in Hnd as (Hndt & Hdisj & Hndc).
    destruct (insert_fuel_spec cmp v (N l a w r) (fuel_of st) (cpar c) st)
      as (h' & Hrun & Hs' & Hlen' & Hframe); [done|done|done|by rewrite Hroot|lia|].
    simpl rootref in Hrun. rewrite Hrun. rewrite Hroot.
    eexists _, _. split; [reflexivity|]. cbn [heap root length].
    split; [|split].
    + split; [|split].
      * rewrite rootref_tinsert by done. eapply cshape_ext; [|exact Hc].
        intros b Hb. apply Hframe; [eapply cshape_lt; eauto|].
        intros Hbt. by eapply Hdisj.
      * done.
      * rewrite addrs_tinsert. simpl. apply NoDup_cons. split.
        -- intros Hin.
           assert (List.length (heap st) < List.length (heap st))%nat; [|lia].
           eapply (zrep_lt (heap st) c (N l a w r)); [|exact Hin].
           split; [done|]. split; [done|exact Hnd0].
        -- exact Hnd0.
    + by rewrite rootref_tinsert.
    + rewrite size_tinsert. lia.
Qed.

(** [remove] of a value found below the root leaves what is above the
    root as it is; found at the root, it leaves the object it made
    there. *)
Lemma remove_top v st t c0 :
  top c0 -> zrep (heap st) c0 t -> root st = rootref t ->
  length st = Z.of_nat (size t) -> (path cmp v t).2 <> E ->
  exists st',
    remove cmp v st = Ok (val (length st - 1), st')
    /\ zrep (heap st')
            (match (path cmp v t).1 with
             | [] => [FP (List.length (heap st))]
             | _ => c0
             end)
            (tremove cmp v t)
    /\ root st' = rootref (tremove cmp v t)
    /\ length st' = Z.of_nat (size (tremove cmp v t)).
Proof.
  intros Htop Hz Hroot Hlen Hfound.
  assert (Inv st t) as HI by (exists c0; done).
  unfold remove. erewrite bind_ok by (apply search_spec, HI). clear HI.
  unfold tremove.
  pose proof (path_plug cmp v t) as Hplug.
  pose proof (path_nodes cmp v t) as Hnodes.
  destruct (path_focus cmp v t) as [Hfoc|(l & a & r & Hfoc)];
    destruct (path cmp v t) as [c foc]; simpl in Hplug, Hnodes, Hfoc, Hfound; subst foc;
    cbn [fst snd rootref truthy negb]; [done|]. clear Hfound.
  rewrite <- Hplug in Hz, Hroot, Hlen. apply zrep_app in Hz; [|done].
  unfold get_root. rewrite (bind_ok _ _ _ _ _ eq_refl).
  assert (exists rp st2 f c2,
    (if strict_eq (val a) (root st)
     then r' ← get_root;
          p ← alloc (Obj undefined undefined r' undefined);
          set_parent (val a) p;; mret p
     else mret undefined) st = Ok (rp, st2)
    /\ zrep (heap st2) (f :: c2) (N l a v r)
    /\ root st2 = root st /\ length st2 = length st
    /\ ((c = [] /\ rp = val (faddr f) /\ f = FP (List.length (heap st)) /\ c2 = [])
        \/ (c <> [] /\ rp = undefined /\ f :: c2 = c ++ c0)))
    as (rp & st2 & f & c2 & Hpre & Hz2 & Hroot2 & Hlen2 & Hcase).
  { destruct c as [|f c'].
    - simpl in Hz, Hroot. rewrite Hroot. unfold strict_eq.
      rewrite bool_decide_eq_true_2 by done.
      destruct Hz as (Hc0 & Hs0 & Hnd0). pose proof Hs0 as (Ha0 & _).
      unfold get_root at 1. rewrite (bind_ok _ _ _ _ _ eq_refl). rewrite Hroot.
      unfold alloc. rewrite (bind_ok _ _ _ _ _ eq_refl).
      unfold set_parent.
      erewrite bind_ok by (apply update_ok; cbn [heap]; eapply lookup_alloc_old, Ha0).
      rewrite ret_ok. cbn [value parent left right heap root length].
      eexists _, _, (FP (List.length (heap st))), []. split; [reflexivity|].
      cbn [heap root length].
      split; [|split; [exact Hroot|split; [done|left; repeat split]]].
      apply NoDup_app in Hnd0 as (Hnd0 & _ & _).
      assert (List.length (heap st) ∉ addrs (N l a v r)) as Hfresh.
      { intros Hin. eapply shape_lt in Hin; [|exact Hs0]. lia. }
      split; [|split].
      * split; [|done]. rewrite lookup_set_ne.
        -- apply lookup_alloc_new.
        -- intros ->. apply Hfresh. simpl. apply elem_of_cons. by left.
      * eapply shape_set_parent; [|done].
        eapply shape_ext; [|exact Hs0]. intros x Hx.
        apply lookup_app_l. eapply shape_lt; [exact Hs0|exact Hx].
      * apply NoDup_app. split; [done|]. split; [|apply NoDup_singleton].
        intros x Hx ->%list_elem_of_singleton. done.
    - destruct (croot_nodes (f :: c') (val a) Hnodes) as (b & Hb & Hcr); [done|].
      rewrite rootref_plug in Hroot by done. cbn [rootref] in Hroot.
      rewrite Hroot, Hcr. unfold strict_eq.
      rewrite bool_decide_eq_false_2.
      + rewrite ret_ok. eexists _, _, f, (c' ++ c0). split; [reflexivity|].
        split; [exact Hz|]. split; [by rewrite Hroot|]. split; [done|by right].
      + intros [= ->]. destruct Hz as (_ & _ & Hnd).
        apply NoDup_app in Hnd as (_ & Hdisj & _).
        apply (Hdisj b); [simpl; apply elem_of_cons; by left|].
        rewrite (caddrs_app (f :: c') c0). apply elem_of_app. by left. }
  erewrite bind_ok by exact Hpre.
  set (rr := remove_root (N l a v r)).
  assert (forall h3, zrep h3 (f :: c2) rr ->
    exists st',
      ((if truthy rp then l0 ← get_left rp; set_root l0 else mret tt);;
       decr_length) (State h3 (root st2) (length st2))
      = Ok (val (length st - 1), st')
      /\ zrep (heap st')
              (match c with [] => [FP (List.length (heap st))] | _ => c0 end)
              (plug c rr)
      /\ root st' = rootref (plug c rr)
      /\ length st' = Z.of_nat (size (plug c rr))) as Hfin.
  { intros h3 Hz3.
    assert (Z.of_nat (size (plug c rr)) = length st - 1) as Hsize.
    { pose proof (size_plug c rr (N l a v r)) as Hsp.
      pose proof (size_remove_root l a v r) as Hsr. fold rr in Hsr. lia. }
    destruct Hcase as [(-> & -> & Hf & ->)|(Hne & -> & Hfc)].
    - cbn [truthy]. pose proof Hz3 as (Hc3 & _). rewrite Hf in Hc3.
      destruct Hc3 as (Hp & _). rewrite Hf. cbn [faddr].
      erewrite bind_ok; [|erewrite bind_ok by (apply get_left_ok; exact Hp); reflexivity].
      cbn [left heap root length]. unfold decr_length. cbn [heap root length].
      eexists. split; [by rewrite Hlen2|]. cbn [heap root length plug].
      rewrite <- Hf. split; [exact Hz3|]. split; [done|]. simpl in Hsize. lia.
    - cbn [truthy]. rewrite (bind_ok _ _ _ _ _ (ret_ok _ _)).
      unfold decr_length. cbn [heap root length].
      eexists. split; [by rewrite Hlen2|]. cbn [heap root length].
      rewrite Hfc in Hz3. apply zrep_app in Hz3; [|done].
      split; [by destruct c|]. split; [|lia].
      rewrite Hroot2, Hroot, !rootref_plug by done. by apply croot_hole. }
  destruct Hz2 as (Hc2 & Hs2 & Hnd2). pose proof Hs2 as (Ha2 & Hl2 & Hr2).
  cbn [cpar] in Ha2.
  destruct (cshape_head _ _ _ _ Hc2) as (fo & Hfo & _).
  assert (a ∉ caddrs (f :: c2)) as Hac.
  { apply NoDup_app in Hnd2 as (_ & Hdisj & _). apply Hdisj.
    simpl. apply elem_of_cons. by left. }
  pose proof (node_side _ _ _ _ _ Hc2 Hac Hfo) as Hside.
  mstep get_left_ok. cbn [left].
  destruct l as [|ll la lv lr].
  - (* no left child: the right child, if any, takes the place *)
    cbn [rootref truthy]. rewrite (bind_ok _ _ _ _ _ (ret_ok _ _)). cbv beta iota.
    destruct (relink_ok get_right st2 f c2 a _ r Ha2 eq_refl)
      as (h3 & Hrun3 & Hc3 & Hs3 & Hlen3); [|exact Hc2|exact Hr2|exact Hnd2|].
    { intros st' Ha'. by rewrite (get_right_ok _ _ _ Ha'). }
    erewrite bind_ok; cycle 1.
    { mstep get_parent_ok. cbn [parent].
      mstep get_left_ok. rewrite Hside.
      mstep get_left_ok. cbn [left rootref truthy]. exact Hrun3. }
    apply (Hfin h3).
    split; [exact Hc3|]. split; [exact Hs3|].
    simpl in Hnd2. by apply NoDup_cons in Hnd2 as (_ & Hnd2).
  - cbn [rootref truthy].
    erewrite bind_ok;
      [|erewrite bind_ok by (eapply get_right_ok; exact Ha2); reflexivity].
    cbn [right]. destruct r as [|rl ra rv rr0].
    + (* only a left child: it takes the place *)
      cbn [rootref truthy]. cbv beta iota.
      destruct (relink_ok get_left st2 f c2 a _ (N ll la lv lr) Ha2 eq_refl)
        as (h3 & Hrun3 & Hc3 & Hs3 & Hlen3); [|exact Hc2|exact Hl2| |].
      { intros st' Ha'. by rewrite (get_left_ok _ _ _ Ha'). }
      { simpl in Hnd2 |- *. by rewrite app_nil_r in Hnd2. }
      cbn [rootref] in Hrun3.
      erewrite bind_ok; cycle 1.
      { mstep get_parent_ok. cbn [parent].
        mstep get_left_ok. rewrite Hside.
        mstep get_left_ok. cbn [left rootref truthy]. exact Hrun3. }
      apply (Hfin h3).
      split; [exact Hc3|]. split; [exact Hs3|].
      simpl in Hnd2 |- *. rewrite app_nil_r in Hnd2.
      by apply NoDup_cons in Hnd2 as (_ & Hnd2).
    + (* two children *)
      cbn [rootref truthy]. cbv beta iota.
      pose proof (lm_plug rl ra rv rr0) as Hlmp.
      pose proof (lm_nodes rl ra rv rr0) as Hlmn.
      pose proof (lm_lookup _ _ _ _ _ _ Hr2) as Hlml.
      pose proof (getLeftmostDescendant_fuel_spec rl ra rv rr0 (fuel_of st2) _ st2 Hr2)
        as Hlmd.
      assert (height rl < fuel_of st2)%nat as Hfuel.
      { pose proof (zrep_size _ _ _ (conj Hc2 (conj Hs2 Hnd2))) as Hsz.
        pose proof (height_le_size rl). unfold fuel_of. simpl in Hsz. lia. }
      specialize (Hlmd Hfuel). clear Hfuel.
      subst rr. cbn [remove_root] in Hfin |- *.
      destruct (lm rl ra rv rr0) as [[[cm m] mv] mr]. simpl in Hlmn, Hlmd.
      destruct Hlml as (pm & Hm).
      pose proof (zrep_set_value _ _ _ _ _ _ mv (conj Hc2 (conj Hs2 Hnd2))) as Hz2'.
      cbn [cpar rootref] in Hz2'.
      apply (zrep_step _ (FR (N ll la lv lr) a mv)) in Hz2'; [|done].
      rewrite <- Hlmp in Hz2'. apply zrep_app in Hz2'; [|done].
      destruct (cm ++ FR (N ll la lv lr) a mv :: f :: c2) as [|f3 c3] eqn:Hc3eq;
        [by destruct cm|].
      destruct Hz2' as (Hc3 & Hs3 & Hnd3). pose proof Hs3 as (Hm' & _ & Hmr).
      cbn [cpar] in Hm'.
      destruct (cshape_head _ _ _ _ Hc3) as (fo3 & Hfo3 & _).
      assert (m ∉ caddrs (f3 :: c3)) as Hmc.
      { apply NoDup_app in Hnd3 as (_ & Hdisj & _). apply Hdisj.
        simpl. apply elem_of_cons. by left. }
      pose proof (node_side _ _ _ _ _ Hc3 Hmc Hfo3) as Hside3.
      match type of Hc3 with cshape ?h2 _ _ =>
        destruct (relink_ok get_right (State h2 (root st2) (length st2))
                    f3 c3 m _ mr Hm' eq_refl)
          as (h3 & Hrun3 & Hc3' & Hs3' & Hlen3); [|exact Hc3|exact Hmr|exact Hnd3|]
      end.
      { intros st' Ha'. by rewrite (get_right_ok _ _ _ Ha'). }
      erewrite bind_ok; cycle 1.
      { mstep get_right_ok. cbn [right].
        erewrite bind_ok by exact Hlmd.
        mstep get_value_ok. cbn [value].
        unfold set_value. erewrite bind_ok by (apply update_ok; exact Ha2).
        cbn [parent left right].
        mstep get_parent_ok. cbn [parent].
        mstep get_left_ok. rewrite Hside3. exact Hrun3. }
      cbn [root length].
      apply (Hfin h3).
      apply (zrep_step _ (FR (N ll la lv lr) a mv)); [done|].
      apply zrep_app; [done|]. rewrite Hc3eq.
      split; [exact Hc3'|]. split; [exact Hs3'|].
      simpl in Hnd3 |- *. by apply NoDup_cons in Hnd3 as (_ & Hnd3).
Qed.

(** The [parent] of the root node of a state that holds a tree under
    the context [c]. *)
Lemma root_parent_cpar st t c :
  zrep (heap st) c t -> root st = rootref t -> t <> E ->
  root_parent st = Some (cpar c).
Proof.
  intros (_ & Hs & _) Hroot Hne. destruct t as [|l a w r]; [done|].
  destruct Hs as (Ha & _). unfold root_parent. rewrite Hroot. cbn [rootref].
  by rewrite Ha.
Qed.

(** The value of the root node. *)
Lemma root_value st t c a o :
  zrep (heap st) c t -> root st = rootref t ->
  root st = val a -> heap st !! a = Some o ->
  exists l r w, t = N l a w r /\ value o = val w.
Proof.
  intros (_ & Hs & _) Hroot Ha Ho. rewrite Hroot in Ha.
  destruct t as [|l a' w r]; [done|]. injection Ha as ->.
  destruct Hs as (Ha & _). rewrite Ha in Ho. injection Ho as <-. eauto.
Qed.

(** X18.  [remove] of the value the root node holds, when it leaves a
    root: the [parent] of the root is then not [null], it is an object
    made by the call, which has only a [left], the root. *)
Theorem remove_at_root (ops : list op) rets st a o v ret st' :
  run cmp ops init = Ok (rets, st) ->
  root st = val a -> heap st !! a = Some o -> value o = val v ->
  remove cmp v st = Ok (ret, st') -> root st' <> null ->
  exists p,
    root_parent st' = Some (val p)
    /\ heap st !! p = None
    /\ heap st' !! p = Some (Obj undefined undefined (root st') undefined).
Proof.
  intros Hrun Hroot Ho Hv Hrem Hroot'.
  destruct (run_Inv _ _ _ _ Hrun) as (t & (c0 & Htop & Hz & Hr & Hlen) & _).
  destruct (root_value _ _ _ _ _ Hz Hr Hroot Ho) as (l & r & w & -> & Hw).
  rewrite Hv in Hw. injection Hw as <-.
  assert (path cmp v (N l a v r) = ([], N l a v r)) as Hpath
    by (cbn [path]; by rewrite decide_True).
  destruct (remove_top v st _ c0 Htop Hz Hr Hlen) as (st1 & Hrem1 & Hz1 & Hr1 & _).
  { by rewrite Hpath. }
  rewrite Hrem in Hrem1. injection Hrem1 as _ <-.
  rewrite Hpath in Hz1. cbn [fst] in Hz1.
  exists (List.length (heap st)). split; [|split].
  - apply (root_parent_cpar _ _ _ Hz1 Hr1). intros He. by rewrite Hr1, He in Hroot'.
  - by apply lookup_ge_None.
  - destruct Hz1 as ((Hp & _) & _). by rewrite Hr1.
Qed.

(** X19.  The other calls leave the root and its [parent] as they are:
    an [insert] into a tree that has a root, and a [remove] of a value
    other than the one the root node holds. *)
Theorem root_parent_kept (ops : list op) rets st a o (call : op) ret st' :
  run cmp ops init = Ok (rets, st) ->
  root st = val a -> heap st !! a = Some o ->
  (forall v, call = Remove v -> value o <> val v) ->
  exec cmp call st = Ok (ret, st') ->
  root st' = root st /\ root_parent st' = root_parent st.
Proof.
  intros Hrun Hroot Ho Hcall Hexec.
  destruct (run_Inv _ _ _ _ Hrun) as (t & (c0 & Htop & Hz & Hr & Hlen) & _).
  destruct (root_value _ _ _ _ _ Hz Hr Hroot Ho) as (l & r & w & -> & Hw).
  rewrite (root_parent_cpar _ _ _ Hz Hr) by done.
  destruct call as [v|v]; cbn [exec] in Hexec.
  - destruct (insert_top v st _ c0 Htop Hz Hr Hlen) as (ret1 & st1 & Hins & Hz1 & Hr1 & _).
    rewrite Hexec in Hins. injection Hins as _ <-.
    assert (tinsert cmp (List.length (heap st)) v (N l a w r) <> E) as Hne
      by (cbn [tinsert]; by destruct (cmp v w)).
    rewrite (root_parent_cpar _ _ _ Hz1 Hr1 Hne).
    by rewrite Hr1, rootref_tinsert, Hr.
  - assert (w <> v) as Hwv by (intros ->; by apply (Hcall v)).
    destruct (path_focus cmp v (N l a w r)) as [Hf|(l' & a' & r' & Hf')];
      [|assert ((path cmp v (N l a w r)).2 <> E) as Hf by (by rewrite Hf')].
    + assert (Inv st (N l a w r)) as HI by (exists c0; done).
      pose proof (search_spec cmp v st _ HI) as Hs. rewrite Hf in Hs.
      rewrite (remove_not_found cmp v st _ _ Hs eq_refl) in Hexec.
      injection Hexec as _ <-. split; [done|]. by apply (root_parent_cpar _ _ _ Hz Hr).
    + destruct (remove_top v st _ c0 Htop Hz Hr Hlen Hf) as (st1 & Hrem & Hz1 & Hr1 & _).
      rewrite Hexec in Hrem. injection Hrem as _ <-.
      assert ((path cmp v (N l a w r)).1 <> []) as Hc.
      { cbn [path]. rewrite decide_False by done.
        destruct (cmp v w); [destruct (path cmp v l)|destruct (path cmp v r)];
          cbn [fst]; by intros [_ ?]%app_eq_nil. }
      destruct ((path cmp v (N l a w r)).1) as [|f c]; [done|].
      rewrite tremove_N, decide_False in Hz1, Hr1 by done.
      split.
      * rewrite Hr1, Hr. by destruct (cmp v w).
      * apply (root_parent_cpar _ _ _ Hz1 Hr1). by destruct (cmp v w).
Qed.

Lemma forEach_top (items : list T) : forall st t,
  zrep (heap st) [] t -> root st = rootref t ->
  length st = Z.of_nat (size t) ->
  exists st' t',
    forEach (insert cmp) items st = Ok (tt, st')
    /\ zrep (heap st') [] t' /\ root st' = rootref t'
    /\ length st' = Z.of_nat (size t')
    /\ (t' = E -> items = []).
Proof.
  induction items as [|x items IH]; intros st t Hz Hr Hlen.
  - exists st, t. split; [reflexivity|done].
  - destruct (insert_top x st t [] (or_introl eq_refl) Hz Hr Hlen)
      as (ret & st1 & Hins & Hz1 & Hr1 & Hlen1).
    assert (zrep (heap st1) [] (tinsert cmp (List.length (heap st)) x t)) as Hz1'
      by (by destruct t).
    destruct (IH _ _ Hz1' Hr1 Hlen1) as (st' & t' & Hrun & Hz' & Hr' & Hlen' & Hne).
    exists st', t'. cbn [forEach]. erewrite bind_ok by exact Hins.
    split; [exact Hrun|]. split; [done|]. split; [done|]. split; [done|].
    intros He. specialize (Hne He). subst items t'.
    change (forEach (insert cmp) [] st1) with (Ok (tt, st1)) in Hrun.
    injection Hrun as <-. rewrite Hr1 in Hr'.
    destruct t as [|? ? w ?]; cbn [tinsert] in Hr'; [done|by destruct (cmp x w)].
Qed.

(** X20.  A tree as the constructor leaves it: when the list is not
    empty there is a root node, and its [parent] is [null]. *)
Theorem constructor_root_parent (items : list T) :
  items <> [] ->
  exists st a,
    constructor cmp items = Ok (tt, st)
    /\ root st = val a /\ root_parent st = Some null.
Proof.
  intros Hne.
  destruct (forEach_top items init E) as (st & t & Hrun & Hz & Hr & _ & Ht);
    [|done|done|].
  { split; [done|]. split; [done|]. apply NoDup_nil. done. }
  destruct t as [|l a w r]; [by specialize (Ht eq_refl)|].
  exists st, a. split; [exact Hrun|]. split; [done|].
  by apply (root_parent_cpar _ _ _ Hz Hr).
Qed.

End AboveRoot.

(** ** The node objects *)

Section Nodes.

Context {T : Type} `{EqDecision T}.
Variable cmp : T -> T -> bool.
Implicit Types (h : list (@obj T)) (st : @state T) (t l r : @tree T)
  (c : @ctx T) (f : @frame T) (a b n m p : addr) (o : @obj T) (v w : T).

Lemma addrs_plug_perm c t :
  Forall is_node c -> addrs (plug c t) ≡ₚ addrs t ++ caddrs c.
Proof.
  intros Hc. revert t. induction Hc as [|f c Hf Hc IH]; intros t.
  - by rewrite app_nil_r.
  - cbn [plug caddrs]. rewrite IH.
    destruct f as [b w r|l b w|p]; [| |done]; cbn [fill addrs faddrs].
    + exact (perm_focus_left b (addrs t) (addrs r) (caddrs c)).
    + exact (perm_focus_right b (addrs t) (addrs l) (caddrs c)).
Qed.

(** The node [remove] takes out of the tree: the node found, or, when
    that has two children, the leftmost node of its right subtree. *)
Lemma addrs_remove_root l a v r :
  addrs (N l a v r)
  ≡ₚ match l, r with
     | N _ _ _ _, N rl ra rv rr => (lm rl ra rv rr).1.1.2
     | _, _ => a
     end :: addrs (remove_root (N l a v r)).
Proof.
  cbn [remove_root]. destruct l as [|ll la lv lr]; [done|].
  destruct r as [|rl ra rv rr]; [by rewrite (addrs_N _ a v E), app_nil_r|].
  pose proof (lm_addrs rl ra rv rr) as Hp.
  destruct (lm rl ra rv rr) as [[[cm m] mv] mr]. cbn [fst snd].
  rewrite !addrs_N. rewrite !addrs_N in Hp. rewrite Hp.
  rewrite <- Permutation_middle. apply perm_swap.
Qed.

(** The objects of a tree are read off the tree. *)
Lemma shape_lookup h h' par t b o :
  shape h par t -> shape h' par t -> b ∈ addrs t ->
  h !! b = Some o -> h' !! b = Some o.
Proof.
  revert par. induction t as [|l IHl a w r IHr]; intros par Hs Hs' Hb Ho.
  - by apply elem_of_nil in Hb.
  - destruct Hs as (Ha & Hl & Hr). destruct Hs' as (Ha' & Hl' & Hr').
    cbn [addrs] in Hb. rewrite elem_of_cons, elem_of_app in Hb.
    destruct Hb as [->|[Hb|Hb]]; [congruence|eauto..].
Qed.

(** [insert] leaves the value and the parent of every node as they are,
    and the node it adds is a leaf. *)
Lemma tinsert_keeps n v t : forall h h' par b o,
  shape h par t -> shape h' par (tinsert cmp n v t) -> b ∈ addrs t ->
  h !! b = Some o ->
  exists o', h' !! b = Some o' /\ value o' = value o /\ parent o' = parent o.
Proof.
  induction t as [|l IHl a w r IHr]; intros h h' par b o Hs Hs' Hb Ho.
  - by apply elem_of_nil in Hb.
  - destruct Hs as (Ha & Hl & Hr). cbn [addrs] in Hb.
    rewrite elem_of_cons, elem_of_app in Hb. cbn [tinsert] in Hs'.
    destruct (cmp v w); destruct Hs' as (Ha' & Hl' & Hr').
    + destruct Hb as [->|[Hb|Hb]].
      * rewrite Ha in Ho. injection Ho as <-. eexists. split; [exact Ha'|done].
      * exact (IHl _ _ _ _ _ Hl Hl' Hb Ho).
      * exists o. split; [|done]. exact (shape_lookup _ _ _ _ _ _ Hr Hr' Hb Ho).
    + destruct Hb as [->|[Hb|Hb]].
      * rewrite Ha in Ho. injection Ho as <-. eexists. split; [exact Ha'|done].
      * exists o. split; [|done]. exact (shape_lookup _ _ _ _ _ _ Hl Hl' Hb Ho).
      * exact (IHr _ _ _ _ _ Hr Hr' Hb Ho).
Qed.

Lemma tinsert_new n v t : forall h' par,
  shape h' par (tinsert cmp n v t) ->
  exists pn : ref, h' !! n = Some (Obj (val v) pn null null).
Proof.
  induction t as [|l IHl a w r IHr]; intros h' par Hs.
  - destruct Hs as (Hn & _). eauto.
  - cbn [tinsert] in Hs. destruct (cmp v w); destruct Hs as (_ & Hl & Hr); eauto.
Qed.

(** X21.  [insert] adds a leaf and changes no node: the nodes reachable
    afterwards are those reachable before and one new object, which
    holds the value and has no children; every other node keeps its
    value and its [parent]. *)
Theorem insert_adds_leaf (ops : list op) rets st v ret st' nodes nodes' :
  run cmp ops init = Ok (rets, st) -> insert cmp v st = Ok (ret, st') ->
  reachable st = Some nodes -> reachable st' = Some nodes' ->
  exists n par,
    nodes' ≡ₚ n :: nodes
    /\ heap st !! n = None
    /\ heap st' !! n = Some (Obj (val v) par null null)
    /\ forall b o, b ∈ nodes -> heap st !! b = Some o ->
         exists o', heap st' !! b = Some o'
                    /\ value o' = value o /\ parent o' = parent o.
Proof.
  intros Hrun Hins Hreach Hreach'.
  destruct (run_Inv _ _ _ _ Hrun) as (t & HI & _).
  destruct (reachable_spec st t HI) as (Hr & _).
  rewrite Hreach in Hr. injection Hr as ->.
  destruct HI as (c0 & Htop & Hz & Hroot & Hlen).
  destruct (insert_top cmp v st t c0 Htop Hz Hroot Hlen)
    as (ret1 & st1 & Hins1 & Hz1 & Hroot1 & Hlen1).
  rewrite Hins in Hins1. injection Hins1 as _ <-.
  assert (Inv st' (tinsert cmp (List.length (heap st)) v t)) as HI'.
  { eexists. split; [|split; [exact Hz1|done]]. destruct t; [by left|done]. }
  destruct (reachable_spec st' _ HI') as (Hr' & _).
  rewrite Hreach' in Hr'. injection Hr' as ->.
  destruct Hz1 as (_ & Hs1 & _). destruct (tinsert_new _ _ _ _ _ Hs1) as (par & Hn).
  exists (List.length (heap st)), par.
  split; [apply addrs_tinsert|]. split; [by apply lookup_ge_None|].
  split; [exact Hn|]. intros b o Hb Ho.
  destruct t as [|l a w r]; [by apply elem_of_nil in Hb|].
  destruct Hz as (_ & Hs & _). cbn [cpar] in Hs1.
  exact (tinsert_keeps _ _ _ _ _ _ _ _ Hs Hs1 Hb Ho).
Qed.

(** X22.  [remove] takes one node object out of the tree, and not always
    the one [search] finds: when that node has two children it stays in
    the tree and takes the value of the leftmost node of its right
    subtree, and that node is the one taken out. *)
Theorem remove_unlinks_one (ops : list op) rets st v a o ret st' nodes nodes' :
  run cmp ops init = Ok (rets, st) ->
  search cmp v st = Ok (val a, st) -> heap st !! a = Some o ->
  remove cmp v st = Ok (ret, st') ->
  reachable st = Some nodes -> reachable st' = Some nodes' ->
  exists u,
    nodes ≡ₚ u :: nodes' /\ (u ∉ nodes')
    /\ if truthy (left o) && truthy (right o)
       then getLeftmostDescendant (right o) st = Ok (val u, st)
            /\ a ∈ nodes'
            /\ (value <$> heap st' !! a) = (value <$> heap st !! u)
       else u = a.
Proof.
  intros Hrun Hsearch Ho Hrem Hreach Hreach'.
  destruct (run_Inv _ _ _ _ Hrun) as (t & HI & _).
  destruct (reachable_spec st t HI) as (Hr & Hnd).
  rewrite Hreach in Hr. injection Hr as ->.
  rewrite (search_spec cmp v st t HI) in Hsearch. injection Hsearch as Hfoc.
  destruct HI as (c0 & Htop & Hz & Hroot & Hlen).
  assert ((path cmp v t).2 <> E) as Hf by (intros He; by rewrite He in Hfoc).
  destruct (remove_top cmp v st t c0 Htop Hz Hroot Hlen Hf)
    as (st1 & Hrem1 & Hz1 & Hroot1 & Hlen1).
  rewrite Hrem in Hrem1. injection Hrem1 as _ <-.
  assert (Inv st' (tremove cmp v t)) as HI'.
  { eexists. split; [|split; [exact Hz1|done]].
    destruct (path cmp v t).1; [right; eauto|done]. }
  destruct (reachable_spec st' _ HI') as (Hr' & _).
  rewrite Hreach' in Hr'. injection Hr' as ->. clear HI'.
  unfold tremove in *.
  pose proof (path_plug cmp v t) as Hplug.
  pose proof (path_nodes cmp v t) as Hnodes.
  destruct (path cmp v t) as [c foc]. cbn [fst snd] in *.
  destruct foc as [|l a' w r]; [done|]. injection Hfoc as ->. clear Hf.
  subst t.
  apply zrep_app in Hz; [|done]. apply zrep_app in Hz1; [|done].
  pose proof (zrep_size _ _ _ Hz) as Hsz.
  destruct Hz as (_ & Hs & _). pose proof Hs as (Ha & Hl & Hr).
  rewrite Ha in Ho. injection Ho as <-. cbn [left right].
  pose proof (addrs_remove_root l a w r) as Hperm.
  set (u := match l, r with
            | N _ _ _ _, N rl ra rv rr => (lm rl ra rv rr).1.1.2
            | _, _ => a
            end) in *.
  assert (addrs (plug c (N l a w r)) ≡ₚ u :: addrs (plug c (remove_root (N l a w r))))
    as Hall.
  { rewrite !addrs_plug_perm by done. by rewrite Hperm. }
  exists u. split; [exact Hall|]. split.
  { rewrite Hall in Hnd. by apply NoDup_cons in Hnd as (? & _). }
  destruct l as [|ll la lv lr]; [done|]. destruct r as [|rl ra rv rr]; [done|].
  cbn [rootref truthy andb]. subst u.
  pose proof (lm_lookup _ _ _ _ _ _ Hr) as Hlm.
  pose proof (getLeftmostDescendant_fuel_spec rl ra rv rr (fuel_of st) _ st Hr) as Hld.
  cbn [remove_root] in Hz1 |- *.
  destruct (lm rl ra rv rr) as [[[cm m] mv] mr]. cbn [fst snd] in *.
  destruct Hlm as (pm & Hm). split; [|split].
  - unfold getLeftmostDescendant. apply Hld.
    pose proof (height_le_size rl). unfold fuel_of. cbn [size] in Hsz. lia.
  - rewrite addrs_plug_perm by done. apply elem_of_app. left.
    apply elem_of_cons. by left.
  - destruct Hz1 as (_ & (-> & _) & _). by rewrite Hm.
Qed.

End Nodes.

(** ** The further properties at concrete inputs *)

(** The calls that build the tree of [[2, 1, 3]]. *)
Lemma run_213 :
  run Z.ltb [Insert 2; Insert 1; Insert 3] init
  = Ok ([val 1; val 2; val 3], state_213).
Proof. vm_compute; reflexivity. Qed.

Lemma reachable_213 : reachable state_213 = Some [0; 1; 2]%nat.
Proof. vm_compute; reflexivity. Qed.

(** X1 at the tree of [[2, 1, 3]]: [insert(0)] goes past the root, whose
    left child is there, and returns [undefined]. *)
Lemma insert_returns_witness :
  exists ret st',
    insert Z.ltb 0 state_213 = Ok (ret, st')
    /\ length st' = 4 /\ ret = undefined.
Proof.
  destruct (insert_returns Z.ltb _ _ state_213 0 run_213)
    as (ret & st' & Hins & Hlen & _ & Hret).
  exists ret, st'. split; [exact Hins|]. split; [exact Hlen|].
  exact (Hret 0%nat _ 2 eq_refl eq_refl eq_refl).
Defined.

(** X2 at the tree of [[2, 1, 3]] and the value 5. *)
Lemma insert_then_search_witness :
  exists ret st' a o,
    insert Z.ltb 5 state_213 = Ok (ret, st')
    /\ search Z.ltb 5 st' = Ok (val a, st')
    /\ heap st' !! a = Some o /\ value o = val 5.
Proof.
  assert (exists ret st', insert Z.ltb 5 state_213 = Ok (ret, st'))
    as (ret & st' & Hins) by (eexists _, _; vm_compute; reflexivity).
  destruct (insert_then_search Z.ltb _ _ state_213 5 ret st' run_213 Hins)
    as (a & o & Hs & Ha & Hv).
  exists ret, st', a, o. repeat split; assumption.
Defined.

(** X3 at the tree of [[2, 1, 3]] and the value 2, which the root
    holds. *)
Lemma remove_found_witness :
  exists st' xs ys,
    remove Z.ltb 2 state_213 = Ok (val 2, st')
    /\ length st' = 2
    /\ toArray state_213 = Ok (val <$> (xs ++ 2 :: ys), state_213)
    /\ toArray st' = Ok (val <$> (xs ++ ys), st').
Proof.
  destruct (remove_found Z.ltb _ _ state_213 2 0%nat run_213 eq_refl)
    as (st' & xs & ys & Hrem & Hlen & Hbefore & _ & Hafter).
  rewrite spread_all_plain in Hbefore by done.
  assert (xs ++ ys <> []) as Hne.
  { intros Hnil. apply app_eq_nil in Hnil as [-> ->]. discriminate Hbefore. }
  specialize (Hafter Hne). rewrite spread_all_plain in Hafter by done.
  exists st', xs, ys. repeat split; assumption.
Defined.

(** X4 at the root node of the tree of [[2, 1, 3]]. *)
Lemma child_parent_links_witness :
  parent <$> heap state_213 !! 1%nat = Some (val 0%nat)
  /\ parent <$> heap state_213 !! 2%nat = Some (val 0%nat).
Proof.
  destruct (child_parent_links Z.ltb _ _ state_213 [0; 1; 2]%nat 0%nat
              (Obj (val 2) null (val 1%nat) (val 2%nat)) run_213 reachable_213)
    as (_ & Hl & Hr & _).
  - apply (bool_decide_unpack _). vm_compute. exact I.
  - reflexivity.
  - split; [exact (Hl 1%nat eq_refl)|exact (Hr 2%nat eq_refl)].
Defined.

(** X5 at the tree of [[2, 1, 3]]. *)
Lemma root_parent_shape_witness :
  root_parent state_213 = Some null
  \/ exists p, root_parent state_213 = Some (val p)
               /\ heap state_213 !! p
                  = Some (Obj undefined undefined (val 0%nat) undefined).
Proof.
  exact (root_parent_shape Z.ltb _ _ state_213 0%nat run_213 eq_refl).
Defined.

(** X6 at a tree of arrays, [[2]], [[1]] and [[]] put in by their
    lengths: three elements, and the two entries [concat] makes of
    them. *)
Lemma toArray_length_witness :
  exists st xs,
    run shorter [Insert (Arr 0 [2]); Insert (Arr 1 [1]); Insert (Arr 2 [])] init
    = Ok ([val 1; val 2; val 3], st)
    /\ toArray st = Ok (spread_all xs, st)
    /\ Z.of_nat (List.length xs) = 3
    /\ toArray st = Ok ([val (Num 2); val (Num 1)], st).
Proof.
  assert (exists st,
            run shorter [Insert (Arr 0 [2]); Insert (Arr 1 [1]); Insert (Arr 2 [])] init
            = Ok ([val 1; val 2; val 3], st)
            /\ root st <> null /\ length st = 3
            /\ toArray st = Ok ([val (Num 2); val (Num 1)], st))
    as (st & Hrun & Hroot & Hcount & Harr).
  { eexists. split; [vm_compute; reflexivity|].
    split; [discriminate|]. split; reflexivity. }
  destruct (toArray_length shorter _ _ st Hrun Hroot) as (xs & Hto & Hlen & _).
  exists st, xs. split; [exact Hrun|]. split; [exact Hto|].
  split; [by rewrite Hlen|exact Harr].
Defined.


(** X8 at the root node of the tree of [[2, 1, 3]]. *)
Lemma descendants_hold_ends_witness :
  exists es m k om ok,
    toArray_from (val 0%nat) state_213 = Ok (spread_all es, state_213)
    /\ getLeftmostDescendant (val 0%nat) state_213 = Ok (val m, state_213)
    /\ heap state_213 !! m = Some om /\ left om = null
    /\ val <$> head es = Some (value om)
    /\ getRightmostDescendant (val 0%nat) state_213 = Ok (val k, state_213)
    /\ heap state_213 !! k = Some ok /\ right ok = null
    /\ val <$> last es = Some (value ok).
Proof.
  apply (descendants_hold_ends Z.ltb _ _ state_213 [0; 1; 2]%nat 0%nat
           run_213 reachable_213).
  apply (bool_decide_unpack _). vm_compute. exact I.
Defined.

(** X9 at the tree of [[2, 1, 3]] and the value 2. *)
Lemma calls_return_witness :
  (exists ret st', insert Z.ltb 2 state_213 = Ok (ret, st'))
  /\ (exists ret, search Z.ltb 2 state_213 = Ok (ret, state_213))
  /\ (exists ret st', remove Z.ltb 2 state_213 = Ok (ret, st'))
  /\ (exists ret, getPredecessor Z.ltb 2 state_213 = Ok (ret, state_213))
  /\ (exists ret, getSuccessor Z.ltb 2 state_213 = Ok (ret, state_213))
  /\ (root state_213 = null -> toArray state_213 = Fail TypeError)
  /\ (root state_213 <> null ->
      exists arr, toArray state_213 = Ok (arr, state_213)).
Proof.
  exact (calls_return Z.ltb _ _ state_213 2 run_213).
Defined.

(** X10 at the tree of [[2, 1, 3]]: 3 is found, in a node that holds
    it. *)
Lemma search_membership_witness :
  exists a o,
    search Z.ltb 3 state_213 = Ok (val a, state_213)
    /\ heap state_213 !! a = Some o /\ value o = val 3.
Proof.
  destruct (search_membership Z.ltb ltb_irrefl ltb_trans ltb_total
              _ _ state_213 3 run_213) as (ret & Hs & Hret).
  assert (ret = val 2%nat) as -> by (vm_compute in Hs; by injection Hs).
  destruct Hret as (_ & o & Ho & Hv). by exists 2%nat, o.
Defined.

(** X11 at the tree of [[2, 1, 3]] and a second 2. *)
Lemma insert_position_witness :
  exists ret st' xs ys,
    insert Z.ltb 2 state_213 = Ok (ret, st')
    /\ toArray st' = Ok (val <$> (xs ++ 2 :: ys), st')
    /\ Forall (fun x => (2 <? x) = false) xs
    /\ Forall (fun y => (2 <? y) = true) ys
    /\ toArray state_213 = Ok (val <$> (xs ++ ys), state_213).
Proof.
  assert (exists ret st', insert Z.ltb 2 state_213 = Ok (ret, st'))
    as (ret & st' & Hins) by (eexists _, _; vm_compute; reflexivity).
  destruct (insert_position Z.ltb ltb_irrefl ltb_trans ltb_total
              _ _ state_213 2 ret st' run_213 Hins)
    as (xs & ys & Harr & Hxs & Hys & _ & Hbefore).
  rewrite spread_all_plain in Harr by done.
  assert (root state_213 <> null) as Hroot by discriminate.
  specialize (Hbefore Hroot). rewrite spread_all_plain in Hbefore by done.
  exists ret, st', xs, ys. repeat split; assumption.
Defined.

(** X12 at the list [[2, 1, 3]]. *)
Lemma constructor_sorts_witness :
  exists st xs,
    constructor Z.ltb [2; 1; 3] = Ok (tt, st)
    /\ length st = 3
    /\ toArray st = Ok (val <$> xs, st)
    /\ ascending Z.ltb xs /\ xs ≡ₚ [2; 1; 3].
Proof.
  destruct (constructor_sorts Z.ltb ltb_irrefl ltb_trans ltb_total [2; 1; 3])
    as (st & Hc & Hlen & _ & Harr).
  destruct Harr as (xs & Hto & Hasc & Hp); [discriminate|].
  rewrite spread_all_plain in Hto by done.
  exists st, xs. repeat split; assumption.
Defined.

(** X13 at the tree of [[2, 1, 3]]: the predecessor of 2 is 1. *)
Lemma predecessor_greatest_below_witness :
  exists ret,
    getPredecessor Z.ltb 2 state_213 = Ok (ret, state_213)
    /\ match ret with
       | val u => u ∈ stored [Insert 2; Insert 1; Insert 3] /\ (u <? 2) = true
                  /\ forall x, x ∈ stored [Insert 2; Insert 1; Insert 3] ->
                               (x <? 2) = true -> (u <? x) = false
       | null => forall x, x ∈ stored [Insert 2; Insert 1; Insert 3] ->
                           (x <? 2) = false
       | undefined => False
       end.
Proof.
  apply (predecessor_greatest_below Z.ltb ltb_irrefl ltb_trans ltb_total
           _ _ state_213 2 run_213).
  apply (bool_decide_unpack _). vm_compute. exact I.
Defined.

(** X14 at the tree of [[2, 1, 3]]: the successor of 2 is there. *)
Lemma successor_least_above_witness :
  exists ret,
    getSuccessor Z.ltb 2 state_213 = Ok (ret, state_213)
    /\ match ret with
       | val w =>
           w ∈ stored [Insert 2; Insert 1; Insert 3] /\ (w <? 2) = false
           /\ (forall x, x ∈ stored [Insert 2; Insert 1; Insert 3] ->
                         (2 <? x) = true -> (x <? w) = false)
           /\ (w = 2 <->
               (2 <= count_of 2 (stored [Insert 2; Insert 1; Insert 3]))%nat)
       | null =>
           is_max Z.ltb 2 (stored [Insert 2; Insert 1; Insert 3])
           /\ count_of 2 (stored [Insert 2; Insert 1; Insert 3]) = 1%nat
           /\ root_parent state_213 = Some null
       | undefined =>
           is_max Z.ltb 2 (stored [Insert 2; Insert 1; Insert 3])
           /\ count_of 2 (stored [Insert 2; Insert 1; Insert 3]) = 1%nat
           /\ exists p, root_parent state_213 = Some (val p)
       end.
Proof.
  apply (successor_least_above Z.ltb ltb_irrefl ltb_trans ltb_total
           _ _ state_213 2 run_213).
  apply (bool_decide_unpack _). vm_compute. exact I.
Defined.

(** X15 at the tree of [[2, 1, 3]] and the value 7. *)
Lemma neighbours_of_missing_witness :
  getPredecessor Z.ltb 7 state_213 = Ok (null, state_213)
  /\ getSuccessor Z.ltb 7 state_213 = Ok (null, state_213).
Proof.
  apply (neighbours_of_missing Z.ltb ltb_irrefl ltb_trans ltb_total
           _ _ state_213 7 run_213).
  apply (bool_decide_unpack _). vm_compute. exact I.
Defined.

(** X16 at the tree of [[2, 1, 3]]: 2 is stored once, and is not found
    after [remove(2)]. *)
Lemma remove_then_search_witness :
  exists ret st',
    remove Z.ltb 2 state_213 = Ok (ret, st')
    /\ search Z.ltb 2 st' = Ok (null, st').
Proof.
  assert (exists ret st', remove Z.ltb 2 state_213 = Ok (ret, st'))
    as (ret & st' & Hrem) by (eexists _, _; vm_compute; reflexivity).
  destruct (remove_then_search Z.ltb ltb_irrefl ltb_trans ltb_total
              _ _ state_213 2 ret st' run_213 Hrem) as (found & Hs & Hiff).
  exists ret, st'. split; [exact Hrem|].
  assert (found = null) as <-; [|exact Hs].
  apply Hiff. vm_compute. lia.
Defined.

(** X17 at the tree of [[2, 1, 3]] and the value 5. *)
Lemma insert_remove_restores_witness :
  exists ret1 st1 ret2 st2,
    insert Z.ltb 5 state_213 = Ok (ret1, st1)
    /\ remove Z.ltb 5 st1 = Ok (ret2, st2)
    /\ ret2 = val 3 /\ length st2 = 3
    /\ toArray st2 = Ok ([val 1; val 2; val 3], st2).
Proof.
  assert (exists ret1 st1 ret2 st2,
            insert Z.ltb 5 state_213 = Ok (ret1, st1)
            /\ remove Z.ltb 5 st1 = Ok (ret2, st2))
    as (ret1 & st1 & ret2 & st2 & Hins & Hrem)
    by (eexists _, _, _, _; split; vm_compute; reflexivity).
  destruct (insert_remove_restores Z.ltb ltb_irrefl ltb_trans ltb_total
              _ _ state_213 5 ret1 st1 ret2 st2 run_213 Hins Hrem)
    as (Hret & Hlen & _ & Harr).
  exists ret1, st1, ret2, st2. split; [exact Hins|]. split; [exact Hrem|].
  split; [exact Hret|]. split; [exact Hlen|].
  apply Harr. reflexivity.
Defined.

(** X18 at the tree of [[2, 1, 3]] and the value 2 of its root. *)
Lemma remove_at_root_witness :
  exists ret st' p,
    remove Z.ltb 2 state_213 = Ok (ret, st')
    /\ root_parent st' = Some (val p)
    /\ heap state_213 !! p = None
    /\ heap st' !! p = Some (Obj undefined undefined (root st') undefined).
Proof.
  assert (exists ret st', remove Z.ltb 2 state_213 = Ok (ret, st')
                          /\ root st' <> null)
    as (ret & st' & Hrem & Hroot)
    by (eexists _, _; split; [vm_compute; reflexivity|discriminate]).
  destruct (remove_at_root Z.ltb _ _ state_213 0%nat _ 2 ret st'
              run_213 eq_refl eq_refl eq_refl Hrem Hroot)
    as (p & Hp & Hfresh & Hobj).
  exists ret, st', p. repeat split; assumption.
Defined.

(** X19 at the tree of [[2, 1, 3]] and the call [insert(5)]. *)
Lemma root_parent_kept_witness :
  exists ret st',
    insert Z.ltb 5 state_213 = Ok (ret, st')
    /\ root st' = root state_213
    /\ root_parent st' = root_parent state_213.
Proof.
  assert (exists ret st', exec Z.ltb (Insert 5) state_213 = Ok (ret, st'))
    as (ret & st' & Hins) by (eexists _, _; vm_compute; reflexivity).
  destruct (root_parent_kept Z.ltb _ _ state_213 0%nat _ (Insert 5) ret st'
              run_213 eq_refl eq_refl) as (Hroot & Hpar);
    [discriminate|exact Hins|].
  exists ret, st'. split; [exact Hins|]. split; assumption.
Defined.

(** X20 at the list [[2, 1]]. *)
Lemma constructor_root_parent_witness :
  exists st a,
    constructor Z.ltb [2; 1] = Ok (tt, st)
    /\ root st = val a /\ root_parent st = Some null.
Proof.
  apply (constructor_root_parent Z.ltb [2; 1]). discriminate.
Defined.

(** X21 at the tree of [[2, 1, 3]] and the value 5. *)
Lemma insert_adds_leaf_witness :
  exists ret st' nodes' n par,
    insert Z.ltb 5 state_213 = Ok (ret, st')
    /\ reachable st' = Some nodes'
    /\ nodes' ≡ₚ n :: [0; 1; 2]%nat
    /\ heap state_213 !! n = None
    /\ heap st' !! n = Some (Obj (val 5) par null null).
Proof.
  assert (exists ret st' nodes',
            insert Z.ltb 5 state_213 = Ok (ret, st')
            /\ reachable st' = Some nodes')
    as (ret & st' & nodes' & Hins & Hreach)
    by (eexists _, _, _; split; vm_compute; reflexivity).
  destruct (insert_adds_leaf Z.ltb _ _ state_213 5 ret st' _ nodes'
              run_213 Hins reachable_213 Hreach)
    as (n & par & Hp & Hfresh & Hn & _).
  exists ret, st', nodes', n, par. repeat split; assumption.
Defined.

(** X22 at the tree of [[2, 1, 3]] and the value 2: the root node has
    two children, it stays and takes the value 3, and the node that held
    3 leaves the tree. *)
Lemma remove_unlinks_one_witness :
  exists ret st' nodes' u,
    remove Z.ltb 2 state_213 = Ok (ret, st')
    /\ reachable st' = Some nodes'
    /\ [0; 1; 2]%nat ≡ₚ u :: nodes' /\ (u ∉ nodes')
    /\ getLeftmostDescendant (val 2%nat) state_213 = Ok (val u, state_213)
    /\ (0%nat ∈ nodes')
    /\ (value <$> heap st' !! 0%nat) = (value <$> heap state_213 !! u).
Proof.
  assert (exists ret st' nodes',
            remove Z.ltb 2 state_213 = Ok (ret, st')
            /\ reachable st' = Some nodes')
    as (ret & st' & nodes' & Hrem & Hreach)
    by (eexists _, _, _; split; vm_compute; reflexivity).
  destruct (remove_unlinks_one Z.ltb _ _ state_213 2 0%nat
              (Obj (val 2) null (val 1%nat) (val 2%nat)) ret st' _ nodes'
              run_213 eq_refl eq_refl Hrem reachable_213 Hreach)
    as (u & Hp & Hu & Hd & Ha & Hv).
  exists ret, st', nodes', u. repeat split; assumption.
Defined.
